(** * A shallow embedding of the Microsoft-style markdown linter

    The development follows [mmos_linter.py]: the character and string
    operations of Python that the linter relies on, the backtracking
    regular-expression matcher of the [re] module restricted to the
    constructs the linter's patterns use, the rule catalog, the context
    tracker [is_in_code_block], the eighteen check functions, [lint_file],
    [generate_report] and the control flow of [main].

    Text is modelled as [string], whose characters are the code points
    0..255 (the Latin-1 range of Unicode); the classification tables below
    are those of Python 3 on that range.  Outside that range Python's
    case-insensitive matching has pairs that [str.lower] does not relate
    (the long s U+017F matches [s], the dotted capital I U+0130 matches
    [i]); text with such characters is outside the model.  Of [main], the
    model covers the run from the parsed arguments to the value passed to
    [sys.exit]: the command line that [argparse] rejects (no path, or a
    severity that is not a choice; exit status 2), printing, colours and
    the writing of the JSON file, which can raise before [sys.exit] is
    reached, are left out.  The catalog tables that no check reads
    ([directional_words], [future_indicators], [spelling_corrections],
    [capitalization_rules], [punctuation_rules]) are left out as well. *)

From Stdlib Require Import Strings.String Strings.Ascii.
From Stdlib Require Import Lists.List Bool.Bool Arith.Arith NArith.NArith ZArith.ZArith.
From Stdlib Require Import Sorting.Sorted Sorting.Permutation.
From Stdlib Require Import micromega.Lia.
Import ListNotations.

Local Open Scope string_scope.
Local Open Scope list_scope.

(* ================================================================== *)
(** ** Python characters and strings *)
(* ================================================================== *)

Module PyStr.

Definition code (c : ascii) : N := N_of_ascii c.

Definition in_range (lo hi : N) (c : ascii) : bool :=
  (N.leb lo (code c) && N.leb (code c) hi)%bool.

Definition is_code (n : N) (c : ascii) : bool := N.eqb (code c) n.

(** [str.isspace] on one character; also the class [\s] of [re]. *)
Definition isspace (c : ascii) : bool :=
  in_range 9 13 c || in_range 28 32 c || is_code 133 c || is_code 160 c.

(** The class [\d] of [re]. *)
Definition isdigit (c : ascii) : bool := in_range 48 57 c.

(** [str.isupper] on one character. *)
Definition isupper (c : ascii) : bool :=
  in_range 65 90 c || in_range 192 214 c || in_range 216 222 c.

(** [str.islower] on one character. *)
Definition islower (c : ascii) : bool :=
  in_range 97 122 c || is_code 170 c || is_code 181 c || is_code 186 c
  || in_range 223 246 c || in_range 248 255 c.

(** The class [\w] of [re] (alphanumeric characters and the underscore). *)
Definition isword (c : ascii) : bool :=
  in_range 48 57 c || in_range 65 90 c || is_code 95 c || in_range 97 122 c
  || is_code 170 c || in_range 178 179 c || is_code 181 c || in_range 185 186 c
  || in_range 188 190 c || in_range 192 214 c || in_range 216 246 c
  || in_range 248 255 c.

(** [str.lower] on one character. *)
Definition lower_char (c : ascii) : ascii :=
  if isupper c then ascii_of_N (code c + 32) else c.

(** The line boundaries of [str.splitlines]. *)
Definition is_linebreak (c : ascii) : bool :=
  in_range 10 13 c || in_range 28 30 c || is_code 133 c.

Definition newline : ascii := ascii_of_N 10.
Definition carriage_return : ascii := ascii_of_N 13.

Fixpoint lower (s : string) : string :=
  match s with
  | EmptyString => EmptyString
  | String c s' => String (lower_char c) (lower s')
  end.

Definition is_empty (s : string) : bool :=
  match s with EmptyString => true | _ => false end.

(** [s.startswith(p)] *)
Definition startswith (p s : string) : bool := String.prefix p s.

(** [s[a:]] and [s[:b]] and [s[a:b]] for non-negative bounds. *)
Fixpoint drop (n : nat) (s : string) : string :=
  match n, s with
  | O, _ => s
  | S n', String _ s' => drop n' s'
  | S _, EmptyString => EmptyString
  end.

Fixpoint take (n : nat) (s : string) : string :=
  match n, s with
  | S n', String c s' => String c (take n' s')
  | _, _ => EmptyString
  end.

Definition slice (a b : nat) (s : string) : string := take (b - a) (drop a s).

(** [s[-n:]] *)
Definition last_n (n : nat) (s : string) : string :=
  drop (String.length s - n) s.

(** [s.endswith(suf)] *)
Definition endswith (suf s : string) : bool :=
  Nat.leb (String.length suf) (String.length s)
  && String.eqb (last_n (String.length suf) s) suf.

(** [s.endswith((a, b, ...))] with a tuple of suffixes. *)
Definition endswith_any (sufs : list string) (s : string) : bool :=
  existsb (fun suf => endswith suf s) sufs.

(** [s.find(needle)]: the offset of the first occurrence, if any.  The
    linter uses [needle in s] followed by [s.index(needle)]. *)
Fixpoint find (needle hay : string) : option nat :=
  if String.prefix needle hay then Some 0
  else match hay with
       | EmptyString => None
       | String _ hay' => option_map S (find needle hay')
       end.

Definition contains (needle hay : string) : bool :=
  match find needle hay with Some _ => true | None => false end.

(** [s.lstrip()], [s.rstrip()], [s.strip()] *)
Fixpoint lstrip (s : string) : string :=
  match s with
  | EmptyString => EmptyString
  | String c s' => if isspace c then lstrip s' else s
  end.

Fixpoint rstrip_by (p : ascii -> bool) (s : string) : string :=
  match s with
  | EmptyString => EmptyString
  | String c s' =>
      match rstrip_by p s' with
      | EmptyString => if p c then EmptyString else String c EmptyString
      | r => String c r
      end
  end.

Definition rstrip (s : string) : string := rstrip_by isspace s.

Definition strip (s : string) : string := rstrip (lstrip s).

Fixpoint mem_char (c : ascii) (chars : string) : bool :=
  match chars with
  | EmptyString => false
  | String d chars' => Ascii.eqb c d || mem_char c chars'
  end.

(** [s.rstrip(chars)] *)
Definition rstrip_chars (chars s : string) : string :=
  rstrip_by (fun c => mem_char c chars) s.

(** [s.split()]: the maximal runs of non-whitespace characters. *)
Fixpoint split_from (cur s : string) : list string :=
  match s with
  | EmptyString => if is_empty cur then [] else [cur]
  | String c s' =>
      if isspace c
      then (if is_empty cur then split_from EmptyString s'
            else cur :: split_from EmptyString s')
      else split_from (cur ++ String c EmptyString) s'
  end.

Definition split (s : string) : list string := split_from EmptyString s.

(** [s.splitlines()] *)
Fixpoint splitlines_from (cur s : string) : list string :=
  match s with
  | EmptyString => if is_empty cur then [] else [cur]
  | String c s' =>
      if is_linebreak c then
        match s' with
        | String d s'' =>
            if Ascii.eqb c carriage_return && Ascii.eqb d newline
            then cur :: splitlines_from EmptyString s''
            else cur :: splitlines_from EmptyString s'
        | EmptyString => [cur]
        end
      else splitlines_from (cur ++ String c EmptyString) s'
  end.

Definition splitlines (s : string) : list string :=
  splitlines_from EmptyString s.

(** [x in xs] for a list of strings. *)
Definition mem (x : string) (xs : list string) : bool :=
  existsb (String.eqb x) xs.

(** [d.get(k)] and [d.items()] for a dict literal kept in insertion order. *)
Fixpoint dict_get {V : Type} (k : string) (d : list (string * V)) : option V :=
  match d with
  | [] => None
  | (k', v) :: d' => if String.eqb k k' then Some v else dict_get k d'
  end.

End PyStr.

(* ================================================================== *)
(** ** The regular expressions of [re] used by the linter *)
(* ================================================================== *)

Module Re.
Import PyStr.

(** Pattern syntax.  Every quantifier in the linter's patterns applies to a
    single character class ([\s+], [\w+], [.+], [[^)]+], [#{1,6}], [`?]), so
    repetition is the constructor [Rep] over a class. *)
Inductive regex : Type :=
| Eps
| Lit (s : string)
| Cls (p : ascii -> bool)
| Rep (p : ascii -> bool) (lo : nat) (hi : option nat)
| Seq (r1 r2 : regex)
| Alt (r1 r2 : regex)
| Grp (n : nat) (r : regex)
| Bol
| Eol
| WordB
| NotAhead (r : regex)
| NotBehind (p : ascii -> bool).

(** A position in the subject: the offset, the character before it and the
    text from it on. *)
Record cursor : Type := mkCursor {
  pos : nat;
  prev : option ascii;
  rest : string
}.

Definition start_of (s : string) : cursor := mkCursor 0 None s.

(** Group number to (start, end), most recent binding first. *)
Definition captures : Type := list (nat * (nat * nat)).

Record rmatch : Type := mkMatch {
  m_start : nat;
  m_end : nat;
  m_groups : captures
}.

(** Equality of characters, under [re.IGNORECASE] when [ignorecase] is
    set.  On the code points 0..255 two characters match without regard to
    case exactly when they have the same lowercase form. *)
Definition char_eq (ignorecase : bool) (x c : ascii) : bool :=
  if ignorecase then Ascii.eqb (lower_char x) (lower_char c) else Ascii.eqb x c.

Definition word_before (c : cursor) : bool :=
  match prev c with Some x => isword x | None => false end.

Definition word_after (c : cursor) : bool :=
  match rest c with String x _ => isword x | EmptyString => false end.

(** [\b] *)
Definition at_boundary (c : cursor) : bool := xorb (word_before c) (word_after c).

(** [$] without MULTILINE: the end, or just before a final newline. *)
Definition at_eol (c : cursor) : bool :=
  match rest c with
  | EmptyString => true
  | String x EmptyString => Ascii.eqb x newline
  | _ => false
  end.

(** [.] without DOTALL *)
Definition dot (x : ascii) : bool := negb (Ascii.eqb x newline).

Definition is_char (c : ascii) (x : ascii) : bool := Ascii.eqb x c.
Definition not_char (c : ascii) (x : ascii) : bool := negb (Ascii.eqb x c).

Definition below (hi : option nat) (n : nat) : bool :=
  match hi with Some h => Nat.ltb n h | None => true end.

Section Matcher.
Context {R : Type}.

Fixpoint lit (ignorecase : bool) (s : string) (p : nat) (pv : option ascii)
    (rs : string) (k : cursor -> option R) {struct s} : option R :=
  match s with
  | EmptyString => k (mkCursor p pv rs)
  | String c s' =>
      match rs with
      | String x rs' =>
          if char_eq ignorecase x c then lit ignorecase s' (S p) (Some x) rs' k
          else None
      | EmptyString => None
      end
  end.

(** Greedy repetition: take one more character when allowed, and fall back
    to stopping here when the continuation fails further on. *)
Fixpoint rep (cl : ascii -> bool) (lo : nat) (hi : option nat) (n : nat)
    (p : nat) (pv : option ascii) (rs : string) (k : cursor -> option R)
    {struct rs} : option R :=
  let stop := if Nat.leb lo n then k (mkCursor p pv rs) else None in
  match rs with
  | String x rs' =>
      if cl x && below hi n then
        match rep cl lo hi (S n) (S p) (Some x) rs' k with
        | Some res => Some res
        | None => stop
        end
      else stop
  | EmptyString => stop
  end.

End Matcher.

(** The backtracking matcher, in continuation-passing style: [k] is what
    remains to be matched after [r]. *)
Fixpoint run (R : Type) (ignorecase : bool) (r : regex) (c : cursor)
    (g : captures) (k : cursor -> captures -> option R) {struct r} : option R :=
  match r with
  | Eps => k c g
  | Lit s => lit ignorecase s (pos c) (prev c) (rest c) (fun c' => k c' g)
  | Cls cl =>
      match rest c with
      | String x rs' =>
          if cl x then k (mkCursor (S (pos c)) (Some x) rs') g else None
      | EmptyString => None
      end
  | Rep cl lo hi => rep cl lo hi 0 (pos c) (prev c) (rest c) (fun c' => k c' g)
  | Seq r1 r2 =>
      run R ignorecase r1 c g (fun c' g' => run R ignorecase r2 c' g' k)
  | Alt r1 r2 =>
      match run R ignorecase r1 c g k with
      | Some res => Some res
      | None => run R ignorecase r2 c g k
      end
  | Grp n r1 =>
      run R ignorecase r1 c g (fun c' g' => k c' ((n, (pos c, pos c')) :: g'))
  | Bol => if Nat.eqb (pos c) 0 then k c g else None
  | Eol => if at_eol c then k c g else None
  | WordB => if at_boundary c then k c g else None
  | NotAhead r1 =>
      match run unit ignorecase r1 c g (fun _ _ => Some tt) with
      | Some _ => None
      | None => k c g
      end
  | NotBehind cl =>
      match prev c with
      | Some x => if cl x then None else k c g
      | None => k c g
      end
  end.

(** One attempt at a given position. *)
Definition match_at (ignorecase : bool) (r : regex) (c : cursor) : option rmatch :=
  run rmatch ignorecase r c []
    (fun c' g => Some (mkMatch (pos c) (pos c') g)).

(** [pattern.match(s)] *)
Definition rmatch_start (ignorecase : bool) (r : regex) (s : string) : option rmatch :=
  match_at ignorecase r (start_of s).

(** [pattern.search(s)]: the leftmost position with a match. *)
Fixpoint search_from (ignorecase : bool) (r : regex) (p : nat)
    (pv : option ascii) (rs : string) {struct rs} : option rmatch :=
  match match_at ignorecase r (mkCursor p pv rs) with
  | Some m => Some m
  | None =>
      match rs with
      | String x rs' => search_from ignorecase r (S p) (Some x) rs'
      | EmptyString => None
      end
  end.

Definition search (ignorecase : bool) (r : regex) (s : string) : option rmatch :=
  search_from ignorecase r 0 None s.

(** [pattern.finditer(s)]: successive non-overlapping matches, left to
    right.  [skip] counts the characters of the previous match still to be
    passed over.  No pattern of the linter matches the empty string; after an
    empty match the scan moves on by one character. *)
Fixpoint finditer_from (ignorecase : bool) (r : regex) (skip : nat) (p : nat)
    (pv : option ascii) (rs : string) {struct rs} : list rmatch :=
  match skip with
  | S skip' =>
      match rs with
      | String x rs' => finditer_from ignorecase r skip' (S p) (Some x) rs'
      | EmptyString => []
      end
  | O =>
      match match_at ignorecase r (mkCursor p pv rs) with
      | Some m =>
          m :: match rs with
               | String x rs' =>
                   finditer_from ignorecase r (m_end m - p - 1) (S p) (Some x) rs'
               | EmptyString => []
               end
      | None =>
          match rs with
          | String x rs' => finditer_from ignorecase r 0 (S p) (Some x) rs'
          | EmptyString => []
          end
      end
  end.

Definition finditer (ignorecase : bool) (r : regex) (s : string) : list rmatch :=
  finditer_from ignorecase r 0 0 None s.

(** [m.group()] and [m.group(n)] *)
Definition group0 (s : string) (m : rmatch) : string :=
  slice (m_start m) (m_end m) s.

Fixpoint span_of (n : nat) (g : captures) : option (nat * nat) :=
  match g with
  | [] => None
  | (n', sp) :: g' => if Nat.eqb n n' then Some sp else span_of n g'
  end.

Definition group (n : nat) (s : string) (m : rmatch) : string :=
  match span_of n (m_groups m) with
  | Some (a, b) => slice a b s
  | None => EmptyString
  end.

(** [re.findall] for a pattern without groups. *)
Definition findall (ignorecase : bool) (r : regex) (s : string) : list string :=
  map (group0 s) (finditer ignorecase r s).

(** ["|".join(alternatives)] *)
Fixpoint alt_of (rs : list regex) : regex :=
  match rs with
  | [] => Eps
  | [r] => r
  | r :: rs' => Alt r (alt_of rs')
  end.

Fixpoint seq_of (rs : list regex) : regex :=
  match rs with
  | [] => Eps
  | [r] => r
  | r :: rs' => Seq r (seq_of rs')
  end.

Definition plus (cl : ascii -> bool) : regex := Rep cl 1 None.
Definition star (cl : ascii -> bool) : regex := Rep cl 0 None.
Definition opt (cl : ascii -> bool) : regex := Rep cl 0 (Some 1).

End Re.

(* ================================================================== *)
(** ** Data model *)
(* ================================================================== *)

Inductive Severity : Type := ERROR | WARNING | INFO.

Definition Severity_eqb (a b : Severity) : bool :=
  match a, b with
  | ERROR, ERROR | WARNING, WARNING | INFO, INFO => true
  | _, _ => false
  end.

(** [Severity.value] *)
Definition severity_value (s : Severity) : string :=
  match s with ERROR => "error" | WARNING => "warning" | INFO => "info" end.

Record LintIssue : Type := mkIssue {
  line_number : Z;
  column : Z;
  severity : Severity;
  rule : string;
  message : string;
  line_content : string;
  suggestion : string
}.

(** Raising is modelled in [option]: [None] stands for an uncaught
    exception.  The only one the checks can meet is the [IndexError] of
    [is_in_code_block] when its index is past the end of [lines]; the other
    partial operations of the source ([s.index], [w[0]], [lines[i-2]],
    [line[pos-1]]) are guarded in the source by a test that makes them
    succeed, and are modelled together with their guard. *)
Definition bind {A B : Type} (m : option A) (f : A -> option B) : option B :=
  match m with Some a => f a | None => None end.

Notation "x <- m ;; k" := (bind m (fun x => k))
  (at level 61, m at next level, right associativity).

Import PyStr Re.

(* ================================================================== *)
(** ** Rule catalog ([init_style_rules]) *)
(* ================================================================== *)

(** ["must" or "will"] evaluates to ["must"]: the first operand of [or]
    is a non-empty string. *)
Definition py_or (a b : string) : string := if is_empty a then b else a.

Definition forbidden_phrases : list (string * string) :=
  [ ("please note", "Note:");
    ("please remember", "Remember:");
    ("in order to", "to");
    ("it is recommended", "we recommend");
    ("utilize", "use");
    ("terminate", "end");
    ("initiate", "start");
    ("leverage", "use");
    ("click on", "select");
    ("simply", EmptyString);
    ("just", EmptyString);
    ("easy", EmptyString);
    ("easily", EmptyString);
    ("obviously", EmptyString);
    ("clearly", EmptyString);
    ("basically", EmptyString);
    ("actually", EmptyString);
    ("very", EmptyString);
    ("via", "through");
    ("e.g.", "for example");
    ("i.e.", "that is");
    ("etc.", "and so on");
    ("as well as", "and");
    ("shall", py_or "must" "will");
    ("may or may not", "might");
    ("in the event that", "if");
    ("at this point in time", "now");
    ("for the purpose of", "to");
    ("due to the fact that", "because") ].

Definition contractions : list string :=
  [ "don't"; "won't"; "can't"; "shouldn't"; "wouldn't";
    "couldn't"; "isn't"; "aren't"; "wasn't"; "weren't";
    "haven't"; "hasn't"; "hadn't"; "it's"; "that's";
    "there's"; "here's"; "what's"; "who's"; "they're" ].

(** The local dict [expanded] of [check_contractions]. *)
Definition expanded : list (string * string) :=
  [ ("don't", "do not"); ("won't", "will not"); ("can't", "cannot");
    ("shouldn't", "should not"); ("wouldn't", "would not");
    ("couldn't", "could not"); ("isn't", "is not"); ("aren't", "are not");
    ("wasn't", "was not"); ("weren't", "were not"); ("haven't", "have not");
    ("hasn't", "has not"); ("hadn't", "had not"); ("it's", "it is");
    ("that's", "that is"); ("there's", "there is"); ("here's", "here is");
    ("what's", "what is"); ("who's", "who is"); ("they're", "they are") ].

Definition latin_abbrev : list (string * string) :=
  [ ("e.g.", "for example");
    ("i.e.", "that is");
    ("etc.", "and so on");
    ("et al.", "and others");
    ("via", "through");
    ("vs.", "versus");
    ("cf.", "compare") ].

Definition preferred_terms : list (string * string) :=
  [ ("webpage", "web page");
    ("web site", "website");
    ("internet", "Internet");
    ("email", "email");
    ("log in", "sign in");
    ("login", "sign-in");
    ("log on", "sign in");
    ("logon", "sign-in");
    ("logout", "sign out");
    ("username", "user name");
    ("wifi", "Wi-Fi");
    ("backend", "back end");
    ("frontend", "front end");
    ("enduser", "end user");
    ("file name", "filename");
    ("check box", "checkbox");
    ("double click", "double-click");
    ("right click", "right-click");
    ("grayed", py_or "dimmed" "unavailable");
    ("grayed out", "unavailable");
    ("hit", py_or "press" "select");
    ("type in", py_or "enter" "type");
    ("box", py_or "dialog box" "text box");
    ("deselect", "clear");
    ("uncheck", "clear") ].

Definition gendered_terms : list (string * string) :=
  [ ("he", "they");
    ("she", "they");
    ("his", "their");
    ("her", "their");
    ("him", "them");
    ("himself", "themselves");
    ("herself", "themselves");
    ("mankind", py_or "people" "humanity");
    ("manmade", py_or "synthetic" "artificial");
    ("man-hours", py_or "person-hours" "hours") ].

(** The local dict [problematic_terms] of [check_inclusive_language]. *)
Definition problematic_terms : list (string * string) :=
  [ ("blacklist", "blocklist or denylist");
    ("whitelist", "allowlist or safelist");
    ("master", "primary or main");
    ("slave", "secondary or replica");
    ("native", "built-in or core");
    ("grandfathered", "legacy");
    ("dummy", "placeholder or sample");
    ("sanity check", "consistency check or validation");
    ("crazy", "unexpected or surprising");
    ("insane", "extreme or intensive");
    ("cripple", "disable or limit");
    ("blind", "without knowledge of or hidden");
    ("man-in-the-middle", "machine-in-the-middle or interceptor") ].

(* ================================================================== *)
(** ** Context tracker *)
(* ================================================================== *)

(** [r'^```|^~~~'] *)
Definition fence_pattern : regex :=
  Alt (Seq Bol (Lit "```")) (Seq Bol (Lit "~~~")).

Definition is_fence (line : string) : bool :=
  match rmatch_start false fence_pattern line with Some _ => true | None => false end.

(** The loop [for i in range(line_index)] over [lines[i]]; reading past the
    end of [lines] raises. *)
Fixpoint fence_scan (lines : list string) (n : nat) (in_code : bool) : option bool :=
  match n with
  | O => Some in_code
  | S n' =>
      match lines with
      | [] => None
      | l :: ls => fence_scan ls n' (if is_fence l then negb in_code else in_code)
      end
  end.

Definition is_in_code_block (lines : list string) (line_index : nat) : option bool :=
  fence_scan lines line_index false.

(* ================================================================== *)
(** ** Check functions *)
(* ================================================================== *)

(** [self.add_issue(...)] appends one record; a check is modelled by the
    list of the issues it appends, in order. *)
Definition add_issue (line_num : nat) (col : Z) (sev : Severity)
    (rule_id msg content sugg : string) : LintIssue :=
  mkIssue (Z.of_nat line_num) col sev rule_id msg content sugg.

(** [enumerate(lines, 1)] *)
Definition enumerate1 (lines : list string) : list (nat * string) :=
  combine (seq 1 (length lines)) lines.

(** A [for] loop whose body appends issues and may raise. *)
Fixpoint for_each {A : Type} (xs : list A) (body : A -> option (list LintIssue))
    : option (list LintIssue) :=
  match xs with
  | [] => Some []
  | x :: xs' =>
      out <- body x ;;
      more <- for_each xs' body ;;
      Some (out ++ more)
  end.

(** [if self.is_in_code_block(lines, i-1): continue] followed by the rest
    of the loop body. *)
Definition unless_in_code (lines : list string) (i : nat)
    (emitted : list LintIssue) : option (list LintIssue) :=
  in_code <- is_in_code_block lines (i - 1) ;;
  Some (if in_code then [] else emitted).

Definition quoted (s : string) : string := ("'" ++ s ++ "'")%string.

Definition zcol (n : nat) : Z := Z.of_nat n.

Local Open Scope string_scope.

(** *** Lexical substitution checks *)

(** The body of the loop over [self.forbidden_phrases.items()]. *)
Definition forbidden_phrase_issues (i : nat) (line : string)
    (entry : string * string) : list LintIssue :=
  let (phrase, replacement) := entry in
  let line_lower := lower line in
  match find phrase line_lower with
  | Some col =>
      let sugg := if is_empty replacement then "Remove this word"
                  else "Replace with: " ++ replacement in
      [add_issue i (zcol col) WARNING "ms-forbidden-phrase"
         ("Avoid " ++ quoted phrase) line sugg]
  | None => []
  end.

Definition forbidden_phrases_line (i : nat) (line : string) : list LintIssue :=
  flat_map (forbidden_phrase_issues i line) forbidden_phrases.

Definition check_forbidden_phrases (lines : list string) : option (list LintIssue) :=
  for_each (enumerate1 lines) (fun il =>
    unless_in_code lines (fst il) (forbidden_phrases_line (fst il) (snd il))).

(** [r"\b(" + "|".join(map(re.escape, self.contractions)) + r")\b"] *)
Definition contraction_pattern : regex :=
  seq_of [WordB; Grp 1 (alt_of (map Lit contractions)); WordB].

Definition contraction_issue (i : nat) (line : string) (m : rmatch) : LintIssue :=
  let contraction := lower (group 1 line m) in
  let sugg := "Use: " ++ match dict_get contraction expanded with
                         | Some e => e
                         | None => "expanded form"
                         end in
  add_issue i (zcol (m_start m)) WARNING "ms-contraction"
    ("Avoid contractions in technical documentation: " ++ quoted (group 1 line m))
    line sugg.

Definition contractions_line (i : nat) (line : string) : list LintIssue :=
  map (contraction_issue i line) (finditer true contraction_pattern line).

Definition check_contractions (lines : list string) : option (list LintIssue) :=
  for_each (enumerate1 lines) (fun il =>
    unless_in_code lines (fst il) (contractions_line (fst il) (snd il))).

(** The body of the loop over [self.latin_abbrev.items()]. *)
Definition latin_abbreviation_issues (i : nat) (line : string)
    (entry : string * string) : list LintIssue :=
  let (abbrev, replacement) := entry in
  match find abbrev (lower line) with
  | Some col =>
      [add_issue i (zcol col) WARNING "ms-latin-abbrev"
         ("Avoid Latin abbreviation " ++ quoted abbrev) line
         ("Use: " ++ replacement)]
  | None => []
  end.

Definition latin_abbreviations_line (i : nat) (line : string) : list LintIssue :=
  flat_map (latin_abbreviation_issues i line) latin_abbrev.

Definition check_latin_abbreviations (lines : list string) : option (list LintIssue) :=
  for_each (enumerate1 lines) (fun il =>
    unless_in_code lines (fst il) (latin_abbreviations_line (fst il) (snd il))).

(** [r'\b' + re.escape(term) + r'\b'] *)
Definition word_bounded (term : string) : regex :=
  seq_of [WordB; Lit term; WordB].

Definition preferred_term_issues (i : nat) (line : string)
    (entry : string * string) : list LintIssue :=
  let (incorrect, correct) := entry in
  map (fun m =>
    add_issue i (zcol (m_start m)) INFO "ms-preferred-term"
      ("Microsoft prefers " ++ quoted correct ++ " over " ++ quoted (group0 line m))
      line ("Use: " ++ correct))
    (finditer true (word_bounded incorrect) line).

Definition preferred_terminology_line (i : nat) (line : string) : list LintIssue :=
  flat_map (preferred_term_issues i line) preferred_terms.

Definition check_preferred_terminology (lines : list string) : option (list LintIssue) :=
  for_each (enumerate1 lines) (fun il =>
    unless_in_code lines (fst il) (preferred_terminology_line (fst il) (snd il))).

(** *** Directional language, future tense, gendered terms, passive voice *)

Definition directional_pattern : regex :=
  seq_of [ WordB;
           Grp 1 (alt_of (map Lit
             ["above"; "below"; "left"; "right"; "top"; "bottom"; "upper"; "lower"]));
           WordB;
           NotAhead (Seq (plus isspace)
             (Grp 2 (alt_of (map Lit ["menu"; "bar"; "corner"; "section"; "panel"])))) ].

Definition directional_language_line (i : nat) (line : string) : list LintIssue :=
  if contains "`" line || contains "screenshot" (lower line) then []
  else
    map (fun m =>
      add_issue i (zcol (m_start m)) WARNING "ms-directional"
        ("Avoid directional language: " ++ quoted (group0 line m)) line
        "Use 'preceding', 'following', or specific references instead")
      (finditer true directional_pattern line).

Definition check_directional_language (lines : list string) : option (list LintIssue) :=
  for_each (enumerate1 lines) (fun il =>
    unless_in_code lines (fst il) (directional_language_line (fst il) (snd il))).

Definition future_pattern : regex :=
  seq_of [ WordB;
           Grp 1 (alt_of (map Lit
             ["will be"; "will have"; "will see"; "will allow"; "will enable";
              "is going to"; "are going to"]));
           WordB ].

Definition future_tense_line (i : nat) (line : string) : list LintIssue :=
  map (fun m =>
    add_issue i (zcol (m_start m)) INFO "ms-future-tense"
      ("Prefer present tense over future: " ++ quoted (group0 line m)) line
      "Use present tense (e.g., 'allows', 'enables', 'displays')")
    (finditer true future_pattern line).

Definition check_future_tense (lines : list string) : option (list LintIssue) :=
  for_each (enumerate1 lines) (fun il =>
    unless_in_code lines (fst il) (future_tense_line (fst il) (snd il))).

(** [re.findall(r'\b\w+\b', line_lower)].  Each word found is a substring of
    [line_lower], so [line_lower.index(word)] always finds it. *)
Definition word_pattern : regex := seq_of [WordB; plus isword; WordB].

Definition gender_neutral_line (i : nat) (line : string) : list LintIssue :=
  let line_lower := lower line in
  let words := findall false word_pattern line_lower in
  flat_map (fun word =>
    match dict_get word gendered_terms with
    | Some alternative =>
        match find word line_lower with
        | Some col =>
            [add_issue i (zcol col) WARNING "ms-gender-neutral"
               ("Use gender-neutral language: " ++ quoted word) line
               ("Consider: " ++ alternative)]
        | None => []
        end
    | None => []
    end) words.

Definition check_gender_neutral (lines : list string) : option (list LintIssue) :=
  for_each (enumerate1 lines) (fun il =>
    unless_in_code lines (fst il) (gender_neutral_line (fst il) (snd il))).

Definition passive_pattern : regex :=
  seq_of [ WordB;
           Grp 1 (alt_of (map Lit ["is"; "are"; "was"; "were"; "be"; "been"; "being"]));
           plus isspace; plus isword; Lit "ed"; WordB ].

Definition voice_line (i : nat) (line : string) : list LintIssue :=
  flat_map (fun m =>
    if negb (existsb (fun word => contains word (lower line)) ["speed"; "need"; "feed"])
    then [add_issue i (zcol (m_start m)) INFO "ms-passive-voice"
            "Consider using active voice" line
            "Rewrite in active voice for clarity"]
    else [])
    (finditer true passive_pattern line).

Definition check_voice (lines : list string) : option (list LintIssue) :=
  for_each (enumerate1 lines) (fun il =>
    unless_in_code lines (fst il) (voice_line (fst il) (snd il))).

(** *** Structural checks: headings and lists (no code-block guard) *)

(** [r'^(#{1,6})\s+(.+)$'] *)
Definition heading_pattern : regex :=
  seq_of [ Bol; Grp 1 (Rep (is_char "#") 1 (Some 6)); plus isspace;
           Grp 2 (plus dot); Eol ].

(** [w[0]] tested by a predicate; the words of [split] are never empty. *)
Definition first_char_is (p : ascii -> bool) (w : string) : bool :=
  match w with String c _ => p c | EmptyString => false end.

Definition last_char_in (chars : list string) (s : string) : bool :=
  endswith_any chars s.

Definition headings_line (i : nat) (line : string) : list LintIssue :=
  match rmatch_start false heading_pattern line with
  | None => []
  | Some m =>
      let title := strip (group 2 line m) in
      let words := split title in
      ((if Nat.ltb 1 (length words) then
         let title_case_count :=
           length (filter (fun w => first_char_is isupper w
                                    && Nat.ltb 3 (String.length w)) (tl words)) in
         (* title_case_count > len(words[1:]) / 2, a float division *)
         if Nat.ltb (length (tl words)) (2 * title_case_count) then
           [add_issue i 0 INFO "ms-heading-case"
              "Microsoft prefers sentence case for headings" line
              "Use sentence case (capitalize only first word and proper nouns)"]
         else []
       else [])
      ++ (if endswith_any ["."; "!"; "?"; ":"] (rstrip title) then
            [add_issue i (Z.of_nat (String.length line) - 1) WARNING
               "ms-heading-punctuation"
               "Headings should not end with punctuation" line
               "Remove trailing punctuation"]
          else [])
      ++ (let first_word := match words with w :: _ => w | [] => EmptyString end in
          if endswith "ing" (lower first_word) then
            [add_issue i 0 INFO "ms-heading-gerund"
               ("Consider using imperative or noun form instead of gerund: "
                ++ quoted first_word)
               line "Use imperative (e.g., 'Configure') or noun form"]
          else []))%list
  end.

Definition check_headings_microsoft (lines : list string) : option (list LintIssue) :=
  for_each (enumerate1 lines) (fun il =>
    Some (headings_line (fst il) (snd il))).

(** The list-item pattern: start of line, a group of optional whitespace,
    a marker (one of [-], [*], [+], or digits and a dot), whitespace, and a
    non-empty content group up to the end of the line. *)
Definition list_pattern : regex :=
  seq_of [ Bol; Grp 1 (star isspace);
           Grp 2 (Alt (Cls (fun c => mem_char c "-*+")) (Seq (plus isdigit) (Lit ".")));
           plus isspace; Grp 3 (plus dot); Eol ].

Definition lists_line (lines : list string) (i : nat) (line : string) : list LintIssue :=
  match rmatch_start false list_pattern line with
  | None => []
  | Some m =>
      let content := group 3 line m in
      ((if first_char_is islower content then
         if Nat.ltb 1 i then
           let prev_line := nth (i - 2) lines EmptyString in
           match rmatch_start false list_pattern prev_line with
           | Some prev_match =>
               let prev_content := group 3 prev_line prev_match in
               if first_char_is isupper prev_content then
                 [add_issue i 0 INFO "ms-list-parallel"
                    "List items should have parallel structure" line
                    "Ensure all list items start with same case"]
               else []
           | None => []
           end
         else []
       else [])
      ++ (if Nat.ltb 5 (length (split content))
             && negb (endswith_any ["."; ":"; "!"] (rstrip content)) then
            [add_issue i (Z.of_nat (String.length line) - 1) INFO
               "ms-list-punctuation"
               "Complete sentences in lists should end with period" line
               "Add period if this is a complete sentence"]
          else []))%list
  end.

Definition check_lists_microsoft (lines : list string) : option (list LintIssue) :=
  for_each (enumerate1 lines) (fun il =>
    Some (lists_line lines (fst il) (snd il))).

(** *** Capitalization, punctuation, numbers and units *)

Definition capitalization_line (i : nat) (line : string) : list LintIssue :=
  map (fun m =>
    add_issue i (zcol (m_start m)) WARNING "ms-internet-cap"
      "'Internet' should be capitalized" line "Use: Internet")
    (finditer false (word_bounded "internet") line).

Definition check_capitalization (lines : list string) : option (list LintIssue) :=
  for_each (enumerate1 lines) (fun il =>
    unless_in_code lines (fst il) (capitalization_line (fst il) (snd il))).

Definition is_punct (c : ascii) : bool := mem_char c ".,!?;:".

(** [r'\s+[.,!?;:]'] *)
Definition space_before_punct : regex := Seq (plus isspace) (Cls is_punct).

(** [r'\w+,\s+\w+\s+and\s+\w+'] *)
Definition oxford_pattern : regex :=
  seq_of [ plus isword; Lit ","; plus isspace; plus isword; plus isspace;
           Lit "and"; plus isspace; plus isword ].

Definition punctuation_line (i : nat) (line : string) : list LintIssue :=
  ((match find "  " line with
    | Some col =>
        [add_issue i (zcol col) INFO "ms-double-space"
           "Use single space between sentences" line "Remove extra space"]
    | None => []
    end)
   ++ (match search false space_before_punct line with
       | Some m =>
           [add_issue i (zcol (m_start m)) WARNING "ms-space-before-punct"
              "No space before punctuation" line
              "Remove space before punctuation mark"]
       | None => []
       end)
   ++ (match search false oxford_pattern line with
       | Some m =>
           [add_issue i (zcol (m_start m)) INFO "ms-oxford-comma"
              "Microsoft style uses serial comma" line
              "Add comma before 'and' in series"]
       | None => []
       end))%list.

Definition check_punctuation (lines : list string) : option (list LintIssue) :=
  for_each (enumerate1 lines) (fun il =>
    unless_in_code lines (fst il) (punctuation_line (fst il) (snd il))).

(** [r'^(\d+)'] *)
Definition number_start_pattern : regex := Seq Bol (Grp 1 (plus isdigit)).

(** [r'\d+(GB|MB|KB|TB|ms|cm|mm|km|kg|mg)'] *)
Definition no_space_pattern : regex :=
  Seq (plus isdigit)
      (Grp 1 (alt_of (map Lit
         ["GB"; "MB"; "KB"; "TB"; "ms"; "cm"; "mm"; "km"; "kg"; "mg"]))).

(** [r'(?<!\d)\.\d+'] *)
Definition decimal_pattern : regex :=
  seq_of [NotBehind isdigit; Lit "."; plus isdigit].

Definition numbers_and_units_line (i : nat) (line : string) : list LintIssue :=
  ((match rmatch_start false number_start_pattern (strip line) with
    | Some _ =>
        [add_issue i 0 INFO "ms-number-start"
           "Spell out numbers at the beginning of a sentence" line
           "Rewrite sentence or spell out the number"]
    | None => []
    end)
   ++ map (fun m =>
        add_issue i (zcol (m_start m)) WARNING "ms-number-unit-space"
          "Add space between number and unit" line
          ("Use: " ++ rstrip_chars "GMKTBmcskbg" (group0 line m) ++ " "
           ++ last_n 2 (group0 line m)))
        (finditer false no_space_pattern line)
   ++ map (fun m =>
        add_issue i (zcol (m_start m)) INFO "ms-zero-decimal"
          "Include zero before decimal point" line
          ("Use: 0" ++ group0 line m))
        (finditer false decimal_pattern line))%list.

Definition check_numbers_and_units (lines : list string) : option (list LintIssue) :=
  for_each (enumerate1 lines) (fun il =>
    unless_in_code lines (fst il) (numbers_and_units_line (fst il) (snd il))).

(** *** UI elements and code formatting *)

Definition ui_verbs : list string :=
  ["click"; "select"; "choose"; "press"; "enter"; "type"].

(** The pattern built for one verb: a word boundary, the verb, whitespace,
    not followed by [the] and whitespace, then an optional backquote, a word
    and an optional backquote. *)
Definition ui_pattern (verb : string) : regex :=
  seq_of [ WordB; Lit verb; plus isspace;
           NotAhead (Seq (Lit "the") (plus isspace));
           opt (is_char "`"); plus isword; opt (is_char "`") ].

Definition ui_verb_issues (i : nat) (line verb : string) : list LintIssue :=
  flat_map (fun m =>
    let after_verb := slice (m_end m) (m_end m + 20) line in
    if negb (startswith "**" after_verb || startswith "`" after_verb) then
      if mem (lower verb) ["click"; "press"; "select"] then
        let preferred := "select" in
        [add_issue i (zcol (m_start m)) INFO "ms-ui-element"
           ("UI elements should be bold. Also prefer " ++ quoted preferred
            ++ " over " ++ quoted verb)
           line "Format UI element in bold (**element**)"]
      else []
    else [])
    (finditer true (ui_pattern verb) line).

Definition ui_elements_line (i : nat) (line : string) : list LintIssue :=
  (flat_map (ui_verb_issues i line) ui_verbs
   ++ (match search true (word_bounded "click on") line with
       | Some m =>
           [add_issue i (zcol (m_start m)) WARNING "ms-click-on"
              "Use 'select' instead of 'click on'" line
              "Replace 'click on' with 'select'"]
       | None => []
       end))%list.

Definition check_ui_elements (lines : list string) : option (list LintIssue) :=
  for_each (enumerate1 lines) (fun il =>
    unless_in_code lines (fst il) (ui_elements_line (fst il) (snd il))).

Definition code_indicators : list string :=
  ["function"; "method"; "class"; "variable"; "parameter"; "property"].

(** The pattern built for one indicator: a word boundary, the indicator,
    whitespace, a word, a word boundary, not followed by a backquote. *)
Definition code_pattern (indicator : string) : regex :=
  seq_of [ WordB; Lit indicator; plus isspace; plus isword; WordB;
           NotAhead (Lit "`") ].

Definition code_indicator_issues (i : nat) (line indicator : string) : list LintIssue :=
  flat_map (fun m =>
    match search false (plus isword) (drop (m_end m) line) with
    | Some word_after =>
        let p := m_end m + m_start word_after in
        if Nat.ltb p (String.length line)
           && negb (match String.get (p - 1) line with
                    | Some c => Ascii.eqb c "`"
                    | None => false
                    end)
        then [add_issue i (zcol p) INFO "ms-code-format"
                "Code elements should be formatted as code" line
                "Wrap in backticks (`code`)"]
        else []
    | None => []
    end)
    (finditer true (code_pattern indicator) line).

Definition code_formatting_line (i : nat) (line : string) : list LintIssue :=
  flat_map (code_indicator_issues i line) code_indicators.

Definition check_code_formatting (lines : list string) : option (list LintIssue) :=
  for_each (enumerate1 lines) (fun il =>
    unless_in_code lines (fst il) (code_formatting_line (fst il) (snd il))).

(** *** Links and accessibility (no code-block guard) *)

(** The inline link pattern: a bracketed non-empty text without a closing
    bracket, then a parenthesised non-empty target without a closing
    parenthesis. *)
Definition inline_link : regex :=
  seq_of [ Lit "["; Grp 1 (plus (not_char "]")); Lit "]";
           Lit "("; Grp 2 (plus (not_char ")")); Lit ")" ].

Definition link_issues (i : nat) (line : string) (m : rmatch) : list LintIssue :=
  let link_text := group 1 line m in
  let url := group 2 line m in
  ((if mem (lower link_text) ["click here"; "here"; "this link"; "this page"] then
      [add_issue i (zcol (m_start m)) WARNING "ms-link-text"
         ("Avoid " ++ quoted link_text ++ " as link text") line
         "Use descriptive link text that makes sense out of context"]
    else [])
   ++ (if startswith "http" url && startswith "http" link_text then
         [add_issue i (zcol (m_start m)) INFO "ms-link-descriptive"
            "Use descriptive link text instead of URL" line
            "Replace URL with meaningful description"]
       else [])
   ++ (let before_link := strip (lower (take (m_start m) line)) in
       if endswith_any ["see"; "see the"; "refer to"; "refer to the"] before_link then
         [add_issue i (zcol (m_start m) - 10) INFO "ms-link-see"
            "Link text should be descriptive without 'see' or 'refer to'"
            line "Remove 'see' or 'refer to' and use descriptive link text"]
       else []))%list.

Definition links_line (i : nat) (line : string) : list LintIssue :=
  flat_map (link_issues i line) (finditer false inline_link line).

Definition check_links_microsoft (lines : list string) : option (list LintIssue) :=
  for_each (enumerate1 lines) (fun il =>
    Some (links_line (fst il) (snd il))).

(** The image pattern with empty alt text: [!], an opening bracket,
    optional whitespace, a closing bracket, and a parenthesised non-empty
    target. *)
Definition img_pattern : regex :=
  seq_of [ Lit "!["; star isspace; Lit "]"; Lit "(";
           plus (not_char ")"); Lit ")" ].

Definition color_only : list string :=
  ["red"; "green"; "blue"; "yellow"; "colored"; "highlighted"].

Definition color_pattern (color : string) : regex :=
  seq_of [ WordB; Lit color; WordB;
           NotAhead (Seq (plus isspace)
             (Grp 1 (alt_of (map Lit ["text"; "background"; "icon"; "button"])))) ].

Definition accessibility_line (i : nat) (line : string) : list LintIssue :=
  (map (fun m =>
     add_issue i (zcol (m_start m)) ERROR "ms-alt-text"
       "Images must have alt text for accessibility" line
       "Add descriptive alt text: ![description](url)")
     (finditer false img_pattern line)
   ++ (let line_lower := lower line in
       flat_map (fun color =>
         match search false (color_pattern color) line_lower with
         | Some m =>
             [add_issue i (zcol (m_start m)) WARNING "ms-color-only"
                ("Don't rely solely on color (" ++ quoted color
                 ++ ") to convey information")
                line "Add text labels or icons in addition to color"]
         | None => []
         end) color_only))%list.

Definition check_accessibility (lines : list string) : option (list LintIssue) :=
  for_each (enumerate1 lines) (fun il =>
    Some (accessibility_line (fst il) (snd il))).

(** *** Inclusive language *)

Definition inclusive_term_issues (i : nat) (line : string)
    (entry : string * string) : list LintIssue :=
  let (term, alternative) := entry in
  map (fun m =>
    add_issue i (zcol (m_start m)) WARNING "ms-inclusive"
      ("Use inclusive language: avoid " ++ quoted (group0 line m)) line
      ("Consider: " ++ alternative))
    (finditer true (word_bounded term) line).

Definition inclusive_language_line (i : nat) (line : string) : list LintIssue :=
  flat_map (inclusive_term_issues i line) problematic_terms.

Definition check_inclusive_language (lines : list string) : option (list LintIssue) :=
  for_each (enumerate1 lines) (fun il =>
    unless_in_code lines (fst il) (inclusive_language_line (fst il) (snd il))).

(* ================================================================== *)
(** ** [lint_file]: running the checks and ordering the findings *)
(* ================================================================== *)

(** The key [(x.line_number, x.column)] compared as Python compares tuples. *)
Definition key_le (a b : LintIssue) : bool :=
  (line_number a <? line_number b)%Z
  || ((line_number a =? line_number b)%Z && (column a <=? column b)%Z).

(** [list.sort(key=...)] is a stable sort; it is modelled by the stable
    insertion sort, which yields the same list. *)
Fixpoint insert_issue (x : LintIssue) (l : list LintIssue) : list LintIssue :=
  match l with
  | [] => [x]
  | y :: l' => if key_le x y then x :: l else y :: insert_issue x l'
  end.

Fixpoint sort_issues (l : list LintIssue) : list LintIssue :=
  match l with
  | [] => []
  | x :: l' => insert_issue x (sort_issues l')
  end.

Definition all_checks : list (list string -> option (list LintIssue)) :=
  [ check_forbidden_phrases; check_contractions; check_latin_abbreviations;
    check_preferred_terminology; check_directional_language; check_future_tense;
    check_gender_neutral; check_voice; check_headings_microsoft;
    check_lists_microsoft; check_capitalization; check_punctuation;
    check_numbers_and_units; check_ui_elements; check_code_formatting;
    check_links_microsoft; check_accessibility; check_inclusive_language ].

(** The body of [lint_file] after the file has been read. *)
Definition lint_lines (lines : list string) : option (list LintIssue) :=
  issues <- for_each all_checks (fun check => check lines) ;;
  Some (sort_issues issues).

(** What [open(filepath).read()] yields: the text, or the description of
    the exception raised. *)
Inductive read_result : Type :=
| ReadOk (content : string)
| ReadError (description : string).

(** What [Path.exists], [Path.is_dir] and [Path.rglob('*.md')] report. *)
Inductive path_kind : Type :=
| Missing
| RegularFile
| Directory (md_files : list string).

Record filesystem : Type := mkFs {
  kind_of : string -> path_kind;
  read_text : string -> read_result
}.

Definition file_read_issue (description : string) : LintIssue :=
  mkIssue 0 0 ERROR "file-read" ("Error reading file: " ++ description)
    EmptyString EmptyString.

Definition lint_file (fs : filesystem) (filepath : string) : option (list LintIssue) :=
  match read_text fs filepath with
  | ReadError e => Some [file_read_issue e]
  | ReadOk content => lint_lines (splitlines content)
  end.

(* ================================================================== *)
(** ** [generate_report] *)
(* ================================================================== *)

(** [d[k] = v] on a dict kept in insertion order. *)
Fixpoint dict_set {V : Type} (k : string) (v : V) (d : list (string * V))
    : list (string * V) :=
  match d with
  | [] => [(k, v)]
  | (k', v') :: d' =>
      if String.eqb k k' then (k', v) :: d' else (k', v') :: dict_set k v d'
  end.

Definition dict_get_default {V : Type} (k : string) (default : V)
    (d : list (string * V)) : V :=
  match dict_get k d with Some v => v | None => default end.

Definition count_severity (s : Severity) (issues : list LintIssue) : nat :=
  length (filter (fun i => Severity_eqb (severity i) s) issues).

Definition count_rules (issues : list LintIssue) : list (string * nat) :=
  fold_left (fun rule_counts issue =>
    dict_set (rule issue) (dict_get_default (rule issue) 0 rule_counts + 1) rule_counts)
    issues [].

Record Report : Type := mkReport {
  filepath : string;
  total_issues : nat;
  errors : nat;
  warnings : nat;
  info : nat;
  rule_counts : list (string * nat)
}.

Definition generate_report (issues : list LintIssue) (path : string) : Report :=
  mkReport path (length issues)
    (count_severity ERROR issues)
    (count_severity WARNING issues)
    (count_severity INFO issues)
    (count_rules issues).

(* ================================================================== *)
(** ** [main] *)
(* ================================================================== *)

(** The command-line options that decide what is linted, retained and
    returned; the remaining options only change what is printed. *)
Record Args : Type := mkArgs {
  files : list string;
  arg_severity : Severity;
  summary : bool
}.

Definition severity_levels (s : Severity) : nat :=
  match s with ERROR => 3 | WARNING => 2 | INFO => 1 end.

Definition filter_by_severity (min_severity : Severity) (issues : list LintIssue)
    : list LintIssue :=
  filter (fun issue =>
    Nat.leb (severity_levels min_severity) (severity_levels (severity issue))) issues.

Record RunState : Type := mkRun {
  all_results : list Report;
  run_total_issues : nat;
  exit_code : nat
}.

(** The body of the inner loop [for md_file in md_files]. *)
Definition process_file (fs : filesystem) (args : Args) (st : RunState)
    (md_file : string) : option RunState :=
  issues <- lint_file fs md_file ;;
  let filtered_issues := filter_by_severity (arg_severity args) issues in
  let report := generate_report filtered_issues md_file in
  let results := (all_results st ++ [report])%list in
  if negb (summary args) then
    let code :=
      match filtered_issues with
      | [] => exit_code st
      | _ :: _ =>
          if existsb (fun i => Severity_eqb (severity i) ERROR) filtered_issues
          then 1 else exit_code st
      end in
    Some (mkRun results (run_total_issues st + length filtered_issues) code)
  else Some (mkRun results (run_total_issues st) (exit_code st)).

Fixpoint process_files (fs : filesystem) (args : Args) (st : RunState)
    (md_files : list string) : option RunState :=
  match md_files with
  | [] => Some st
  | f :: fs' =>
      st' <- process_file fs args st f ;;
      process_files fs args st' fs'
  end.

(** The body of the outer loop [for filepath in args.files]. *)
Definition process_path (fs : filesystem) (args : Args) (st : RunState)
    (path : string) : option RunState :=
  match kind_of fs path with
  | Missing => Some st
  | Directory md_files => process_files fs args st md_files
  | RegularFile => process_files fs args st [path]
  end.

Fixpoint process_paths (fs : filesystem) (args : Args) (st : RunState)
    (paths : list string) : option RunState :=
  match paths with
  | [] => Some st
  | p :: ps =>
      st' <- process_path fs args st p ;;
      process_paths fs args st' ps
  end.

(** [main], from the parsed arguments [args] to the call
    [sys.exit(exit_code)]: the state when that call is reached.  The
    parsing of the command line and the writing of the JSON file are not
    part of it. *)
Definition main (fs : filesystem) (args : Args) : option RunState :=
  process_paths fs args (mkRun [] 0 0) (files args).

(** ** The summary and the grouped listing of [main] *)

Local Open Scope list_scope.

(** The totals of the run summary, which are also the ['summary'] object of
    the JSON report. *)
Record Summary : Type := mkSummary {
  total_files : nat;
  summary_total_issues : nat;
  summary_errors : nat;
  summary_warnings : nat;
  summary_info : nat
}.

Definition run_summary (st : RunState) : Summary :=
  mkSummary (length (all_results st))
    (run_total_issues st)
    (list_sum (map errors (all_results st)))
    (list_sum (map warnings (all_results st)))
    (list_sum (map info (all_results st))).

(** The loop that fills [all_rule_counts]. *)
Definition merge_counts (all counts : list (string * nat)) : list (string * nat) :=
  fold_left (fun acc rc =>
    dict_set (fst rc) (dict_get_default (fst rc) 0 acc + snd rc) acc) counts all.

Definition all_rule_counts (results : list Report) : list (string * nat) :=
  fold_left (fun acc r => merge_counts acc (rule_counts r)) results [].

(** [sorted(items, key=lambda x: x[1], reverse=True)]: a stable sort by
    decreasing count. *)
Fixpoint insert_by_count (x : string * nat) (l : list (string * nat))
    : list (string * nat) :=
  match l with
  | [] => [x]
  | y :: l' => if Nat.leb (snd y) (snd x) then x :: l else y :: insert_by_count x l'
  end.

Fixpoint sort_by_count (l : list (string * nat)) : list (string * nat) :=
  match l with
  | [] => []
  | x :: l' => insert_by_count x (sort_by_count l')
  end.

(** The rules listed under "Top Issues". *)
Definition top_issues (results : list Report) : list (string * nat) :=
  firstn 5 (sort_by_count (all_rule_counts results)).

(** The dict [by_rule] built under [--group-by-rule]: a rule is entered with
    an empty list when first met, and each finding is appended to the list
    of its rule. *)
Definition group_step (by_rule : list (string * list LintIssue))
    (issue : LintIssue) : list (string * list LintIssue) :=
  let by_rule' :=
    match dict_get (rule issue) by_rule with
    | Some _ => by_rule
    | None => dict_set (rule issue) [] by_rule
    end in
  dict_set (rule issue)
    (dict_get_default (rule issue) [] by_rule' ++ [issue]) by_rule'.

Definition group_by_rule (issues : list LintIssue)
    : list (string * list LintIssue) :=
  fold_left group_step issues [].

(** [sorted(by_rule.items())]: the keys are pairwise distinct, so the order
    of the pairs is the order of the rule identifiers. *)
Fixpoint insert_group (x : string * list LintIssue)
    (l : list (string * list LintIssue)) : list (string * list LintIssue) :=
  match l with
  | [] => [x]
  | y :: l' =>
      if String.leb (fst x) (fst y) then x :: l else y :: insert_group x l'
  end.

Fixpoint sort_groups (l : list (string * list LintIssue))
    : list (string * list LintIssue) :=
  match l with
  | [] => []
  | x :: l' => insert_group x (sort_groups l')
  end.

(** The groups in the order in which they are printed. *)
Definition printed_groups (issues : list LintIssue)
    : list (string * list LintIssue) :=
  sort_groups (group_by_rule issues).

Local Open Scope string_scope.

(* ================================================================== *)
(** ** Notions used to state the properties *)
(* ================================================================== *)

(** A line that begins, at its first column, with three backquotes or three
    tildes. *)
Definition starts_with_fence (line : string) : bool :=
  startswith "```" line || startswith "~~~" line.

(** The same test once leading whitespace has been ignored. *)
Definition fence_marker_ignoring_indent (line : string) : bool :=
  starts_with_fence (lstrip line).

(** The number of lines strictly before index [k] that satisfy [marker]. *)
Definition markers_before (marker : string -> bool) (lines : list string)
    (k : nat) : nat :=
  length (filter marker (firstn k lines)).

(** The toggle state after the lines before [k], without exceptions. *)
Definition in_code_at (lines : list string) (k : nat) : bool :=
  Nat.odd (markers_before starts_with_fence lines k).

(** What a guarded check appends when no exception occurs: the findings of
    [body] on the lines outside fenced code, line by line. *)
Definition guarded_lines (lines : list string)
    (body : nat -> string -> list LintIssue) : list LintIssue :=
  flat_map (fun il : nat * string =>
    if in_code_at lines (fst il - 1) then [] else body (fst il) (snd il))
    (enumerate1 lines).

(** What an unguarded check appends. *)
Definition unguarded_lines (lines : list string)
    (body : nat -> string -> list LintIssue) : list LintIssue :=
  flat_map (fun il : nat * string => body (fst il) (snd il)) (enumerate1 lines).

(** The findings of all eighteen checks, in the order in which
    [lint_file] runs them, before sorting. *)
Definition all_issues (lines : list string) : list LintIssue :=
  guarded_lines lines forbidden_phrases_line
  ++ guarded_lines lines contractions_line
  ++ guarded_lines lines latin_abbreviations_line
  ++ guarded_lines lines preferred_terminology_line
  ++ guarded_lines lines directional_language_line
  ++ guarded_lines lines future_tense_line
  ++ guarded_lines lines gender_neutral_line
  ++ guarded_lines lines voice_line
  ++ unguarded_lines lines headings_line
  ++ unguarded_lines lines (lists_line lines)
  ++ guarded_lines lines capitalization_line
  ++ guarded_lines lines punctuation_line
  ++ guarded_lines lines numbers_and_units_line
  ++ guarded_lines lines ui_elements_line
  ++ guarded_lines lines code_formatting_line
  ++ unguarded_lines lines links_line
  ++ unguarded_lines lines accessibility_line
  ++ guarded_lines lines inclusive_language_line.

(** A per-line body reports only the line it is given. *)
Definition own_line (body : nat -> string -> list LintIssue) : Prop :=
  forall i l x, In x (body i l) -> line_number x = Z.of_nat i.


(** The line of the forbidden-phrase and contraction scenario. *)
Definition scenario_line : string :=
  "Please note that you can't utilize this feature.".

(** A file system with one regular file; every other path is missing. *)
Definition single_file_fs (path content : string) : filesystem :=
  mkFs (fun p => if String.eqb p path then RegularFile else Missing)
       (fun p => if String.eqb p path then ReadOk content
                 else ReadError "No such file or directory").


(** The files [main] lints for one command-line path. *)
Definition md_files_of (fs : filesystem) (path : string) : list string :=
  match kind_of fs path with
  | Missing => []
  | Directory md_files => md_files
  | RegularFile => [path]
  end.

(** The findings [lint_file] returns, without the exception layer. *)
Definition issues_of (fs : filesystem) (path : string) : list LintIssue :=
  match read_text fs path with
  | ReadError e => [file_read_issue e]
  | ReadOk content => sort_issues (all_issues (splitlines content))
  end.

(** The findings retained for a file under the active filter, and the
    report [main] builds from them. *)
Definition retained (fs : filesystem) (args : Args) (path : string) : list LintIssue :=
  filter_by_severity (arg_severity args) (issues_of fs path).

(** The report [main] appends for a file. *)
Definition report_of (fs : filesystem) (args : Args) (path : string) : Report :=
  generate_report (retained fs args path) path.

(** [any(i.severity == Severity.ERROR for i in issues)] *)
Definition has_error (issues : list LintIssue) : bool :=
  existsb (fun i => Severity_eqb (severity i) ERROR) issues.

(** The ordering of two consecutive findings. *)
Definition ordered (a b : LintIssue) : Prop :=
  (line_number a < line_number b)%Z
  \/ (line_number a = line_number b /\ (column a <= column b)%Z).

(** Every adjacent pair of the sequence is ordered. *)
Definition adjacent_ordered (l : list LintIssue) : Prop :=
  forall n a b, nth_error l n = Some a -> nth_error l (S n) = Some b -> ordered a b.

(** Equality of two findings, field by field. *)
Definition issue_eqb (a b : LintIssue) : bool :=
  (line_number a =? line_number b)%Z && (column a =? column b)%Z
  && Severity_eqb (severity a) (severity b)
  && String.eqb (rule a) (rule b) && String.eqb (message a) (message b)
  && String.eqb (line_content a) (line_content b)
  && String.eqb (suggestion a) (suggestion b).

(** Multiplicity of a finding in a list. *)
Definition multiplicity (x : LintIssue) (l : list LintIssue) : nat :=
  length (filter (issue_eqb x) l).

(** [sum(rule_counts.values())] *)
Definition sum_counts (d : list (string * nat)) : nat :=
  fold_right (fun kv acc => snd kv + acc) 0 d.



(** The findings of a check's output that are on line [i] (1-based). *)
Definition on_line (i : nat) (issues : list LintIssue) : list LintIssue :=
  filter (fun x => (line_number x =? Z.of_nat i)%Z) issues.

(** [needle] occurs in [hay] at offset [c]. *)
Definition occurs_at (needle hay : string) (c : nat) : Prop :=
  c <= String.length hay /\ String.prefix needle (drop c hay) = true.

(** [c] is the smallest offset at which [needle] occurs in [hay]. *)
Definition first_occurrence (needle hay : string) (c : nat) : Prop :=
  occurs_at needle hay c /\ forall c', c' < c -> ~ occurs_at needle hay c'.

(** The character of [s] at offset [p] is a word character. *)
Definition word_at (s : string) (p : nat) : bool :=
  match String.get p s with Some x => isword x | None => false end.

(** Offset [p] of [s] is a word boundary. *)
Definition boundary_at (s : string) (p : nat) : bool :=
  xorb (match p with O => false | S p' => word_at s p' end) (word_at s p).

(** [term] is a prefix of [s], letter case ignored. *)
Fixpoint prefix_nocase (term s : string) : bool :=
  match term with
  | EmptyString => true
  | String c term' =>
      match s with
      | String x s' => Ascii.eqb (lower_char x) (lower_char c) && prefix_nocase term' s'
      | EmptyString => false
      end
  end.

(** [term] occurs in [line] at offset [p] as a whole word, letter case
    ignored: the text matches and both ends are word boundaries. *)
Definition whole_word_at (term line : string) (p : nat) : bool :=
  boundary_at line p
  && prefix_nocase term (drop p line)
  && boundary_at line (p + String.length term).

(** All the offsets of [line], in increasing order, at which [term] occurs
    as a whole word. *)
Definition whole_word_occurrences (term line : string) : list nat :=
  filter (whole_word_at term line) (seq 0 (S (String.length line))).

(** The text a contraction finding quotes in its message. *)
Definition contraction_message (matched : string) : string :=
  "Avoid contractions in technical documentation: " ++ quoted matched.

(** The extents of the successive matches of a pattern. *)
Definition spans (ignorecase : bool) (r : regex) (s : string) : list (nat * nat) :=
  map (fun m => (m_start m, m_end m)) (finditer ignorecase r s).

(** *** Notions used in the proofs about the matcher *)

(** Moving a cursor forward by [n] characters. *)
Fixpoint advance (n : nat) (c : cursor) : cursor :=
  match n with
  | O => c
  | S n' =>
      match rest c with
      | String x rs => advance n' (mkCursor (S (pos c)) (Some x) rs)
      | EmptyString => c
      end
  end.

(** [s] is a prefix of [rs] for the character comparison of the matcher. *)
Fixpoint lit_match (ignorecase : bool) (s rs : string) : bool :=
  match s with
  | EmptyString => true
  | String c s' =>
      match rs with
      | String x rs' => char_eq ignorecase x c && lit_match ignorecase s' rs'
      | EmptyString => false
      end
  end.

(** The successive cursors of a scan, from a given one to the end. *)
Fixpoint cursors (p : nat) (pv : option ascii) (rs : string) : list cursor :=
  mkCursor p pv rs ::
  match rs with
  | String x rs' => cursors (S p) (Some x) rs'
  | EmptyString => []
  end.

(** The cursor at offset [p] of [s]. *)
Definition cursor_at (s : string) (p : nat) : cursor :=
  mkCursor p (match p with O => None | S p' => String.get p' s end) (drop p s).

(** [t] matches at the cursor, letter case ignored, and ends at a word
    boundary. *)
Definition ends_word (c : cursor) (t : string) : bool :=
  lit_match true t (rest c) && at_boundary (advance (String.length t) c).

(** The alternative a word-bounded alternation of literals selects at a
    cursor: the first one, in order, that matches and ends at a boundary. *)
Definition wpick (ts : list string) (c : cursor) : option string :=
  if at_boundary c then List.find (ends_word c) ts else None.

(** A necessary condition for [t1] to occur as a whole word at some offset
    while [t2] occurs as a whole word [d] characters further, [d] being
    inside [t1]: the boundaries that fall inside the known text are
    boundaries, and the two terms agree where they overlap. *)
Definition conflict (t1 t2 : string) (d : nat) : bool :=
  (Nat.eqb d 0 || boundary_at t1 d)
  && (if Nat.ltb (d + String.length t2) (String.length t1)
      then boundary_at t1 (d + String.length t2) else true)
  && (if Nat.ltb (String.length t1) (d + String.length t2)
      then boundary_at t2 (String.length t1 - d) else true)
  && prefix_nocase (take (String.length t1 - d) t2) (drop d t1).

(** No two whole-word occurrences of terms of [ts] can overlap, and no two
    distinct terms can occur as whole words at the same offset. *)
Definition no_conflict (ts : list string) : bool :=
  forallb (fun t1 =>
    negb (is_empty t1)
    && forallb (fun t2 =>
         forallb (fun d =>
           (Nat.eqb d 0 && String.eqb t1 t2) || negb (conflict t1 t2 d))
           (seq 0 (String.length t1))) ts) ts.

(** A substring check reports a trigger at most once on a line, at the
    offset of its first occurrence in the lowercased line. *)
Definition reported_once_at_first (needle hay : string)
    (found : list LintIssue) : Prop :=
  (exists c, first_occurrence needle hay c /\ map column found = [Z.of_nat c])
  \/ ((forall c, ~ occurs_at needle hay c) /\ found = []).

(** A word-boundary check reports a trigger once per whole-word
    occurrence on the line, at the offset of each. *)
Definition reported_at_each_occurrence (term line : string)
    (found : list LintIssue) : Prop :=
  map column found = map Z.of_nat (whole_word_occurrences term line).

(** The contraction findings that quote a spelling of [t]. *)
Definition quotes_contraction (t : string) (x : LintIssue) : bool :=
  String.eqb (lower (message x)) (lower (contraction_message t)).

(** The keys of a catalog are pairwise distinct. *)
Fixpoint distinct (l : list string) : bool :=
  match l with
  | [] => true
  | x :: l' => negb (mem x l') && distinct l'
  end.

(** Every term of the list is its own lowercase form. *)
Definition all_lowercase (l : list string) : bool :=
  forallb (fun t => String.eqb (lower t) t) l.

(** What is proved of a substring check on line [i] (0-based) of [lines]:
    the check completes; its findings on that line are those of the
    catalog entries, taken in order; no trigger is listed twice; and each
    entry reports its trigger at most once, at its first offset in the
    lowercased line. *)
Definition substring_check_ok
    (check : list string -> option (list LintIssue))
    (catalog : list (string * string))
    (per_entry : nat -> string -> string * string -> list LintIssue)
    (lines : list string) (i : nat) (line : string) : Prop :=
  exists out,
    check lines = Some out
    /\ on_line (S i) out = flat_map (per_entry (S i) line) catalog
    /\ NoDup (map fst catalog)
    /\ forall trigger v,
         In (trigger, v) catalog ->
         reported_once_at_first trigger (lower line)
           (per_entry (S i) line (trigger, v)).

(** What is proved of a word-boundary check that builds one pattern per
    catalog entry: the same, with each entry reporting every whole-word
    occurrence of its trigger. *)
Definition word_check_ok
    (check : list string -> option (list LintIssue))
    (catalog : list (string * string))
    (per_entry : nat -> string -> string * string -> list LintIssue)
    (lines : list string) (i : nat) (line : string) : Prop :=
  exists out,
    check lines = Some out
    /\ on_line (S i) out = flat_map (per_entry (S i) line) catalog
    /\ NoDup (map fst catalog)
    /\ forall trigger v,
         In (trigger, v) catalog ->
         reported_at_each_occurrence trigger line
           (per_entry (S i) line (trigger, v)).

(** What is proved of the contraction check, whose single pattern is the
    alternation of all the contractions: among its findings on the line,
    those that quote a given contraction sit at every whole-word occurrence
    of that contraction. *)
Definition contraction_check_ok (lines : list string) (i : nat) (line : string) : Prop :=
  exists out,
    check_contractions lines = Some out
    /\ on_line (S i) out = contractions_line (S i) line
    /\ NoDup contractions
    /\ forall t,
         In t contractions ->
         reported_at_each_occurrence t line
           (filter (quotes_contraction t) (on_line (S i) out)).

(** The match, if any, that a scan finds at one cursor. *)
Definition found_at (ic : bool) (r : regex) (c : cursor) : list rmatch :=
  match match_at ic r c with Some m => [m] | None => [] end.

(** *** Notions used for the further properties *)

Local Open Scope list_scope.

(** The severity each rule identifier is reported with. *)
Definition rule_severity_table : list (string * Severity) :=
  [ ("file-read", ERROR);
    ("ms-forbidden-phrase", WARNING); ("ms-contraction", WARNING);
    ("ms-latin-abbrev", WARNING); ("ms-preferred-term", INFO);
    ("ms-directional", WARNING); ("ms-future-tense", INFO);
    ("ms-gender-neutral", WARNING); ("ms-passive-voice", INFO);
    ("ms-heading-case", INFO); ("ms-heading-punctuation", WARNING);
    ("ms-heading-gerund", INFO); ("ms-list-parallel", INFO);
    ("ms-list-punctuation", INFO); ("ms-internet-cap", WARNING);
    ("ms-double-space", INFO); ("ms-space-before-punct", WARNING);
    ("ms-oxford-comma", INFO); ("ms-number-start", INFO);
    ("ms-number-unit-space", WARNING); ("ms-zero-decimal", INFO);
    ("ms-ui-element", INFO); ("ms-click-on", WARNING);
    ("ms-code-format", INFO); ("ms-link-text", WARNING);
    ("ms-link-descriptive", INFO); ("ms-link-see", INFO);
    ("ms-alt-text", ERROR); ("ms-color-only", WARNING);
    ("ms-inclusive", WARNING) ].

(** The rule identifiers of the four checks that run on every line. *)
Definition unconditional_rules : list string :=
  [ "ms-heading-case"; "ms-heading-punctuation"; "ms-heading-gerund";
    "ms-list-parallel"; "ms-list-punctuation";
    "ms-link-text"; "ms-link-descriptive"; "ms-link-see";
    "ms-alt-text"; "ms-color-only" ].

(** A finding made on line [i] (1-based) whose text is [l]: it carries that
    line number and that text, and the severity of its rule. *)
Definition well_formed (i : nat) (l : string) (x : LintIssue) : Prop :=
  line_number x = Z.of_nat i
  /\ line_content x = l
  /\ dict_get (rule x) rule_severity_table = Some (severity x).

Definition body_well_formed (body : nat -> string -> list LintIssue) : Prop :=
  forall i l x, In x (body i l) -> well_formed i l x.

(** The per-line bodies of the fourteen guarded checks, and of the four
    unguarded ones. *)
Definition prose_bodies : list (nat -> string -> list LintIssue) :=
  [ forbidden_phrases_line; contractions_line; latin_abbreviations_line;
    preferred_terminology_line; directional_language_line; future_tense_line;
    gender_neutral_line; voice_line; capitalization_line; punctuation_line;
    numbers_and_units_line; ui_elements_line; code_formatting_line;
    inclusive_language_line ].

Definition unconditional_bodies (lines : list string)
    : list (nat -> string -> list LintIssue) :=
  [ headings_line; lists_line lines; links_line; accessibility_line ].

(** A small document used to instantiate the properties: a heading, prose,
    a fenced block holding an image and a link, and more prose. *)
Definition sample_lines : list string :=
  [ "# Setting up:";
    "Click on the red icon.";
    "```";
    "![](shot.png) see [here](http://x)";
    "```";
    "We can't log in via email, e.g. now." ].

Definition sample_findings : list LintIssue :=
  Eval vm_compute in
    match lint_lines sample_lines with Some l => l | None => [] end.

Definition sample_alt_text_finding : LintIssue :=
  add_issue 4 0 ERROR "ms-alt-text"
    "Images must have alt text for accessibility"
    "![](shot.png) see [here](http://x)"
    "Add descriptive alt text: ![description](url)".

(** A file holding two images without alt text, and what the linter
    returns for it. *)
Definition sample_fs : filesystem :=
  single_file_fs "doc.md" "![](a.png) and ![](b.png)".

Definition sample_file_findings : list LintIssue :=
  Eval vm_compute in
    match lint_file sample_fs "doc.md" with Some l => l | None => [] end.

Definition sample_file_finding (n : nat) : LintIssue :=
  nth n sample_file_findings sample_alt_text_finding.

(** Two findings share the sort key [(line_number, column)]. *)
Definition same_key (ln col : Z) (x : LintIssue) : bool :=
  ((line_number x =? ln) && (column x =? col))%Z.

(** The number of findings that carry rule [k]. *)
Definition count_rule (k : string) (issues : list LintIssue) : nat :=
  length (filter (fun x => String.eqb (rule x) k) issues).

(** The files a run lints, in order. *)
Definition linted_files (fs : filesystem) (args : Args) : list string :=
  flat_map (md_files_of fs) (files args).

(** A run over the sample file, without [--summary]. *)
Definition sample_args : Args := mkArgs ["doc.md"] INFO false.

Definition sample_run : RunState :=
  Eval vm_compute in
    match main sample_fs sample_args with
    | Some st => st
    | None => mkRun [] 0 0
    end.

(** The findings of [issues] that carry rule [k], in their order. *)
Definition with_rule (k : string) (issues : list LintIssue) : list LintIssue :=
  filter (fun x => String.eqb (rule x) k) issues.

(** The keys of two consecutive groups are in strictly increasing order. *)
Definition key_lt {V : Type} (a b : string * V) : Prop :=
  String.ltb (fst a) (fst b) = true.

(** The counts of two consecutive entries do not increase. *)
Definition count_ge (a b : string * nat) : Prop := snd b <= snd a.

(** Every character of [s] satisfies [p]. *)
Fixpoint all_chars (p : ascii -> bool) (s : string) : bool :=
  match s with
  | EmptyString => true
  | String c s' => p c && all_chars p s'
  end.

(** The offset just past the end of the subject, seen from a cursor. *)
Definition extent (c : cursor) : nat := pos c + String.length (rest c).

(** The column of a finding lies within its line; the link check's
    "see"/"refer to" finding is reported ten characters before the link
    and may fall before the line starts. *)
Definition column_in_line (l : string) (x : LintIssue) : Prop :=
  (0 <= column x <= Z.of_nat (String.length l))%Z
  \/ (rule x = "ms-link-see"
      /\ (-10 <= column x <= Z.of_nat (String.length l) - 10)%Z).

Definition body_columns_in_line (body : nat -> string -> list LintIssue) : Prop :=
  forall i l x, In x (body i l) -> column_in_line l x.

(** The triggers listed both as forbidden phrases and as Latin
    abbreviations. *)
Definition shared_triggers : list string :=
  filter (fun t => mem t (map fst latin_abbrev)) (map fst forbidden_phrases).

(** A contraction finding of a sample line. *)
Definition sample_contraction_finding : LintIssue :=
  Eval vm_compute in
    match contractions_line 6 "We can't log in via email, e.g. now." with
    | x :: _ => x
    | [] => mkIssue 0 0 INFO EmptyString EmptyString EmptyString EmptyString
    end.

Definition sample_gender_finding : LintIssue :=
  Eval vm_compute in
    match gender_neutral_line 1 "Ask her for the man-hours." with
    | x :: _ => x
    | [] => mkIssue 0 0 INFO EmptyString EmptyString EmptyString EmptyString
    end.

Definition sample_heading_finding : LintIssue :=
  Eval vm_compute in
    match headings_line 1 "# Setting up:" with
    | x :: _ => x
    | [] => mkIssue 0 0 INFO EmptyString EmptyString EmptyString EmptyString
    end.

Local Open Scope string_scope.

(* ================================================================== *)
(** ** Properties of the string operations and of the matcher *)
(* ================================================================== *)

Section MatcherFacts.

Lemma lit_spec {R : Type} (ignorecase : bool) (s : string) :
  forall p pv rs (k : cursor -> option R),
    lit ignorecase s p pv rs k =
    if lit_match ignorecase s rs
    then k (advance (String.length s) (mkCursor p pv rs))
    else None.
Proof.
  induction s as [|c s IH]; intros p pv rs k; simpl.
  - reflexivity.
  - destruct rs as [|x rs]; simpl; [reflexivity|].
    destruct (char_eq ignorecase x c); simpl; [apply IH | reflexivity].
Qed.

Lemma lit_match_exact (s rs : string) :
  lit_match false s rs = String.prefix s rs.
Proof.
  revert rs; induction s as [|c s IH]; intros [|x rs]; simpl; try reflexivity.
  destruct (ascii_dec c x) as [->|Hne].
  - rewrite Ascii.eqb_refl. apply IH.
  - destruct (Ascii.eqb x c) eqn:E; [|reflexivity].
    apply Ascii.eqb_eq in E. congruence.
Qed.

Lemma lit_match_nocase (s rs : string) :
  lit_match true s rs = prefix_nocase s rs.
Proof.
  revert rs; induction s as [|c s IH]; intros [|x rs]; simpl; try reflexivity.
  now rewrite IH.
Qed.

End MatcherFacts.

(** *** The embedding on concrete inputs *)

Example passive_pattern_backtracks :
  spans true passive_pattern "It is being completed and was needed"
  = [(6, 21); (26, 36)].
Proof. reflexivity. Qed.

Example directional_pattern_lookahead :
  spans true directional_pattern
    "the Top menu and top  barx and left   panel, right side bottom"
  = [(45, 50); (56, 62)].
Proof. reflexivity. Qed.

Example decimal_pattern_lookbehind :
  spans false decimal_pattern "a .5 1.5 ..5 x.25.3" = [(2, 4); (10, 12); (14, 17)].
Proof. reflexivity. Qed.

Example inline_link_groups :
  map (fun m => (group 1 "see [a](b) [c]] [d](e)(f)" m,
                 group 2 "see [a](b) [c]] [d](e)(f)" m))
      (finditer false inline_link "see [a](b) [c]] [d](e)(f)")
  = [("a", "b"); ("d", "e")].
Proof. reflexivity. Qed.

Example list_pattern_gives_back_whitespace :
  option_map (group 3 "-   ") (rmatch_start false list_pattern "-   ") = Some " ".
Proof. reflexivity. Qed.

Example heading_pattern_bounds :
  map (fun l => match rmatch_start false heading_pattern l with
                | Some _ => true | None => false end)
      ["## Title"; "####### x"; "# "; "#x"]
  = [true; false; false; false].
Proof. reflexivity. Qed.

Example splitlines_examples :
  splitlines ("a" ++ String newline ("b" ++ String carriage_return
                (String newline (String newline "c"))))
  = ["a"; "b"; EmptyString; "c"].
Proof. reflexivity. Qed.

Example split_and_strip :
  split "  a b   cc " = ["a"; "b"; "cc"] /\ strip "  a b  " = "a b".
Proof. split; reflexivity. Qed.

Example heading_scenario :
  option_map (map rule) (lint_lines ["## Configuring The System:"])
  = Some ["ms-heading-gerund"; "ms-heading-punctuation"].
Proof. vm_compute. reflexivity. Qed.

Example backquote_suppresses_directional :
  directional_language_line 1 "See the `config.yaml` file above" = []
  /\ map column (directional_language_line 1 "See the file above") = [13%Z].
Proof. split; vm_compute; reflexivity. Qed.

(** *** The fence test of the context tracker *)

Lemma is_fence_starts_with (line : string) :
  is_fence line = starts_with_fence line.
Proof.
  unfold is_fence, rmatch_start, match_at, fence_pattern, starts_with_fence,
    startswith, start_of.
  cbn [run pos prev rest Nat.eqb].
  rewrite !lit_spec, !lit_match_exact.
  destruct (String.prefix "```" line); [reflexivity|].
  destruct (String.prefix "~~~" line); reflexivity.
Qed.

Lemma fence_scan_parity (lines : list string) :
  forall n b,
    n <= length lines ->
    fence_scan lines n b =
    Some (xorb b (Nat.odd (markers_before starts_with_fence lines n))).
Proof.
  unfold markers_before.
  induction lines as [|l ls IH]; intros [|n] b Hn; simpl in *;
    try (now rewrite xorb_false_r); try lia.
  rewrite IH by lia. rewrite is_fence_starts_with.
  destruct (starts_with_fence l); [|reflexivity].
  cbn [length]. rewrite Nat.odd_succ, <- Nat.negb_odd.
  f_equal. destruct b, (Nat.odd _); reflexivity.
Qed.

Lemma is_in_code_block_in_range (lines : list string) (k : nat) :
  k <= length lines ->
  is_in_code_block lines k = Some (in_code_at lines k).
Proof.
  intro Hk. unfold is_in_code_block, in_code_at.
  now rewrite fence_scan_parity.
Qed.

Lemma fence_scan_out_of_range (lines : list string) :
  forall n b, length lines < n -> fence_scan lines n b = None.
Proof.
  induction lines as [|l ls IH]; intros [|n] b Hn; simpl in *; try lia; auto.
  apply IH. lia.
Qed.

(** *** Loops over the lines *)

Lemma for_each_some {A : Type} (xs : list A)
    (body : A -> option (list LintIssue)) (g : A -> list LintIssue) :
  (forall x, In x xs -> body x = Some (g x)) ->
  for_each xs body = Some (flat_map g xs).
Proof.
  induction xs as [|x xs IH]; intro H; simpl; [reflexivity|].
  rewrite (H x (or_introl eq_refl)). simpl.
  rewrite IH by (intros y Hy; apply H; now right). reflexivity.
Qed.

Lemma in_combine_seq (lines : list string) :
  forall start i l,
    In (i, l) (combine (seq start (length lines)) lines) <->
    start <= i /\ nth_error lines (i - start) = Some l.
Proof.
  induction lines as [|x xs IH]; intros start i l; simpl.
  - split; [tauto|]. intros [_ H]. now destruct (i - start).
  - rewrite IH. split.
    + intros [H | [Hle Hn]].
      * inversion H; subst. rewrite Nat.sub_diag. split; [lia | reflexivity].
      * split; [lia|]. replace (i - start) with (S (i - S start)) by lia. exact Hn.
    + intros [Hle Hn]. destruct (i - start) as [|d] eqn:E.
      * left. simpl in Hn. inversion Hn; subst. f_equal. lia.
      * right. split; [lia|]. simpl in Hn.
        replace (i - S start) with d by lia. exact Hn.
Qed.

Lemma in_enumerate1 (lines : list string) (i : nat) (l : string) :
  In (i, l) (enumerate1 lines) <-> 1 <= i /\ nth_error lines (i - 1) = Some l.
Proof. apply in_combine_seq. Qed.

Lemma nth_error_lt {A : Type} (xs : list A) (n : nat) (x : A) :
  nth_error xs n = Some x -> n < length xs.
Proof. intro H. apply nth_error_Some. congruence. Qed.

Lemma guarded_check_pure (lines : list string)
    (body : nat -> string -> list LintIssue) :
  for_each (enumerate1 lines)
    (fun il => unless_in_code lines (fst il) (body (fst il) (snd il)))
  = Some (guarded_lines lines body).
Proof.
  unfold guarded_lines. apply for_each_some.
  intros [i l] Hin. apply in_enumerate1 in Hin. destruct Hin as [Hi Hn].
  apply nth_error_lt in Hn. unfold unless_in_code. cbn [fst snd].
  rewrite is_in_code_block_in_range by lia. reflexivity.
Qed.

Lemma unguarded_check_pure (lines : list string)
    (body : nat -> string -> list LintIssue) :
  for_each (enumerate1 lines) (fun il => Some (body (fst il) (snd il)))
  = Some (unguarded_lines lines body).
Proof. unfold unguarded_lines. now apply for_each_some. Qed.

Lemma in_guarded_lines (lines : list string)
    (body : nat -> string -> list LintIssue) (x : LintIssue) :
  In x (guarded_lines lines body) <->
  exists i l, nth_error lines i = Some l
              /\ in_code_at lines i = false
              /\ In x (body (S i) l).
Proof.
  unfold guarded_lines. rewrite in_flat_map. split.
  - intros [[i l] [Hin Hx]]. apply in_enumerate1 in Hin. destruct Hin as [Hi Hn].
    cbn [fst snd] in Hx. exists (i - 1), l. split; [exact Hn|].
    destruct (in_code_at lines (i - 1)); [destruct Hx|].
    split; [reflexivity|]. now replace (S (i - 1)) with i by lia.
  - intros (i & l & Hn & Hc & Hx). exists (S i, l). split.
    + apply in_enumerate1. simpl. rewrite Nat.sub_0_r. split; [lia | exact Hn].
    + cbn [fst snd]. replace (S i - 1) with i by lia. now rewrite Hc.
Qed.

Lemma in_unguarded_lines (lines : list string)
    (body : nat -> string -> list LintIssue) (x : LintIssue) :
  In x (unguarded_lines lines body) <->
  exists i l, nth_error lines i = Some l /\ In x (body (S i) l).
Proof.
  unfold unguarded_lines. rewrite in_flat_map. split.
  - intros [[i l] [Hin Hx]]. apply in_enumerate1 in Hin. destruct Hin as [Hi Hn].
    cbn [fst snd] in Hx. exists (i - 1), l. split; [exact Hn|].
    now replace (S (i - 1)) with i by lia.
  - intros (i & l & Hn & Hx). exists (S i, l). split.
    + apply in_enumerate1. simpl. rewrite Nat.sub_0_r. split; [lia | exact Hn].
    + exact Hx.
Qed.

(** *** Every check completes *)

Lemma run_checks_pure (lines : list string) :
  for_each all_checks (fun check => check lines) = Some (all_issues lines).
Proof.
  unfold all_checks, all_issues. cbn [for_each].
  unfold check_forbidden_phrases, check_contractions, check_latin_abbreviations,
    check_preferred_terminology, check_directional_language, check_future_tense,
    check_gender_neutral, check_voice, check_headings_microsoft,
    check_lists_microsoft, check_capitalization, check_punctuation,
    check_numbers_and_units, check_ui_elements, check_code_formatting,
    check_links_microsoft, check_accessibility, check_inclusive_language.
  rewrite !guarded_check_pure.
  rewrite !(unguarded_check_pure lines).
  cbn [bind]. now rewrite app_nil_r.
Qed.

Lemma lint_lines_pure (lines : list string) :
  lint_lines lines = Some (sort_issues (all_issues lines)).
Proof. unfold lint_lines. now rewrite run_checks_pure. Qed.

(** *** Each per-line body reports its own line *)

Ltac split_issue_membership :=
  repeat match goal with
  | H : In _ (_ ++ _) |- _ => apply in_app_or in H; destruct H as [H | H]
  | H : In _ (flat_map _ _) |- _ =>
      apply in_flat_map in H; destruct H as [? [? H]]
  | H : In _ (map _ _) |- _ => apply in_map_iff in H; destruct H as [? [<- ?]]
  | H : In _ (let (_, _) := ?e in _) |- _ => destruct e
  | H : In _ (match ?e with _ => _ end) |- _ => destruct e
  | H : In _ [] |- _ => destruct H
  | H : In _ (_ :: _) |- _ => destruct H as [<- | H]
  end.

Ltac own_line_tac body :=
  intros i l x H; unfold body in H; split_issue_membership; reflexivity.

Lemma forbidden_phrases_own_line : own_line forbidden_phrases_line.
Proof.
  intros i l x H. unfold forbidden_phrases_line in H.
  apply in_flat_map in H. destruct H as [[t c] [_ H]].
  unfold forbidden_phrase_issues in H. split_issue_membership. reflexivity.
Qed.

Lemma contractions_own_line : own_line contractions_line.
Proof. own_line_tac contractions_line. Qed.

Lemma latin_abbreviations_own_line : own_line latin_abbreviations_line.
Proof.
  intros i l x H. unfold latin_abbreviations_line in H.
  apply in_flat_map in H. destruct H as [[t c] [_ H]].
  unfold latin_abbreviation_issues in H. split_issue_membership. reflexivity.
Qed.

Lemma preferred_terminology_own_line : own_line preferred_terminology_line.
Proof.
  intros i l x H. unfold preferred_terminology_line in H.
  apply in_flat_map in H. destruct H as [[t c] [_ H]].
  unfold preferred_term_issues in H. split_issue_membership. reflexivity.
Qed.










Lemma inclusive_language_own_line : own_line inclusive_language_line.
Proof.
  intros i l x H. unfold inclusive_language_line in H.
  apply in_flat_map in H. destruct H as [[t c] [_ H]].
  unfold inclusive_term_issues in H. split_issue_membership. reflexivity.
Qed.


(** *** The sort of [lint_file] *)

Lemma key_le_total (a b : LintIssue) : key_le a b = false -> key_le b a = true.
Proof.
  unfold key_le. intro H.
  apply orb_false_iff in H. destruct H as [H1 H2].
  apply Z.ltb_ge in H1.
  destruct (line_number a =? line_number b)%Z eqn:E.
  - apply Z.eqb_eq in E. simpl in H2. apply Z.leb_gt in H2.
    apply orb_true_iff. right. apply andb_true_iff. split.
    + apply Z.eqb_eq. lia.
    + apply Z.leb_le. lia.
  - apply Z.eqb_neq in E. apply orb_true_iff. left. apply Z.ltb_lt. lia.
Qed.

Lemma key_le_ordered (a b : LintIssue) : key_le a b = true <-> ordered a b.
Proof.
  unfold key_le, ordered.
  rewrite orb_true_iff, andb_true_iff, Z.ltb_lt, Z.eqb_eq, Z.leb_le. tauto.
Qed.

Lemma insert_issue_perm (x : LintIssue) (l : list LintIssue) :
  Permutation (x :: l) (insert_issue x l).
Proof.
  induction l as [|y l IH]; simpl; [reflexivity|].
  destruct (key_le x y); [reflexivity|].
  rewrite perm_swap. now constructor.
Qed.

Lemma sort_issues_perm (l : list LintIssue) : Permutation l (sort_issues l).
Proof.
  induction l as [|x l IH]; simpl; [constructor|].
  rewrite <- insert_issue_perm. now constructor.
Qed.

Lemma insert_issue_sorted (x : LintIssue) (l : list LintIssue) :
  Sorted ordered l -> Sorted ordered (insert_issue x l).
Proof.
  induction l as [|y l IH]; intro Hs; simpl.
  - repeat constructor.
  - destruct (key_le x y) eqn:E.
    + constructor; [exact Hs|]. constructor. now apply key_le_ordered.
    + apply key_le_total in E. apply key_le_ordered in E.
      inversion Hs as [|? ? Hs' Hhd]; subst.
      constructor; [now apply IH|].
      destruct l as [|z l]; simpl.
      * now constructor.
      * destruct (key_le x z); constructor; [exact E|].
        now inversion Hhd.
Qed.

Lemma sort_issues_sorted (l : list LintIssue) : Sorted ordered (sort_issues l).
Proof.
  induction l as [|x l IH]; simpl; [constructor|].
  now apply insert_issue_sorted.
Qed.

Lemma sorted_adjacent (l : list LintIssue) :
  Sorted ordered l -> adjacent_ordered l.
Proof.
  induction 1 as [|x l Hs IH Hhd]; intros n a b Ha Hb.
  - now destruct n.
  - destruct n as [|n]; simpl in Ha, Hb.
    + inversion Ha; subst. destruct l as [|y l]; [discriminate|].
      simpl in Hb. inversion Hb; subst. now inversion Hhd.
    + eapply IH; eassumption.
Qed.

(** The sort keeps findings with equal keys in their original order. *)
Lemma insert_issue_stable (same : LintIssue -> bool) (x : LintIssue)
    (l : list LintIssue) :
  (forall y, same x = true -> same y = true -> key_le x y = true) ->
  filter same (insert_issue x l) = filter same (x :: l).
Proof.
  intro Hkey. induction l as [|y l IH]; simpl; [reflexivity|].
  destruct (key_le x y) eqn:E; [reflexivity|].
  simpl in *. rewrite IH.
  destruct (same x) eqn:Ex, (same y) eqn:Ey; try reflexivity.
  rewrite Hkey in E by auto. discriminate.
Qed.

Lemma sort_issues_stable (ln col : Z) (l : list LintIssue) :
  let same x := ((line_number x =? ln) && (column x =? col))%Z in
  filter same (sort_issues l) = filter same l.
Proof.
  intro same. induction l as [|x l IH]; simpl; [reflexivity|].
  rewrite insert_issue_stable.
  - simpl. now rewrite IH.
  - unfold same, key_le. intros y Hx Hy.
    apply andb_true_iff in Hx, Hy. destruct Hx as [Hx1 Hx2], Hy as [Hy1 Hy2].
    apply Z.eqb_eq in Hx1, Hx2, Hy1, Hy2.
    apply orb_true_iff. right. apply andb_true_iff.
    split; [apply Z.eqb_eq | apply Z.leb_le]; lia.
Qed.

Lemma lint_file_total (fs : filesystem) (path : string) :
  exists issues, lint_file fs path = Some issues /\ Sorted ordered issues.
Proof.
  unfold lint_file. destruct (read_text fs path) as [content|e].
  - rewrite lint_lines_pure. eexists. split; [reflexivity|].
    apply sort_issues_sorted.
  - eexists. split; [reflexivity|]. repeat constructor.
Qed.

(* ================================================================== *)
(** ** The context tracker (C1) *)
(* ================================================================== *)

(** C1, as stated, fails: with fence markers recognised after ignoring
    leading whitespace, the indented fence line before index 1 is one
    marker (an odd count), yet [is_in_code_block] answers false, because
    the pattern is anchored at the first column of the line. *)
Lemma is_in_code_block_indented_fence :
  let lines := ["  ```"; "text"] in
  ~ (is_in_code_block lines 1 = Some true <->
     Nat.odd (markers_before fence_marker_ignoring_indent lines 1) = true).
Proof.
  vm_compute. intros [_ H]. discriminate (H eq_refl).
Qed.

(** C1, amended: for every line sequence and every valid index [k],
    [is_in_code_block lines k] returns true if and only if the number of
    fence-marker lines strictly before [k] is odd (and false if and only if
    it is even), where a line is a fence marker exactly when it begins, at
    its first column and with no leading whitespace skipped, with three
    backquotes or three tildes. *)
Theorem is_in_code_block_toggle_parity (lines : list string) (k : nat) :
  k <= length lines ->
  (is_in_code_block lines k = Some true <->
   Nat.odd (markers_before starts_with_fence lines k) = true)
  /\ (is_in_code_block lines k = Some false <->
      Nat.even (markers_before starts_with_fence lines k) = true).
Proof.
  intro Hk. rewrite is_in_code_block_in_range by exact Hk.
  unfold in_code_at. rewrite <- Nat.negb_odd.
  destruct (Nat.odd (markers_before starts_with_fence lines k)); simpl;
    split; split; intro H; try reflexivity; try discriminate.
Qed.

Lemma is_in_code_block_toggle_parity_witness :
  2 <= length ["```"; "print(x)"; "```"; "prose"]
  /\ is_in_code_block ["```"; "print(x)"; "```"; "prose"] 2 = Some true.
Proof.
  split.
  - simpl. lia.
  - apply (is_in_code_block_toggle_parity ["```"; "print(x)"; "```"; "prose"] 2).
    + simpl. lia.
    + reflexivity.
Defined.

(* ================================================================== *)
(** ** The image scenario (C6) *)
(* ================================================================== *)

(** C6: linting the single line [![](photo.png)] yields exactly one
    Error-severity finding, whose rule identifier is the missing-alt-text
    rule [ms-alt-text] (it is the only finding), and linting the single line
    [![a cat sleeping](photo.png)] yields no finding at all. *)
Theorem image_alt_text_scenario :
  (exists issues x,
     lint_lines ["![](photo.png)"] = Some issues
     /\ filter (fun i => Severity_eqb (severity i) ERROR) issues = [x]
     /\ rule x = "ms-alt-text"
     /\ issues = [x])
  /\ lint_lines ["![a cat sleeping](photo.png)"] = Some [].
Proof.
  split.
  - eexists. eexists. split; [vm_compute; reflexivity|].
    repeat split.
  - vm_compute. reflexivity.
Qed.

(* ================================================================== *)
(** ** Ordering of the findings (C7) *)
(* ================================================================== *)

(** C7: for every input file (readable or not), [lint_file] returns a
    finding sequence in which every adjacent pair satisfies: either the
    line number strictly increases, or the line numbers are equal and the
    column does not decrease. *)
Theorem lint_file_output_ordered (fs : filesystem) (path : string) :
  exists issues,
    lint_file fs path = Some issues /\ adjacent_ordered issues.
Proof.
  destruct (lint_file_total fs path) as [issues [H Hs]].
  exists issues. split; [exact H|]. now apply sorted_adjacent.
Qed.

(* ================================================================== *)
(** ** The severity filter (C8) *)
(* ================================================================== *)

Lemma multiplicity_filter_le (p q : LintIssue -> bool) (x : LintIssue)
    (l : list LintIssue) :
  (forall y, p y = true -> q y = true) ->
  multiplicity x (filter p l) <= multiplicity x (filter q l).
Proof.
  intro Hpq. unfold multiplicity.
  induction l as [|y l IH]; simpl; [lia|].
  destruct (p y) eqn:Ep.
  - rewrite (Hpq y Ep). simpl. destruct (issue_eqb x y); simpl; lia.
  - destruct (q y); simpl; [destruct (issue_eqb x y); simpl; lia | exact IH].
Qed.

Lemma incl_filter_weaken (p q : LintIssue -> bool) (l : list LintIssue) :
  (forall y, p y = true -> q y = true) ->
  incl (filter p l) (filter q l).
Proof.
  intros Hpq x Hx. apply filter_In in Hx. apply filter_In.
  destruct Hx as [Hin Hp]. split; [exact Hin | now apply Hpq].
Qed.

(** C8: for every list of findings, what is retained under minimum
    severity [warning] is contained in what is retained under [info], and
    what is retained under [error] is contained in what is retained under
    [warning]; the containment holds for membership and for the number of
    copies of each finding. *)
Theorem severity_filter_monotone (issues : list LintIssue) :
  (incl (filter_by_severity WARNING issues) (filter_by_severity INFO issues)
   /\ incl (filter_by_severity ERROR issues) (filter_by_severity WARNING issues))
  /\ (forall x,
        multiplicity x (filter_by_severity WARNING issues)
          <= multiplicity x (filter_by_severity INFO issues)
        /\ multiplicity x (filter_by_severity ERROR issues)
             <= multiplicity x (filter_by_severity WARNING issues)).
Proof.
  assert (HWI : forall y : LintIssue,
            Nat.leb (severity_levels WARNING) (severity_levels (severity y)) = true ->
            Nat.leb (severity_levels INFO) (severity_levels (severity y)) = true)
    by (intro y; destruct (severity y); simpl; congruence).
  assert (HEW : forall y : LintIssue,
            Nat.leb (severity_levels ERROR) (severity_levels (severity y)) = true ->
            Nat.leb (severity_levels WARNING) (severity_levels (severity y)) = true)
    by (intro y; destruct (severity y); simpl; congruence).
  unfold filter_by_severity. split; [split|intro x; split].
  - now apply incl_filter_weaken.
  - now apply incl_filter_weaken.
  - now apply multiplicity_filter_le.
  - now apply multiplicity_filter_le.
Qed.

(* ================================================================== *)
(** ** The per-file report (C10) *)
(* ================================================================== *)

Lemma count_severity_total (issues : list LintIssue) :
  length issues
  = count_severity ERROR issues + count_severity WARNING issues
    + count_severity INFO issues.
Proof.
  unfold count_severity.
  induction issues as [|x l IH]; simpl; [reflexivity|].
  destruct (severity x); simpl; lia.
Qed.

Lemma sum_counts_increment (k : string) (d : list (string * nat)) :
  sum_counts (dict_set k (dict_get_default k 0 d + 1) d) = S (sum_counts d).
Proof.
  unfold dict_get_default.
  induction d as [|[k' v] d IH]; simpl; [reflexivity|].
  destruct (String.eqb k k') eqn:E; simpl.
  - lia.
  - destruct (dict_get k d); simpl in *; lia.
Qed.

Lemma sum_counts_fold (issues : list LintIssue) :
  forall d,
    sum_counts
      (fold_left (fun rule_counts issue =>
         dict_set (rule issue)
           (dict_get_default (rule issue) 0 rule_counts + 1) rule_counts)
         issues d)
    = sum_counts d + length issues.
Proof.
  induction issues as [|x l IH]; intro d; simpl; [lia|].
  rewrite IH, sum_counts_increment. lia.
Qed.

Lemma dict_set_keys {V : Type} (k : string) (v : V) (d : list (string * V)) (k' : string) :
  In k' (map fst (dict_set k v d)) <-> k' = k \/ In k' (map fst d).
Proof.
  induction d as [|[k0 v0] d IH]; simpl.
  - intuition congruence.
  - destruct (String.eqb_spec k k0) as [->|Hne]; simpl.
    + intuition congruence.
    + rewrite IH. intuition congruence.
Qed.

Lemma dict_set_NoDup {V : Type} (k : string) (v : V) (d : list (string * V)) :
  NoDup (map fst d) -> NoDup (map fst (dict_set k v d)).
Proof.
  induction d as [|[k0 v0] d IH]; simpl; intro H.
  - repeat constructor. intros [].
  - inversion H as [|? ? Hnotin Hd]; subst.
    destruct (String.eqb_spec k k0) as [->|Hne]; simpl.
    + now constructor.
    + constructor; [|now apply IH].
      rewrite dict_set_keys. intros [E|E]; [congruence | contradiction].
Qed.

Lemma count_rules_NoDup (issues : list LintIssue) :
  NoDup (map fst (count_rules issues)).
Proof.
  unfold count_rules.
  assert (H : forall d : list (string * nat),
             NoDup (map fst d) ->
             NoDup (map fst
               (fold_left (fun rule_counts issue =>
                  dict_set (rule issue)
                    (dict_get_default (rule issue) 0 rule_counts + 1) rule_counts)
                  issues d))).
  { induction issues as [|x l IH]; intros d Hd; simpl; [exact Hd|].
    apply IH. now apply dict_set_NoDup. }
  apply H. constructor.
Qed.

(** C10: for every list of findings, the report of [generate_report]
    satisfies [total_issues = errors + warnings + info], and the values of
    its [rule_counts] mapping (whose keys are pairwise distinct) sum to
    [total_issues]. *)
Theorem generate_report_counts (issues : list LintIssue) (path : string) :
  let r := generate_report issues path in
  total_issues r = errors r + warnings r + info r
  /\ sum_counts (rule_counts r) = total_issues r
  /\ NoDup (map fst (rule_counts r)).
Proof.
  simpl. split; [|split].
  - apply count_severity_total.
  - unfold count_rules. now rewrite sum_counts_fold.
  - apply count_rules_NoDup.
Qed.

(* ================================================================== *)
(** ** Which checks skip fenced code (C2) *)
(* ================================================================== *)






(* ================================================================== *)
(** ** The forbidden-phrase and contraction scenario (C3) *)
(* ================================================================== *)

(** C3, as stated, fails: linting the scenario line yields no finding
    whose suggestion is the bare text [Note:]; the forbidden-phrase check
    always prefixes a non-empty replacement with [Replace with: ]. *)
Lemma please_note_suggestion_is_prefixed :
  exists issues,
    lint_lines [scenario_line] = Some issues
    /\ ~ (exists x, In x issues /\ suggestion x = "Note:").
Proof.
  eexists. split; [vm_compute; reflexivity|].
  intros [x [Hin Hs]]. cbn [In] in Hin.
  destruct Hin as [<-|[<-|[<-|[]]]]; discriminate Hs.
Qed.

Lemma scenario_forbidden_phrases (i : nat) :
  forbidden_phrases_line i scenario_line
  = [ add_issue i 0 WARNING "ms-forbidden-phrase" "Avoid 'please note'"
        scenario_line "Replace with: Note:";
      add_issue i 27 WARNING "ms-forbidden-phrase" "Avoid 'utilize'"
        scenario_line "Replace with: use" ].
Proof. vm_compute. reflexivity. Qed.

Lemma scenario_contractions (i : nat) :
  contractions_line i scenario_line
  = [ add_issue i 21 WARNING "ms-contraction"
        "Avoid contractions in technical documentation: 'can't'"
        scenario_line "Use: cannot" ].
Proof. vm_compute. reflexivity. Qed.

Lemma in_sorted_all_issues (lines : list string) (x : LintIssue) :
  In x (all_issues lines) -> In x (sort_issues (all_issues lines)).
Proof. apply Permutation_in, sort_issues_perm. Qed.

(** C3, amended: for any input whose line
    [Please note that you can't utilize this feature.] lies outside any
    code fence, linting yields at least three findings on that line: a
    forbidden-phrase finding for [please note] with suggestion
    [Replace with: Note:], a contraction finding for [can't] with
    suggestion [Use: cannot], and a forbidden-phrase finding for [utilize]
    with suggestion [Replace with: use]. *)
Theorem please_note_scenario (lines : list string) (i : nat) :
  nth_error lines i = Some scenario_line ->
  is_in_code_block lines i = Some false ->
  exists issues,
    lint_lines lines = Some issues
    /\ In (add_issue (S i) 0 WARNING "ms-forbidden-phrase" "Avoid 'please note'"
             scenario_line "Replace with: Note:") issues
    /\ In (add_issue (S i) 21 WARNING "ms-contraction"
             "Avoid contractions in technical documentation: 'can't'"
             scenario_line "Use: cannot") issues
    /\ In (add_issue (S i) 27 WARNING "ms-forbidden-phrase" "Avoid 'utilize'"
             scenario_line "Replace with: use") issues.
Proof.
  intros Hline Hcode.
  assert (Hfree : in_code_at lines i = false).
  { pose proof (nth_error_lt _ _ _ Hline) as Hlt.
    rewrite is_in_code_block_in_range in Hcode by lia. congruence. }
  rewrite lint_lines_pure. eexists. split; [reflexivity|].
  repeat split; apply in_sorted_all_issues; unfold all_issues.
  - apply in_or_app. left. apply in_guarded_lines.
    exists i, scenario_line. repeat split; auto.
    rewrite scenario_forbidden_phrases. left. reflexivity.
  - apply in_or_app. right. apply in_or_app. left. apply in_guarded_lines.
    exists i, scenario_line. repeat split; auto.
    rewrite scenario_contractions. left. reflexivity.
  - apply in_or_app. left. apply in_guarded_lines.
    exists i, scenario_line. repeat split; auto.
    rewrite scenario_forbidden_phrases. right. left. reflexivity.
Qed.

Lemma please_note_scenario_witness :
  nth_error ["# Notes"; scenario_line] 1 = Some scenario_line
  /\ is_in_code_block ["# Notes"; scenario_line] 1 = Some false
  /\ exists issues,
       lint_lines ["# Notes"; scenario_line] = Some issues
       /\ In (add_issue 2 0 WARNING "ms-forbidden-phrase" "Avoid 'please note'"
                scenario_line "Replace with: Note:") issues
       /\ In (add_issue 2 21 WARNING "ms-contraction"
                "Avoid contractions in technical documentation: 'can't'"
                scenario_line "Use: cannot") issues
       /\ In (add_issue 2 27 WARNING "ms-forbidden-phrase" "Avoid 'utilize'"
                scenario_line "Replace with: use") issues.
Proof.
  split; [reflexivity|]. split; [reflexivity|].
  apply (please_note_scenario ["# Notes"; scenario_line] 1); reflexivity.
Defined.

(* ================================================================== *)
(** ** The run: reports and exit status (C4, C5) *)
(* ================================================================== *)

Lemma lint_file_issues_of (fs : filesystem) (path : string) :
  lint_file fs path = Some (issues_of fs path).
Proof.
  unfold lint_file, issues_of.
  destruct (read_text fs path); [apply lint_lines_pure | reflexivity].
Qed.

Lemma process_file_step (fs : filesystem) (args : Args) (st : RunState)
    (f : string) :
  process_file fs args st f =
  Some (mkRun (all_results st ++ [report_of fs args f])
          (if summary args then run_total_issues st
           else run_total_issues st + length (retained fs args f))
          (if summary args then exit_code st
           else if has_error (retained fs args f) then 1 else exit_code st)).
Proof.
  unfold process_file. rewrite lint_file_issues_of. cbn [bind].
  fold (retained fs args f). fold (report_of fs args f).
  destruct (summary args); cbn [negb]; [reflexivity|].
  unfold has_error. destruct (retained fs args f); reflexivity.
Qed.

Lemma process_files_steps (fs : filesystem) (args : Args) (fl : list string) :
  forall st,
    process_files fs args st fl =
    Some (mkRun (all_results st ++ map (report_of fs args) fl)
            (if summary args then run_total_issues st
             else run_total_issues st
                  + list_sum (map (fun f => length (retained fs args f)) fl))
            (if summary args then exit_code st
             else if existsb (fun f => has_error (retained fs args f)) fl
                  then 1 else exit_code st)).
Proof.
  induction fl as [|f fl IH]; intros [res tot code]; cbn [process_files].
  - cbn. rewrite app_nil_r, Nat.add_0_r.
    now destruct (summary args).
  - rewrite process_file_step. cbn [bind]. rewrite IH.
    cbn [all_results run_total_issues exit_code map existsb list_sum].
    rewrite <- app_assoc. cbn [app].
    destruct (summary args); [reflexivity|].
    f_equal. f_equal; [simpl; lia|].
    destruct (has_error (retained fs args f)); cbn [orb]; [|reflexivity].
    now destruct (existsb _ fl).
Qed.

Lemma process_path_steps (fs : filesystem) (args : Args) (st : RunState)
    (path : string) :
  process_path fs args st path = process_files fs args st (md_files_of fs path).
Proof.
  unfold process_path, md_files_of. now destruct (kind_of fs path).
Qed.

Lemma process_paths_steps (fs : filesystem) (args : Args) (paths : list string) :
  forall st,
    process_paths fs args st paths =
    process_files fs args st (flat_map (md_files_of fs) paths).
Proof.
  induction paths as [|p ps IH]; intro st; cbn [process_paths flat_map].
  - reflexivity.
  - rewrite process_path_steps.
    rewrite (process_files_steps fs args (md_files_of fs p ++ _)).
    rewrite (process_files_steps fs args (md_files_of fs p)). cbn [bind].
    rewrite IH, process_files_steps.
    cbn [all_results run_total_issues exit_code].
    rewrite map_app, existsb_app, map_app, list_sum_app, <- app_assoc.
    destruct (summary args); [reflexivity|].
    f_equal. f_equal; [lia|].
    destruct (existsb _ (md_files_of fs p)); cbn [orb];
      now destruct (existsb _ (flat_map _ ps)).
Qed.

(** What [main] reaches: one report per linted file, in order, and the
    exit code set only by the branch that prints the findings. *)
Lemma main_steps (fs : filesystem) (args : Args) :
  let linted := flat_map (md_files_of fs) (files args) in
  main fs args =
  Some (mkRun (map (report_of fs args) linted)
          (if summary args then 0
           else list_sum (map (fun f => length (retained fs args f)) linted))
          (if summary args then 0
           else if existsb (fun f => has_error (retained fs args f)) linted
                then 1 else 0)).
Proof.
  unfold main. rewrite process_paths_steps, process_files_steps. reflexivity.
Qed.

Lemma has_error_counts (issues : list LintIssue) :
  has_error issues = true <-> 0 < count_severity ERROR issues.
Proof.
  unfold has_error, count_severity.
  induction issues as [|x l IH]; simpl; [split; [discriminate | lia]|].
  destruct (Severity_eqb (severity x) ERROR); simpl; [split; [lia | reflexivity]|].
  exact IH.
Qed.

(** When the findings are printed (no [--summary]), the exit code is 1
    exactly when some linted file retains a finding of Error severity, and
    0 otherwise. *)
Lemma exit_code_without_summary (fs : filesystem) (args : Args) :
  summary args = false ->
  exists st,
    main fs args = Some st
    /\ (exit_code st = 1 <->
        exists f, In f (flat_map (md_files_of fs) (files args))
                  /\ has_error (retained fs args f) = true)
    /\ (exit_code st = 0 \/ exit_code st = 1).
Proof.
  intro Hsum. eexists. split; [apply main_steps|].
  cbn [exit_code]. rewrite Hsum.
  destruct (existsb _ _) eqn:E.
  - split; [|now right]. split; [intros _ | reflexivity].
    now apply existsb_exists in E.
  - split; [|now left]. split; [discriminate|].
    intro H. apply existsb_exists in H. congruence.
Qed.

(** C4: the failing input.  A file that holds an image without alt text is
    linted under [--summary]: the retained findings contain one of Error
    severity (the report counts it), and the exit code [main] passes to
    [sys.exit] is nevertheless 0, because the assignment of the exit code
    sits in the branch that is skipped under [--summary]; the running total
    of issues, updated in the same branch, stays 0 although the report
    counts one issue. *)
Theorem summary_run_exits_zero_despite_error :
  let fs := single_file_fs "doc.md" "![](photo.png)" in
  let args := mkArgs ["doc.md"] INFO true in
  exists st r,
    main fs args = Some st
    /\ all_results st = [r]
    /\ errors r = 1 /\ total_issues r = 1
    /\ has_error (retained fs args "doc.md") = true
    /\ run_total_issues st = 0
    /\ exit_code st = 0.
Proof.
  eexists. eexists. split; [vm_compute; reflexivity|].
  repeat split.
Qed.





(* ================================================================== *)
(** ** First occurrence or every occurrence (C9) *)
(* ================================================================== *)

(** *** Substring search *)

Lemma drop_zero (s : string) : drop 0 s = s.
Proof. now destruct s. Qed.

Lemma find_first_occurrence (needle : string) :
  forall hay c, find needle hay = Some c -> first_occurrence needle hay c.
Proof.
  induction hay as [|a hay IH]; intros c H; cbn [find] in H.
  - destruct (String.prefix needle EmptyString) eqn:E; [|discriminate].
    injection H as <-. split; [split; [simpl; lia | exact E]|]. intros c' Hc'. lia.
  - destruct (String.prefix needle (String a hay)) eqn:E.
    + injection H as <-. split; [split; [simpl; lia | exact E]|].
      intros c' Hc'. lia.
    + destruct (find needle hay) as [c0|] eqn:F; [|discriminate].
      injection H as <-. destruct (IH c0 eq_refl) as [[Hle Hp] Hmin].
      split; [split; [simpl; lia | exact Hp]|].
      intros [|c'] Hc' [Hle' Hp'].
      * cbn [drop] in Hp'. congruence.
      * apply (Hmin c'); [lia|]. split; [simpl in Hle'; lia | exact Hp'].
Qed.

Lemma find_no_occurrence (needle : string) :
  forall hay, find needle hay = None -> forall c, ~ occurs_at needle hay c.
Proof.
  induction hay as [|a hay IH]; intros H c [Hle Hp]; cbn [find] in H.
  - destruct (String.prefix needle EmptyString) eqn:E; [discriminate|].
    simpl in Hle. assert (c = 0) by lia. subst. cbn [drop] in Hp. congruence.
  - destruct (String.prefix needle (String a hay)) eqn:E; [discriminate|].
    destruct (find needle hay) eqn:F; [discriminate|].
    destruct c as [|c]; [cbn [drop] in Hp; congruence|].
    apply (IH eq_refl c). split; [simpl in Hle; lia | exact Hp].
Qed.

(** *** Characters: case folding keeps word characters *)

Lemma isword_lower_char (x : ascii) : isword (lower_char x) = isword x.
Proof. destruct x as [[] [] [] [] [] [] [] []]; reflexivity. Qed.

Lemma isword_same_fold (x a : ascii) :
  Ascii.eqb (lower_char x) (lower_char a) = true -> isword x = isword a.
Proof.
  intro H. apply Ascii.eqb_eq in H.
  rewrite <- (isword_lower_char x), <- (isword_lower_char a). now rewrite H.
Qed.

(** *** [drop], [take] and lengths *)

Lemma length_drop (n : nat) : forall s, String.length (drop n s) = String.length s - n.
Proof.
  induction n as [|n IH]; intros [|a s]; simpl; auto. 
Qed.

Lemma length_take (n : nat) :
  forall s, String.length (take n s) = Nat.min n (String.length s).
Proof.
  induction n as [|n IH]; intros [|a s]; simpl; auto.
Qed.

Lemma drop_drop (n : nat) : forall m s, drop m (drop n s) = drop (n + m) s.
Proof.
  induction n as [|n IH]; intros m s; simpl.
  - reflexivity.
  - destruct s as [|a s]; simpl; [now destruct m | apply IH].
Qed.

Lemma drop_step (p : nat) :
  forall s x rs, drop p s = String x rs ->
    drop (S p) s = rs /\ String.get p s = Some x /\ p < String.length s.
Proof.
  induction p as [|p IH]; intros [|a s] x rs H; simpl in *; try discriminate.
  - injection H as -> ->. repeat split. lia.
  - destruct (IH s x rs H) as (H1 & H2 & H3). repeat split; auto. lia.
Qed.

Lemma drop_end (p : nat) :
  forall s, drop p s = EmptyString -> String.get p s = None /\ String.length s <= p.
Proof.
  induction p as [|p IH]; intros [|a s] H; simpl in *; try discriminate;
    try (split; [reflexivity | lia]).
  destruct (IH s H). split; [assumption | lia].
Qed.

(** *** Prefixes up to letter case *)

Lemma prefix_nocase_length (u : string) :
  forall v, prefix_nocase u v = true -> String.length u <= String.length v.
Proof.
  induction u as [|a u IH]; intros [|b v] H; simpl in *; try lia; try discriminate.
  apply andb_true_iff in H. destruct H as [_ H]. apply IH in H. lia.
Qed.

Lemma prefix_nocase_drop (d : nat) :
  forall u v, prefix_nocase u v = true -> prefix_nocase (drop d u) (drop d v) = true.
Proof.
  induction d as [|d IH]; intros u v H; simpl.
  - exact H.
  - destruct u as [|a u]; [reflexivity|].
    destruct v as [|b v]; [discriminate|].
    simpl in H. apply andb_true_iff in H. destruct H as [_ H]. now apply IH.
Qed.

Lemma prefix_nocase_take (n : nat) :
  forall u v, prefix_nocase u v = true -> prefix_nocase (take n u) v = true.
Proof.
  induction n as [|n IH]; intros [|a u] [|b v] H; simpl in *; auto.
  apply andb_true_iff in H. destruct H as [H1 H2].
  rewrite H1. simpl. now apply IH.
Qed.

(** Two prefixes of the same text: the shorter is a prefix of the longer. *)
Lemma prefix_nocase_common (u : string) :
  forall v w,
    prefix_nocase u w = true -> prefix_nocase v w = true ->
    String.length u <= String.length v ->
    prefix_nocase u v = true.
Proof.
  induction u as [|a u IH]; intros [|b v] [|x w] Hu Hv Hlen; simpl in *;
    try reflexivity; try discriminate; try lia.
  apply andb_true_iff in Hu, Hv. destruct Hu as [Hu1 Hu2], Hv as [Hv1 Hv2].
  apply Ascii.eqb_eq in Hu1, Hv1.
  apply andb_true_iff. split.
  - apply Ascii.eqb_eq. congruence.
  - apply (IH v w); auto. lia.
Qed.

(** *** Cursors *)

Lemma cursor_eta (c : cursor) : mkCursor (pos c) (prev c) (rest c) = c.
Proof. now destruct c. Qed.

Lemma advance_at_end (n : nat) (c : cursor) :
  rest c = EmptyString -> advance n c = c.
Proof. intro H. destruct n; simpl; [reflexivity | now rewrite H]. Qed.

Lemma rest_advance (n : nat) : forall c, rest (advance n c) = drop n (rest c).
Proof.
  induction n as [|n IH]; intro c; simpl; [reflexivity|].
  destruct (rest c) as [|x rs] eqn:E; [exact E|]. now rewrite IH.
Qed.

Lemma pos_advance (n : nat) :
  forall c, n <= String.length (rest c) -> pos (advance n c) = pos c + n.
Proof.
  induction n as [|n IH]; intros c H; simpl; [lia|].
  destruct (rest c) as [|x rs] eqn:E; simpl in H; [lia|].
  rewrite IH; simpl; lia.
Qed.

Lemma advance_add (n : nat) :
  forall m c, advance (n + m) c = advance m (advance n c).
Proof.
  induction n as [|n IH]; intros m c; simpl; [reflexivity|].
  destruct (rest c) as [|x rs] eqn:E; [|apply IH].
  symmetry. now apply advance_at_end.
Qed.

Lemma lit_match_length (ic : bool) (t : string) :
  forall rs, lit_match ic t rs = true -> String.length t <= String.length rs.
Proof.
  induction t as [|a t IH]; intros [|x rs] H; simpl in *; try lia; try discriminate.
  apply andb_true_iff in H. destruct H as [_ H]. apply IH in H. lia.
Qed.

(** *** Positions of a line and cursors *)

Lemma get_drop (p : nat) (s : string) :
  String.get p s = match drop p s with String x _ => Some x | EmptyString => None end.
Proof.
  destruct (drop p s) as [|x rs] eqn:E.
  - now apply drop_end in E.
  - now apply drop_step in E.
Qed.

Lemma at_boundary_cursor_at (s : string) (p : nat) :
  at_boundary (cursor_at s p) = boundary_at s p.
Proof.
  unfold at_boundary, boundary_at, word_before, word_after, cursor_at, word_at.
  cbn [prev rest]. rewrite (get_drop p s).
  destruct p as [|p]; [|destruct (String.get p s)]; destruct (drop _ s); reflexivity.
Qed.

Lemma advance_cursor_at (s : string) (n : nat) :
  forall p, p + n <= String.length s ->
    advance n (cursor_at s p) = cursor_at s (p + n).
Proof.
  induction n as [|n IH]; intros p H; simpl.
  - now rewrite Nat.add_0_r.
  - destruct (drop p s) as [|x rs] eqn:E.
    + apply drop_end in E. lia.
    + apply drop_step in E. destruct E as (E1 & E2 & _).
      replace (p + S n) with (S p + n) by lia. rewrite <- IH by lia.
      unfold cursor_at. now rewrite E1, E2.
Qed.

Lemma cursors_positions (s : string) :
  forall rs p pv,
    mkCursor p pv rs = cursor_at s p ->
    cursors p pv rs = map (cursor_at s) (seq p (S (String.length rs))).
Proof.
  induction rs as [|x rs IH]; intros p pv H; simpl.
  - now rewrite H.
  - rewrite H. f_equal. apply IH.
    unfold cursor_at in H. injection H as Hpv Hrs.
    symmetry in Hrs. apply drop_step in Hrs. destruct Hrs as (E1 & E2 & _).
    unfold cursor_at. now rewrite E1, E2.
Qed.

Lemma cursors_of_line (s : string) :
  cursors 0 None s = map (cursor_at s) (seq 0 (S (String.length s))).
Proof. now apply cursors_positions. Qed.

(** At a cursor of the line, matching a term as a whole word is the
    position-based notion. *)
Lemma whole_word_at_cursor (t line : string) (p : nat) :
  p <= String.length line ->
  at_boundary (cursor_at line p) && ends_word (cursor_at line p) t
  = whole_word_at t line p.
Proof.
  intro Hp. unfold ends_word, whole_word_at.
  rewrite at_boundary_cursor_at, lit_match_nocase. cbn [rest cursor_at].
  destruct (prefix_nocase t (drop p line)) eqn:E.
  - apply prefix_nocase_length in E. rewrite length_drop in E.
    fold (cursor_at line p).
    rewrite advance_cursor_at by lia. rewrite at_boundary_cursor_at.
    now rewrite andb_assoc.
  - simpl. now rewrite andb_false_r.
Qed.

(** *** Boundaries inside a matched literal *)

Lemma inner_boundary (j : nat) :
  forall u c,
    lit_match true u (rest c) = true ->
    S j < String.length u ->
    at_boundary (advance (S j) c) = boundary_at u (S j).
Proof.
  induction j as [|j IH]; intros u c Hm Hj.
  - destruct u as [|a [|b u]]; simpl in Hj; try lia.
    destruct c as [p pv [|x [|y rs]]]; simpl in Hm; try discriminate;
      try (rewrite andb_false_r in Hm; discriminate).
    apply andb_true_iff in Hm. destruct Hm as [Hx Hm].
    apply andb_true_iff in Hm. destruct Hm as [Hy _].
    unfold char_eq in Hx, Hy.
    apply isword_same_fold in Hx, Hy.
    unfold at_boundary, boundary_at, word_before, word_after, word_at. simpl.
    now rewrite Hx, Hy.
  - destruct u as [|a u]; simpl in Hj; [lia|].
    destruct c as [p pv [|x rs]]; simpl in Hm; [discriminate|].
    apply andb_true_iff in Hm. destruct Hm as [_ Hm].
    change (advance (S (S j)) (mkCursor p pv (String x rs)))
      with (advance (S j) (mkCursor (S p) (Some x) rs)).
    rewrite (IH u) by (simpl; auto; lia).
    reflexivity.
Qed.

(** *** [finditer] when matches cannot overlap *)

Section Scan.
Variables (ic : bool) (r : regex).

Hypothesis no_overlap :
  forall c m d,
    match_at ic r c = Some m ->
    0 < d -> d < m_end m - pos c ->
    match_at ic r (advance d c) = None.

Lemma finditer_from_all :
  forall rs skip p pv,
    (forall d, d < skip -> match_at ic r (advance d (mkCursor p pv rs)) = None) ->
    finditer_from ic r skip p pv rs = flat_map (found_at ic r) (cursors p pv rs).
Proof.
  induction rs as [|x rs IH]; intros skip p pv Hskip.
  - destruct skip as [|k]; cbn [finditer_from cursors flat_map]; unfold found_at.
    + destruct (match_at ic r _); reflexivity.
    + pose proof (Hskip 0 (Nat.lt_0_succ k)) as H0. cbn [advance] in H0.
      now rewrite H0.
  - destruct skip as [|k]; cbn [finditer_from cursors flat_map]; unfold found_at at 1.
    + destruct (match_at ic r (mkCursor p pv (String x rs))) as [m|] eqn:E.
      * cbn [app]. f_equal. apply IH. intros d Hd.
        apply (no_overlap _ _ (S d) E); [lia | cbn [pos]; lia].
      * apply IH. intros d Hd. lia.
    + pose proof (Hskip 0 (Nat.lt_0_succ k)) as H0. cbn [advance] in H0.
      rewrite H0. cbn [app].
      apply IH. intros d Hd. apply (Hskip (S d)). lia.
Qed.

Lemma finditer_all (line : string) :
  finditer ic r line = flat_map (found_at ic r) (map (cursor_at line) (seq 0 (S (String.length line)))).
Proof.
  unfold finditer. rewrite finditer_from_all by (intros d Hd; lia).
  now rewrite cursors_of_line.
Qed.

End Scan.

(** *** What the word-bounded patterns match at a cursor *)

Lemma pick_first {A : Type} (c : cursor) (F : string -> A) (ts : list string) :
  fold_right (fun t acc =>
    match (if lit_match true t (rest c)
           then (if at_boundary (advance (String.length t) c)
                 then Some (F t) else None)
           else None) with
    | Some x => Some x
    | None => acc
    end) None ts
  = option_map F (List.find (ends_word c) ts).
Proof.
  induction ts as [|t ts IH]; simpl; [reflexivity|].
  unfold ends_word at 1.
  destruct (lit_match true t (rest c)); [|exact IH].
  cbn [andb]. destruct (at_boundary (advance _ c)); [reflexivity | exact IH].
Qed.

Lemma run_alt_lits {R : Type} (ic : bool) (c : cursor) (g : captures)
    (k : cursor -> captures -> option R) (t : string) (ts : list string) :
  run R ic (alt_of (map Lit (t :: ts))) c g k
  = fold_right (fun t acc =>
      match (if lit_match ic t (rest c)
             then k (advance (String.length t) c) g else None) with
      | Some x => Some x
      | None => acc
      end) None (t :: ts).
Proof.
  revert t. induction ts as [|t2 ts IH]; intro t.
  - cbn [map alt_of run fold_right]. rewrite lit_spec, cursor_eta.
    destruct (lit_match ic t (rest c)); [|reflexivity].
    now destruct (k _ g).
  - change (alt_of (map Lit (t :: t2 :: ts)))
      with (Alt (Lit t) (alt_of (map Lit (t2 :: ts)))).
    cbn [run]. rewrite IH, lit_spec, cursor_eta. reflexivity.
Qed.

Lemma match_at_word_bounded (t : string) (c : cursor) :
  match_at true (word_bounded t) c
  = option_map (fun t' =>
      mkMatch (pos c) (pos (advance (String.length t') c)) []) (wpick [t] c).
Proof.
  unfold match_at, word_bounded, wpick, ends_word. cbn [seq_of run List.find].
  destruct (at_boundary c); [|reflexivity].
  rewrite lit_spec, cursor_eta.
  destruct (lit_match true t (rest c)); [|reflexivity].
  cbn [andb]. now destruct (at_boundary (advance _ c)).
Qed.

Lemma match_at_contraction (c : cursor) :
  match_at true contraction_pattern c
  = option_map (fun t =>
      mkMatch (pos c) (pos (advance (String.length t) c))
        [(1, (pos c, pos (advance (String.length t) c)))]) (wpick contractions c).
Proof.
  unfold match_at, contraction_pattern, wpick. cbn [seq_of run].
  destruct (at_boundary c); [|reflexivity].
  unfold contractions at 1. rewrite run_alt_lits.
  fold contractions. cbn [run pos].
  apply (pick_first c).
Qed.

(** *** Overlapping whole-word occurrences *)

Lemma conflict_sound (t1 t2 : string) (d : nat) (c : cursor) :
  0 < String.length t2 ->
  d < String.length t1 ->
  ends_word c t1 = true ->
  at_boundary (advance d c) = true ->
  ends_word (advance d c) t2 = true ->
  conflict t1 t2 d = true.
Proof.
  intros Hne Hd H1 Hb H2. unfold ends_word in H1, H2.
  apply andb_true_iff in H1, H2.
  destruct H1 as [H1 H1b], H2 as [H2 H2b].
  rewrite <- advance_add in H2b.
  unfold conflict. repeat (apply andb_true_iff; split).
  - destruct d as [|d]; [reflexivity|].
    rewrite <- (inner_boundary d t1 c H1 Hd). now rewrite Hb.
  - destruct (Nat.ltb_spec (d + String.length t2) (String.length t1)) as [Hlt|Hge];
      [|reflexivity].
    destruct (d + String.length t2) as [|j] eqn:E; [lia|].
    now rewrite <- (inner_boundary j t1 c H1 Hlt).
  - destruct (Nat.ltb_spec (String.length t1) (d + String.length t2)) as [Hlt|Hge];
      [|reflexivity].
    destruct (String.length t1 - d) as [|j] eqn:E; [lia|].
    rewrite <- (inner_boundary j t2 (advance d c) H2) by lia.
    rewrite <- advance_add. now replace (d + S j) with (String.length t1) by lia.
  - rewrite rest_advance, lit_match_nocase in H2. rewrite lit_match_nocase in H1.
    apply (prefix_nocase_common _ _ (drop d (rest c))).
    + now apply prefix_nocase_take.
    + now apply prefix_nocase_drop.
    + rewrite length_take, length_drop. lia.
Qed.

Lemma wpick_some (ts : list string) (c : cursor) (t : string) :
  wpick ts c = Some t ->
  at_boundary c = true /\ In t ts /\ ends_word c t = true.
Proof.
  unfold wpick. destruct (at_boundary c); [|discriminate].
  intro H. apply find_some in H. tauto.
Qed.

Section WholeWords.
Variable ts : list string.
Hypothesis Hnc : no_conflict ts = true.

Lemma no_conflict_nonempty (t : string) : In t ts -> 0 < String.length t.
Proof.
  intro Hin. unfold no_conflict in Hnc.
  rewrite forallb_forall in Hnc. specialize (Hnc t Hin).
  apply andb_true_iff in Hnc. destruct Hnc as [Hne _].
  destruct t; [discriminate | simpl; lia].
Qed.

Lemma no_conflict_between (t1 t2 : string) (d : nat) :
  In t1 ts -> In t2 ts -> d < String.length t1 ->
  d <> 0 \/ t1 <> t2 ->
  conflict t1 t2 d = false.
Proof.
  intros H1 H2 Hd Hdiff. unfold no_conflict in Hnc.
  rewrite forallb_forall in Hnc. specialize (Hnc t1 H1).
  apply andb_true_iff in Hnc. destruct Hnc as [_ Hall].
  rewrite forallb_forall in Hall. specialize (Hall t2 H2).
  rewrite forallb_forall in Hall.
  assert (Hin : In d (seq 0 (String.length t1))) by (apply in_seq; lia).
  specialize (Hall d Hin).
  apply orb_true_iff in Hall. destruct Hall as [Hsame | Hno].
  - apply andb_true_iff in Hsame. destruct Hsame as [Hd0 Heq].
    apply Nat.eqb_eq in Hd0. apply String.eqb_eq in Heq. tauto.
  - now apply negb_true_iff in Hno.
Qed.

(** At most one term of [ts] occurs as a whole word at a cursor. *)
Lemma wpick_whole_word (c : cursor) (t : string) :
  In t ts -> at_boundary c = true -> ends_word c t = true -> wpick ts c = Some t.
Proof.
  intros Hin Hb He. unfold wpick. rewrite Hb.
  destruct (List.find (ends_word c) ts) as [t'|] eqn:F.
  - apply find_some in F. destruct F as [Hin' He'].
    destruct (String.eqb_spec t' t) as [->|Hne]; [reflexivity|].
    pose proof (no_conflict_nonempty t' Hin') as Hlen.
    pose proof (no_conflict_between t' t 0 Hin' Hin Hlen (or_intror Hne)) as Hno.
    rewrite (conflict_sound t' t 0 c) in Hno; auto.
    + discriminate.
    + now apply no_conflict_nonempty.
  - apply (find_none _ _ F) in Hin. congruence.
Qed.

Variable r : regex.
Variable mk : cursor -> string -> rmatch.
Hypothesis Hmatch : forall c, match_at true r c = option_map (mk c) (wpick ts c).
Hypothesis Hstart : forall c t, m_start (mk c t) = pos c.
Hypothesis Hend : forall c t, m_end (mk c t) = pos (advance (String.length t) c).

Lemma whole_words_do_not_overlap (c : cursor) (m : rmatch) (d : nat) :
  match_at true r c = Some m ->
  0 < d -> d < m_end m - pos c ->
  match_at true r (advance d c) = None.
Proof.
  intros Hm Hd0 Hd. rewrite Hmatch in Hm |- *.
  destruct (wpick ts c) as [t1|] eqn:P1; [|discriminate].
  injection Hm as <-. rewrite Hend in Hd.
  apply wpick_some in P1. destruct P1 as (Hb1 & Hin1 & He1).
  assert (Hlen : String.length t1 <= String.length (rest c)).
  { unfold ends_word in He1. apply andb_true_iff in He1.
    now apply (lit_match_length true). }
  rewrite pos_advance in Hd by exact Hlen.
  destruct (wpick ts (advance d c)) as [t2|] eqn:P2; [|reflexivity].
  apply wpick_some in P2. destruct P2 as (Hb2 & Hin2 & He2).
  assert (Hc : conflict t1 t2 d = true).
  { apply (conflict_sound t1 t2 d c); auto.
    - now apply no_conflict_nonempty.
    - lia. }
  assert (Hno : conflict t1 t2 d = false)
    by (apply no_conflict_between; auto; lia).
  congruence.
Qed.

Variable line : string.
Variable chosen : string -> rmatch -> bool.
Hypothesis Hchosen :
  forall p t t',
    p <= String.length line -> In t ts ->
    wpick ts (cursor_at line p) = Some t' ->
    chosen t (mk (cursor_at line p) t') = String.eqb t' t.

Lemma chosen_at_positions (t : string) (ps : list nat) :
  In t ts ->
  (forall p, In p ps -> p <= String.length line) ->
  map m_start
    (filter (chosen t) (flat_map (found_at true r) (map (cursor_at line) ps)))
  = filter (whole_word_at t line) ps.
Proof.
  intros Hin. induction ps as [|p ps IH]; intro Hps; [reflexivity|].
  cbn [map flat_map filter]. rewrite filter_app, map_app.
  rewrite IH by (intros q Hq; apply Hps; now right).
  assert (Hp : p <= String.length line) by (apply Hps; now left).
  unfold found_at at 1. rewrite Hmatch.
  rewrite <- (whole_word_at_cursor t line p Hp).
  destruct (wpick ts (cursor_at line p)) as [t'|] eqn:P; cbn [option_map filter].
  - rewrite (Hchosen p t t' Hp Hin P).
    pose proof (wpick_some _ _ _ P) as (Hb & Hin' & He).
    destruct (String.eqb_spec t' t) as [->|Hne].
    + rewrite Hb, He. cbn [andb map app]. now rewrite Hstart.
    + rewrite Hb. cbn [andb map app].
      destruct (ends_word (cursor_at line p) t) eqn:E; [|reflexivity].
      rewrite (wpick_whole_word _ _ Hin Hb E) in P. congruence.
  - cbn [map app].
    destruct (at_boundary (cursor_at line p)) eqn:Hb; [|reflexivity].
    destruct (ends_word (cursor_at line p) t) eqn:E; [|reflexivity].
    rewrite (wpick_whole_word _ _ Hin Hb E) in P. discriminate.
Qed.

(** Every whole-word occurrence of a term is matched, and nothing else. *)
Lemma finditer_whole_words (t : string) :
  In t ts ->
  map m_start (filter (chosen t) (finditer true r line))
  = whole_word_occurrences t line.
Proof.
  intro Hin. rewrite (finditer_all true r whole_words_do_not_overlap).
  apply chosen_at_positions; [exact Hin|].
  intros p Hp. apply in_seq in Hp. lia.
Qed.

End WholeWords.

Lemma distinct_NoDup (l : list string) : distinct l = true -> NoDup l.
Proof.
  induction l as [|x l IH]; intro H; [constructor|].
  simpl in H. apply andb_true_iff in H. destruct H as [Hx Hl].
  constructor; [|now apply IH].
  intro Hin. apply negb_true_iff in Hx.
  assert (mem x l = true); [|congruence].
  unfold mem. apply existsb_exists. exists x. split; [exact Hin | apply String.eqb_refl].
Qed.

(** *** The findings of one line in the output of a check *)

Lemma filter_keep_all {A : Type} (p : A -> bool) (l : list A) :
  (forall x, In x l -> p x = true) -> filter p l = l.
Proof.
  induction l as [|a l IH]; intro H; simpl; [reflexivity|].
  rewrite (H a (or_introl eq_refl)). f_equal. apply IH. intros x Hx. apply H. now right.
Qed.

Lemma filter_keep_none {A : Type} (p : A -> bool) (l : list A) :
  (forall x, In x l -> p x = false) -> filter p l = [].
Proof.
  induction l as [|a l IH]; intro H; simpl; [reflexivity|].
  rewrite (H a (or_introl eq_refl)). apply IH. intros x Hx. apply H. now right.
Qed.

Lemma on_line_enumerated (g : nat * string -> list LintIssue) (k : nat) :
  (forall j l x, In x (g (j, l)) -> line_number x = Z.of_nat j) ->
  forall ls start,
    on_line k (flat_map g (combine (seq start (length ls)) ls))
    = match nth_error ls (k - start) with
      | Some l => if Nat.leb start k then g (k, l) else []
      | None => []
      end.
Proof.
  intros Hown. unfold on_line.
  induction ls as [|a ls IH]; intro start; cbn [length seq combine flat_map].
  - now destruct (k - start).
  - rewrite filter_app, IH.
    destruct (Nat.compare_spec k start) as [->|Hlt|Hgt].
    + rewrite Nat.sub_diag. cbn [nth_error]. rewrite Nat.leb_refl.
      replace (start - S start) with 0 by lia.
      replace (Nat.leb (S start) start) with false
        by (symmetry; apply Nat.leb_gt; lia).
      rewrite filter_keep_all.
      * destruct ls; now rewrite app_nil_r.
      * intros x Hx. apply Hown in Hx. now apply Z.eqb_eq.
    + replace (k - start) with 0 by lia. replace (k - S start) with 0 by lia.
      cbn [nth_error].
      replace (Nat.leb start k) with false by (symmetry; apply Nat.leb_gt; lia).
      replace (Nat.leb (S start) k) with false by (symmetry; apply Nat.leb_gt; lia).
      rewrite filter_keep_none.
      * now destruct ls.
      * intros x Hx. apply Hown in Hx. apply Z.eqb_neq. lia.
    + replace (k - start) with (S (k - S start)) by lia. cbn [nth_error].
      replace (Nat.leb start k) with true by (symmetry; apply Nat.leb_le; lia).
      replace (Nat.leb (S start) k) with true by (symmetry; apply Nat.leb_le; lia).
      rewrite filter_keep_none; [reflexivity|].
      intros x Hx. apply Hown in Hx. apply Z.eqb_neq. lia.
Qed.

Lemma guarded_on_line (lines : list string)
    (body : nat -> string -> list LintIssue) (i : nat) (line : string) :
  own_line body ->
  nth_error lines i = Some line ->
  in_code_at lines i = false ->
  on_line (S i) (guarded_lines lines body) = body (S i) line.
Proof.
  intros Hown Hline Hfree. unfold guarded_lines, enumerate1.
  rewrite on_line_enumerated.
  - cbn [fst snd Nat.leb]. replace (S i - 1) with i by lia.
    now rewrite Hline, Hfree.
  - intros j l x Hx. cbn [fst snd] in Hx.
    destruct (in_code_at lines (j - 1)); [destruct Hx | now apply Hown in Hx].
Qed.

(** *** Case folding and concatenation *)

Lemma lower_append (a b : string) : lower (a ++ b) = (lower a ++ lower b)%string.
Proof. induction a as [|c a IH]; simpl; [reflexivity | now rewrite IH]. Qed.

Lemma lower_take_prefix (t : string) :
  forall s, prefix_nocase t s = true -> lower (take (String.length t) s) = lower t.
Proof.
  induction t as [|c t IH]; intros [|x s] H; simpl in *; try reflexivity; try discriminate.
  apply andb_true_iff in H. destruct H as [Hx Ht].
  apply Ascii.eqb_eq in Hx. now rewrite Hx, IH.
Qed.

Lemma append_cancel_l (a x y : string) : (a ++ x = a ++ y)%string -> x = y.
Proof. induction a as [|c a IH]; simpl; intro H; [exact H | injection H; auto]. Qed.

Lemma append_cancel_quote (x : string) :
  forall y, (x ++ "'" = y ++ "'")%string -> x = y.
Proof.
  induction x as [|c x IH]; intros [|d y] H; simpl in H.
  - reflexivity.
  - injection H as _ H. destruct y; discriminate.
  - injection H as _ H. destruct x; discriminate.
  - injection H as -> H. f_equal. now apply IH.
Qed.

Lemma quotes_contraction_issue (i : nat) (line t : string) (m : rmatch) :
  quotes_contraction t (contraction_issue i line m)
  = String.eqb (lower (group 1 line m)) (lower t).
Proof.
  unfold quotes_contraction, contraction_issue, add_issue. cbn [message].
  fold (contraction_message (group 1 line m)).
  unfold contraction_message, quoted. rewrite !lower_append.
  destruct (String.eqb_spec (lower (group 1 line m)) (lower t)) as [E|E].
  - rewrite E. apply String.eqb_refl.
  - apply String.eqb_neq. intro H. apply E.
    apply append_cancel_l in H. simpl in H. injection H as H.
    now apply append_cancel_quote in H.
Qed.

Lemma filter_map_swap {A B : Type} (p : B -> bool) (f : A -> B) (l : list A) :
  filter p (map f l) = map f (filter (fun a => p (f a)) l).
Proof.
  induction l as [|a l IH]; simpl; [reflexivity|].
  destruct (p (f a)); simpl; now rewrite IH.
Qed.

(** *** The word-bounded patterns report every whole-word occurrence *)

Lemma slice_from (p n : nat) (s : string) : slice p (p + n) s = take n (drop p s).
Proof. unfold slice. now replace (p + n - p) with n by lia. Qed.

Lemma word_bounded_occurrences (t line : string) :
  no_conflict [t] = true ->
  map m_start (finditer true (word_bounded t) line) = whole_word_occurrences t line.
Proof.
  intro Hnc.
  rewrite <- (finditer_whole_words [t] Hnc (word_bounded t)
                (fun c t' => mkMatch (pos c) (pos (advance (String.length t') c)) [])
                (match_at_word_bounded t) (fun _ _ => eq_refl) (fun _ _ => eq_refl)
                line (fun _ _ => true)).
  - now rewrite filter_keep_all.
  - intros p t0 t' _ Hin Hpick. apply wpick_some in Hpick.
    destruct Hpick as (_ & Hin' & _).
    destruct Hin as [<-|[]], Hin' as [<-|[]]. symmetry. apply String.eqb_refl.
  - now left.
Qed.

Lemma contraction_occurrences (t line : string) :
  In t contractions ->
  map m_start
    (filter (fun m => String.eqb (lower (group 1 line m)) t)
       (finditer true contraction_pattern line))
  = whole_word_occurrences t line.
Proof.
  intro Hin.
  apply (finditer_whole_words contractions eq_refl contraction_pattern
           (fun c t' => mkMatch (pos c) (pos (advance (String.length t') c))
              [(1, (pos c, pos (advance (String.length t') c)))])
           match_at_contraction (fun _ _ => eq_refl) (fun _ _ => eq_refl)
           line (fun t m => String.eqb (lower (group 1 line m)) t)); [|exact Hin].
  intros p t0 t' Hp Hin0 Hpick.
  apply wpick_some in Hpick. destruct Hpick as (_ & Hin' & He).
  unfold ends_word in He. apply andb_true_iff in He. destruct He as [Hm _].
  cbn [rest cursor_at] in Hm.
  unfold group. cbn [m_groups span_of Nat.eqb pos cursor_at].
  rewrite pos_advance by (now apply (lit_match_length true)).
  rewrite slice_from. unfold cursor_at at 1. cbn [pos].
  rewrite lit_match_nocase in Hm. rewrite (lower_take_prefix _ _ Hm).
  assert (Hlow : all_lowercase contractions = true) by reflexivity.
  unfold all_lowercase in Hlow. rewrite forallb_forall in Hlow.
  apply Hlow in Hin'. apply String.eqb_eq in Hin'. now rewrite Hin'.
Qed.

(** *** Per-trigger behaviour of the lexical checks *)

Lemma forbidden_phrase_reported (i : nat) (line phrase replacement : string) :
  reported_once_at_first phrase (lower line)
    (forbidden_phrase_issues i line (phrase, replacement)).
Proof.
  unfold reported_once_at_first, forbidden_phrase_issues.
  destruct (find phrase (lower line)) as [c|] eqn:F.
  - left. exists c. split; [now apply find_first_occurrence | reflexivity].
  - right. split; [now apply find_no_occurrence | reflexivity].
Qed.

Lemma latin_abbreviation_reported (i : nat) (line abbrev replacement : string) :
  reported_once_at_first abbrev (lower line)
    (latin_abbreviation_issues i line (abbrev, replacement)).
Proof.
  unfold reported_once_at_first, latin_abbreviation_issues.
  destruct (find abbrev (lower line)) as [c|] eqn:F.
  - left. exists c. split; [now apply find_first_occurrence | reflexivity].
  - right. split; [now apply find_no_occurrence | reflexivity].
Qed.

Lemma catalog_no_conflict (catalog : list (string * string)) (t v : string) :
  forallb (fun e => no_conflict [fst e]) catalog = true ->
  In (t, v) catalog -> no_conflict [t] = true.
Proof.
  intros H Hin. rewrite forallb_forall in H. exact (H (t, v) Hin).
Qed.

Lemma preferred_term_reported (i : nat) (line incorrect correct : string) :
  In (incorrect, correct) preferred_terms ->
  reported_at_each_occurrence incorrect line
    (preferred_term_issues i line (incorrect, correct)).
Proof.
  intro Hin. unfold reported_at_each_occurrence, preferred_term_issues.
  rewrite <- word_bounded_occurrences
    by (apply (catalog_no_conflict preferred_terms _ correct); [reflexivity | exact Hin]).
  now rewrite !map_map.
Qed.

Lemma inclusive_term_reported (i : nat) (line term alternative : string) :
  In (term, alternative) problematic_terms ->
  reported_at_each_occurrence term line
    (inclusive_term_issues i line (term, alternative)).
Proof.
  intro Hin. unfold reported_at_each_occurrence, inclusive_term_issues.
  rewrite <- word_bounded_occurrences
    by (apply (catalog_no_conflict problematic_terms _ alternative);
        [reflexivity | exact Hin]).
  now rewrite !map_map.
Qed.

Lemma contraction_reported (i : nat) (line t : string) :
  In t contractions ->
  reported_at_each_occurrence t line
    (filter (quotes_contraction t) (contractions_line i line)).
Proof.
  intro Hin. unfold reported_at_each_occurrence, contractions_line.
  rewrite filter_map_swap, <- (contraction_occurrences t line Hin), !map_map.
  assert (Hlow : lower t = t).
  { assert (H : all_lowercase contractions = true) by reflexivity.
    unfold all_lowercase in H. rewrite forallb_forall in H.
    now apply String.eqb_eq, H. }
  rewrite (filter_ext _ (fun m => String.eqb (lower (group 1 line m)) t)).
  - reflexivity.
  - intro m. now rewrite quotes_contraction_issue, Hlow.
Qed.

Lemma outside_code (lines : list string) (i : nat) (line : string) :
  nth_error lines i = Some line ->
  is_in_code_block lines i = Some false ->
  in_code_at lines i = false.
Proof.
  intros Hline Hcode. pose proof (nth_error_lt _ _ _ Hline) as Hlt.
  rewrite is_in_code_block_in_range in Hcode by lia. congruence.
Qed.

(** C9: on every line outside fenced code, the plain substring checks
    (forbidden phrases, Latin abbreviations) emit at most one finding per
    trigger, whose column is the offset of the first occurrence of the
    trigger in the lowercased line, whereas the word-boundary
    regular-expression checks (preferred terminology, contractions,
    inclusive language) emit one finding per whole-word occurrence of the
    trigger on the line, at the offset of each occurrence. *)
Theorem lexical_checks_first_or_each_occurrence
    (lines : list string) (i : nat) (line : string) :
  nth_error lines i = Some line ->
  is_in_code_block lines i = Some false ->
  substring_check_ok check_forbidden_phrases forbidden_phrases
    forbidden_phrase_issues lines i line
  /\ substring_check_ok check_latin_abbreviations latin_abbrev
       latin_abbreviation_issues lines i line
  /\ word_check_ok check_preferred_terminology preferred_terms
       preferred_term_issues lines i line
  /\ contraction_check_ok lines i line
  /\ word_check_ok check_inclusive_language problematic_terms
       inclusive_term_issues lines i line.
Proof.
  intros Hline Hcode.
  pose proof (outside_code lines i line Hline Hcode) as Hfree.
  repeat split.
  - exists (guarded_lines lines forbidden_phrases_line).
    split; [apply guarded_check_pure|].
    split; [apply (guarded_on_line _ _ _ _ forbidden_phrases_own_line Hline Hfree)|].
    split; [now apply distinct_NoDup|].
    intros t v _. apply forbidden_phrase_reported.
  - exists (guarded_lines lines latin_abbreviations_line).
    split; [apply guarded_check_pure|].
    split; [apply (guarded_on_line _ _ _ _ latin_abbreviations_own_line Hline Hfree)|].
    split; [now apply distinct_NoDup|].
    intros t v _. apply latin_abbreviation_reported.
  - exists (guarded_lines lines preferred_terminology_line).
    split; [apply guarded_check_pure|].
    split; [apply (guarded_on_line _ _ _ _ preferred_terminology_own_line Hline Hfree)|].
    split; [now apply distinct_NoDup|].
    intros t v Hin. now apply preferred_term_reported.
  - exists (guarded_lines lines contractions_line).
    split; [apply guarded_check_pure|].
    rewrite (guarded_on_line _ _ _ _ contractions_own_line Hline Hfree).
    split; [reflexivity|].
    split; [now apply distinct_NoDup|].
    intros t Hin. now apply contraction_reported.
  - exists (guarded_lines lines inclusive_language_line).
    split; [apply guarded_check_pure|].
    split; [apply (guarded_on_line _ _ _ _ inclusive_language_own_line Hline Hfree)|].
    split; [now apply distinct_NoDup|].
    intros t v Hin. now apply inclusive_term_reported.
Qed.

Lemma lexical_checks_first_or_each_occurrence_witness :
  let line := "Just log in, I can't log in; it just can't." in
  nth_error ["# Sign in"; line] 1 = Some line
  /\ is_in_code_block ["# Sign in"; line] 1 = Some false
  /\ substring_check_ok check_forbidden_phrases forbidden_phrases
       forbidden_phrase_issues ["# Sign in"; line] 1 line
  /\ substring_check_ok check_latin_abbreviations latin_abbrev
       latin_abbreviation_issues ["# Sign in"; line] 1 line
  /\ word_check_ok check_preferred_terminology preferred_terms
       preferred_term_issues ["# Sign in"; line] 1 line
  /\ contraction_check_ok ["# Sign in"; line] 1 line
  /\ word_check_ok check_inclusive_language problematic_terms
       inclusive_term_issues ["# Sign in"; line] 1 line.
Proof.
  intro line.
  split; [reflexivity|]. split; [reflexivity|].
  apply (lexical_checks_first_or_each_occurrence ["# Sign in"; line] 1 line);
    reflexivity.
Defined.

(* ================================================================== *)
(** ** Further properties of the linter *)
(* ================================================================== *)

Local Open Scope list_scope.

(** *** The context tracker: range, recurrence, locality *)

(** X1: out of range exactly when the index is past the end. *)
Theorem is_in_code_block_raises_past_end (lines : list string) (k : nat) :
  is_in_code_block lines k = None <-> length lines < k.
Proof.
  split.
  - intro H. destruct (Nat.le_gt_cases k (length lines)) as [Hle|Hgt]; [|exact Hgt].
    rewrite is_in_code_block_in_range in H by exact Hle. discriminate.
  - apply fence_scan_out_of_range.
Qed.



(** X2: the answer of the tracker for an index depends only on the lines
    before that index: lines appended after it change nothing. *)
Theorem is_in_code_block_ignores_later_lines (before after : list string) (k : nat) :
  k <= length before ->
  is_in_code_block (before ++ after) k = is_in_code_block before k.
Proof.
  intro Hk.
  rewrite !is_in_code_block_in_range by (rewrite ?length_app; lia).
  unfold in_code_at, markers_before.
  rewrite firstn_app. replace (k - length before) with 0 by lia.
  now rewrite firstn_O, app_nil_r.
Qed.

(** *** Every finding is well formed *)

Ltac well_formed_tac :=
  split_issue_membership; repeat split; reflexivity.

Lemma forbidden_phrases_well_formed : body_well_formed forbidden_phrases_line.
Proof.
  intros i l x H. unfold forbidden_phrases_line in H.
  apply in_flat_map in H. destruct H as [[t c] [_ H]].
  unfold forbidden_phrase_issues in H. well_formed_tac.
Qed.

Lemma contractions_well_formed : body_well_formed contractions_line.
Proof. intros i l x H. unfold contractions_line in H. well_formed_tac. Qed.

Lemma latin_abbreviations_well_formed : body_well_formed latin_abbreviations_line.
Proof.
  intros i l x H. unfold latin_abbreviations_line in H.
  apply in_flat_map in H. destruct H as [[t c] [_ H]].
  unfold latin_abbreviation_issues in H. well_formed_tac.
Qed.

Lemma preferred_terminology_well_formed : body_well_formed preferred_terminology_line.
Proof.
  intros i l x H. unfold preferred_terminology_line in H.
  apply in_flat_map in H. destruct H as [[t c] [_ H]].
  unfold preferred_term_issues in H. well_formed_tac.
Qed.

Lemma directional_language_well_formed : body_well_formed directional_language_line.
Proof. intros i l x H. unfold directional_language_line in H. well_formed_tac. Qed.

Lemma future_tense_well_formed : body_well_formed future_tense_line.
Proof. intros i l x H. unfold future_tense_line in H. well_formed_tac. Qed.

Lemma gender_neutral_well_formed : body_well_formed gender_neutral_line.
Proof. intros i l x H. unfold gender_neutral_line in H. well_formed_tac. Qed.

Lemma voice_well_formed : body_well_formed voice_line.
Proof. intros i l x H. unfold voice_line in H. well_formed_tac. Qed.

Lemma capitalization_well_formed : body_well_formed capitalization_line.
Proof. intros i l x H. unfold capitalization_line in H. well_formed_tac. Qed.

Lemma punctuation_well_formed : body_well_formed punctuation_line.
Proof. intros i l x H. unfold punctuation_line in H. well_formed_tac. Qed.

Lemma numbers_and_units_well_formed : body_well_formed numbers_and_units_line.
Proof. intros i l x H. unfold numbers_and_units_line in H. well_formed_tac. Qed.

Lemma ui_elements_well_formed : body_well_formed ui_elements_line.
Proof.
  intros i l x H. unfold ui_elements_line in H.
  apply in_app_or in H. destruct H as [H | H].
  - apply in_flat_map in H. destruct H as [v [_ H]].
    unfold ui_verb_issues in H. well_formed_tac.
  - well_formed_tac.
Qed.

Lemma code_formatting_well_formed : body_well_formed code_formatting_line.
Proof.
  intros i l x H. unfold code_formatting_line in H.
  apply in_flat_map in H. destruct H as [v [_ H]].
  unfold code_indicator_issues in H. well_formed_tac.
Qed.

Lemma inclusive_language_well_formed : body_well_formed inclusive_language_line.
Proof.
  intros i l x H. unfold inclusive_language_line in H.
  apply in_flat_map in H. destruct H as [[t c] [_ H]].
  unfold inclusive_term_issues in H. well_formed_tac.
Qed.

Lemma headings_well_formed : body_well_formed headings_line.
Proof. intros i l x H. unfold headings_line in H. well_formed_tac. Qed.

Lemma lists_well_formed (lines : list string) : body_well_formed (lists_line lines).
Proof. intros i l x H. unfold lists_line in H. well_formed_tac. Qed.

Lemma links_well_formed : body_well_formed links_line.
Proof.
  intros i l x H. unfold links_line in H.
  apply in_flat_map in H. destruct H as [m [_ H]].
  unfold link_issues in H. well_formed_tac.
Qed.

Lemma accessibility_well_formed : body_well_formed accessibility_line.
Proof.
  intros i l x H. unfold accessibility_line in H.
  apply in_app_or in H. destruct H as [H | H].
  - well_formed_tac.
  - apply in_flat_map in H. destruct H as [c [_ H]]. well_formed_tac.
Qed.

Lemma prose_bodies_well_formed (body : nat -> string -> list LintIssue) :
  In body prose_bodies -> body_well_formed body.
Proof.
  unfold prose_bodies. cbn [In].
  intros [<-|[<-|[<-|[<-|[<-|[<-|[<-|[<-|[<-|[<-|[<-|[<-|[<-|[<-|[]]]]]]]]]]]]]]];
    auto using forbidden_phrases_well_formed, contractions_well_formed,
      latin_abbreviations_well_formed, preferred_terminology_well_formed,
      directional_language_well_formed, future_tense_well_formed,
      gender_neutral_well_formed, voice_well_formed, capitalization_well_formed,
      punctuation_well_formed, numbers_and_units_well_formed,
      ui_elements_well_formed, code_formatting_well_formed,
      inclusive_language_well_formed.
Qed.

Lemma unconditional_bodies_well_formed (lines : list string)
    (body : nat -> string -> list LintIssue) :
  In body (unconditional_bodies lines) -> body_well_formed body.
Proof.
  unfold unconditional_bodies. cbn [In].
  intros [<-|[<-|[<-|[<-|[]]]]];
    auto using headings_well_formed, lists_well_formed, links_well_formed,
      accessibility_well_formed.
Qed.

(** *** Where the findings of a lint pass come from *)

Lemma sample_lint : lint_lines sample_lines = Some sample_findings.
Proof. vm_compute. reflexivity. Qed.

Lemma sample_alt_text_found : In sample_alt_text_finding sample_findings.
Proof. vm_compute. auto 20. Qed.


Lemma in_all_issues (lines : list string) (x : LintIssue) :
  In x (all_issues lines) ->
  exists i l,
    nth_error lines i = Some l
    /\ ((in_code_at lines i = false
         /\ exists body, In body prose_bodies /\ In x (body (S i) l))
        \/ (exists body, In body (unconditional_bodies lines) /\ In x (body (S i) l))).
Proof.
  intro H. unfold all_issues in H.
  repeat (apply in_app_or in H; destruct H as [H|H]);
    first
      [ apply in_guarded_lines in H; destruct H as (i & l & Hn & Hc & Hx);
        exists i, l; split; [exact Hn|]; left; split; [exact Hc|];
        eexists; split; [|exact Hx]; unfold prose_bodies; cbn [In]; auto 20
      | apply in_unguarded_lines in H; destruct H as (i & l & Hn & Hx);
        exists i, l; split; [exact Hn|]; right;
        eexists; split; [|exact Hx]; unfold unconditional_bodies; cbn [In]; auto 20 ].
Qed.

Lemma in_sorted_issues (lines : list string) (x : LintIssue) :
  In x (sort_issues (all_issues lines)) -> In x (all_issues lines).
Proof. apply Permutation_in, Permutation_sym, sort_issues_perm. Qed.

Lemma lint_lines_finding (lines : list string) (issues : list LintIssue)
    (x : LintIssue) :
  lint_lines lines = Some issues -> In x issues ->
  exists i l,
    nth_error lines i = Some l
    /\ well_formed (S i) l x
    /\ (in_code_at lines i = true -> In (rule x) unconditional_rules).
Proof.
  intros Hrun Hin. rewrite lint_lines_pure in Hrun. injection Hrun as <-.
  apply in_sorted_issues, in_all_issues in Hin.
  destruct Hin as (i & l & Hn & [[Hfree (body & Hb & Hx)] | (body & Hb & Hx)]).
  - exists i, l. split; [exact Hn|]. split.
    + now apply (prose_bodies_well_formed body Hb).
    + intro Hc. congruence.
  - exists i, l. split; [exact Hn|]. split.
    + now apply (unconditional_bodies_well_formed lines body Hb).
    + intros _. unfold unconditional_bodies in Hb. cbn [In] in Hb.
      destruct Hb as [<-|[<-|[<-|[<-|[]]]]].
      * unfold headings_line in Hx. split_issue_membership; cbn; auto 20.
      * unfold lists_line in Hx. split_issue_membership; cbn; auto 20.
      * unfold links_line in Hx.
        apply in_flat_map in Hx. destruct Hx as [m [_ Hx]].
        unfold link_issues in Hx. split_issue_membership; cbn; auto 20.
      * unfold accessibility_line in Hx.
        apply in_app_or in Hx. destruct Hx as [Hx | Hx].
        -- split_issue_membership; cbn; auto 20.
        -- apply in_flat_map in Hx. destruct Hx as [c [_ Hx]].
           split_issue_membership; cbn; auto 20.
Qed.

(** X4: a finding names a real line and carries its verbatim text. *)
Theorem finding_points_to_its_line (lines : list string)
    (issues : list LintIssue) (x : LintIssue) :
  lint_lines lines = Some issues -> In x issues ->
  exists i,
    line_number x = Z.of_nat (S i)
    /\ nth_error lines i = Some (line_content x).
Proof.
  intros Hrun Hin.
  destruct (lint_lines_finding lines issues x Hrun Hin) as (i & l & Hn & (H1 & H2 & _) & _).
  exists i. split; [exact H1 | now rewrite H2].
Qed.

Lemma finding_points_to_its_line_witness :
  lint_lines sample_lines = Some sample_findings
  /\ In sample_alt_text_finding sample_findings
  /\ exists i,
       line_number sample_alt_text_finding = Z.of_nat (S i)
       /\ nth_error sample_lines i = Some (line_content sample_alt_text_finding).
Proof.
  split; [exact sample_lint|]. split; [exact sample_alt_text_found|].
  exact (finding_points_to_its_line sample_lines sample_findings
           sample_alt_text_finding sample_lint sample_alt_text_found).
Defined.

(** X5: on a line inside fenced code only the unconditional rules report. *)
Theorem code_lines_get_unconditional_rules_only (lines : list string)
    (issues : list LintIssue) (x : LintIssue) (i : nat) :
  lint_lines lines = Some issues -> In x issues ->
  line_number x = Z.of_nat (S i) ->
  is_in_code_block lines i = Some true ->
  In (rule x) unconditional_rules.
Proof.
  intros Hrun Hin Hline Hcode.
  destruct (lint_lines_finding lines issues x Hrun Hin)
    as (j & l & Hn & (H1 & _) & Hrule).
  rewrite H1 in Hline. apply Nat2Z.inj in Hline. injection Hline as ->.
  apply Hrule. apply nth_error_lt in Hn.
  rewrite is_in_code_block_in_range in Hcode by lia. congruence.
Qed.

Lemma code_lines_get_unconditional_rules_only_witness :
  lint_lines sample_lines = Some sample_findings
  /\ In sample_alt_text_finding sample_findings
  /\ line_number sample_alt_text_finding = Z.of_nat 4
  /\ is_in_code_block sample_lines 3 = Some true
  /\ In (rule sample_alt_text_finding) unconditional_rules.
Proof.
  split; [exact sample_lint|]. split; [exact sample_alt_text_found|].
  split; [reflexivity|]. split; [reflexivity|].
  exact (code_lines_get_unconditional_rules_only sample_lines sample_findings
           sample_alt_text_finding 3 sample_lint sample_alt_text_found
           eq_refl eq_refl).
Defined.

Lemma lint_file_finding (fs : filesystem) (path : string)
    (issues : list LintIssue) (x : LintIssue) :
  lint_file fs path = Some issues -> In x issues ->
  dict_get (rule x) rule_severity_table = Some (severity x).
Proof.
  unfold lint_file. destruct (read_text fs path) as [content|e]; intros Hrun Hin.
  - destruct (lint_lines_finding _ _ _ Hrun Hin) as (i & l & _ & (_ & _ & H) & _).
    exact H.
  - injection Hrun as <-. destruct Hin as [<-|[]]. reflexivity.
Qed.

(** X6: a rule identifier is always reported with the same severity: two
    findings with the same rule, from any two files, have the same
    severity. *)
Theorem severity_is_fixed_by_rule (fs fs' : filesystem) (path path' : string)
    (issues issues' : list LintIssue) (x y : LintIssue) :
  lint_file fs path = Some issues -> In x issues ->
  lint_file fs' path' = Some issues' -> In y issues' ->
  rule x = rule y -> severity x = severity y.
Proof.
  intros Hrun Hx Hrun' Hy Hr.
  pose proof (lint_file_finding fs path issues x Hrun Hx) as H1.
  pose proof (lint_file_finding fs' path' issues' y Hrun' Hy) as H2.
  rewrite Hr in H1. congruence.
Qed.

Lemma sample_file_lint : lint_file sample_fs "doc.md" = Some sample_file_findings.
Proof. vm_compute. reflexivity. Qed.

Lemma severity_is_fixed_by_rule_witness :
  lint_file sample_fs "doc.md" = Some sample_file_findings
  /\ In (sample_file_finding 0) sample_file_findings
  /\ In (sample_file_finding 2) sample_file_findings
  /\ rule (sample_file_finding 0) = rule (sample_file_finding 2)
  /\ severity (sample_file_finding 0) = severity (sample_file_finding 2).
Proof.
  assert (H0 : In (sample_file_finding 0) sample_file_findings)
    by (vm_compute; auto 10).
  assert (H1 : In (sample_file_finding 2) sample_file_findings)
    by (vm_compute; auto 10).
  split; [exact sample_file_lint|]. split; [exact H0|]. split; [exact H1|].
  split; [reflexivity|].
  exact (severity_is_fixed_by_rule sample_fs sample_fs "doc.md" "doc.md"
           sample_file_findings sample_file_findings
           (sample_file_finding 0) (sample_file_finding 2)
           sample_file_lint H0 sample_file_lint H1 eq_refl).
Defined.

Lemma dict_get_in {V : Type} (k : string) (v : V) (d : list (string * V)) :
  dict_get k d = Some v -> In (k, v) d.
Proof.
  induction d as [|[k' v'] d IH]; simpl; [discriminate|].
  destruct (String.eqb_spec k k') as [->|Hne].
  - intro H. injection H as ->. now left.
  - intro H. right. now apply IH.
Qed.

(** X7: an Error finding is a missing alt text or a file that could not be
    read. *)
Theorem error_findings_are_alt_text_or_file_read (fs : filesystem)
    (path : string) (issues : list LintIssue) (x : LintIssue) :
  lint_file fs path = Some issues -> In x issues ->
  severity x = ERROR ->
  rule x = "ms-alt-text" \/ rule x = "file-read".
Proof.
  intros Hrun Hin Hsev.
  pose proof (lint_file_finding fs path issues x Hrun Hin) as H.
  rewrite Hsev in H. apply dict_get_in in H.
  unfold rule_severity_table in H. cbn [In] in H.
  repeat (destruct H as [H|H]; [injection H as H; auto; discriminate|]).
  destruct H.
Qed.

Lemma error_findings_are_alt_text_or_file_read_witness :
  lint_file sample_fs "doc.md" = Some sample_file_findings
  /\ In (sample_file_finding 0) sample_file_findings
  /\ severity (sample_file_finding 0) = ERROR
  /\ (rule (sample_file_finding 0) = "ms-alt-text"
      \/ rule (sample_file_finding 0) = "file-read").
Proof.
  assert (H0 : In (sample_file_finding 0) sample_file_findings)
    by (vm_compute; auto 10).
  split; [exact sample_file_lint|]. split; [exact H0|]. split; [reflexivity|].
  exact (error_findings_are_alt_text_or_file_read sample_fs "doc.md"
           sample_file_findings (sample_file_finding 0)
           sample_file_lint H0 eq_refl).
Defined.


Lemma is_in_code_block_ignores_later_lines_witness :
  3 <= length (firstn 4 sample_lines)
  /\ is_in_code_block (firstn 4 sample_lines ++ skipn 4 sample_lines) 3
     = is_in_code_block (firstn 4 sample_lines) 3.
Proof.
  assert (H : 3 <= length (firstn 4 sample_lines)) by (simpl; lia).
  split; [exact H|].
  exact (is_in_code_block_ignores_later_lines
           (firstn 4 sample_lines) (skipn 4 sample_lines) 3 H).
Defined.

(** *** The pass keeps every finding of every check *)

Lemma checks_complete (lines : list string) :
  exists outs,
    Forall2 (fun check out => check lines = Some out) all_checks outs
    /\ concat outs = all_issues lines.
Proof.
  eexists. split.
  - unfold all_checks.
    repeat (apply Forall2_cons;
            [first [apply guarded_check_pure | apply unguarded_check_pure]|]).
    apply Forall2_nil.
  - unfold all_issues. cbn [concat]. now rewrite app_nil_r.
Qed.

(** X9: the output of a lint pass is a rearrangement of the findings of the
    eighteen checks: none is lost, none is added, none is duplicated. *)
Theorem lint_pass_keeps_every_finding (lines : list string) :
  exists issues outs,
    lint_lines lines = Some issues
    /\ Forall2 (fun check out => check lines = Some out) all_checks outs
    /\ Permutation (concat outs) issues.
Proof.
  destruct (checks_complete lines) as [outs [Hall Hcat]].
  exists (sort_issues (all_issues lines)), outs.
  split; [apply lint_lines_pure|]. split; [exact Hall|].
  rewrite Hcat. apply sort_issues_perm.
Qed.

(** X10: findings with the same line and column stay in the order in which
    the checks produced them. *)
Theorem lint_pass_keeps_check_order_on_ties (lines : list string) (ln col : Z) :
  exists issues outs,
    lint_lines lines = Some issues
    /\ Forall2 (fun check out => check lines = Some out) all_checks outs
    /\ filter (same_key ln col) issues = filter (same_key ln col) (concat outs).
Proof.
  destruct (checks_complete lines) as [outs [Hall Hcat]].
  exists (sort_issues (all_issues lines)), outs.
  split; [apply lint_lines_pure|]. split; [exact Hall|].
  rewrite Hcat. apply sort_issues_stable.
Qed.

(** *** The severity filter *)

Lemma ordered_trans (a b c : LintIssue) : ordered a b -> ordered b c -> ordered a c.
Proof. unfold ordered. lia. Qed.

Lemma sorted_filter (p : LintIssue -> bool) (l : list LintIssue) :
  Sorted ordered l -> Sorted ordered (filter p l).
Proof.
  intro H. apply Sorted_StronglySorted in H; [|exact ordered_trans].
  apply StronglySorted_Sorted.
  induction H as [|x l Hs IH Hall]; simpl; [constructor|].
  destruct (p x); [|exact IH].
  constructor; [exact IH|].
  rewrite Forall_forall in *. intros y Hy. apply Hall.
  apply filter_In in Hy. tauto.
Qed.

(** X11: what remains after the severity filter is still ordered by line and
    column. *)
Theorem retained_findings_stay_ordered (fs : filesystem) (path : string)
    (min_severity : Severity) :
  exists issues,
    lint_file fs path = Some issues
    /\ adjacent_ordered (filter_by_severity min_severity issues).
Proof.
  destruct (lint_file_total fs path) as [issues [H Hs]].
  exists issues. split; [exact H|].
  apply sorted_adjacent. unfold filter_by_severity. now apply sorted_filter.
Qed.


(** *** Looking a rule up in the report *)

Lemma dict_get_default_set {V : Type} (k k' : string) (v dflt : V)
    (d : list (string * V)) :
  dict_get_default k dflt (dict_set k' v d)
  = if String.eqb k k' then v else dict_get_default k dflt d.
Proof.
  unfold dict_get_default.
  induction d as [|[k0 v0] d IH]; simpl.
  - now destruct (String.eqb k k').
  - destruct (String.eqb_spec k' k0) as [->|Hne]; simpl.
    + now destruct (String.eqb k k0).
    + destruct (String.eqb_spec k k0) as [->|Hne2].
      * destruct (String.eqb_spec k0 k'); [congruence | reflexivity].
      * exact IH.
Qed.

Lemma count_rules_lookup_from (k : string) (issues : list LintIssue) :
  forall d,
    dict_get_default k 0
      (fold_left (fun rule_counts issue =>
         dict_set (rule issue)
           (dict_get_default (rule issue) 0 rule_counts + 1) rule_counts)
         issues d)
    = dict_get_default k 0 d + count_rule k issues.
Proof.
  unfold count_rule.
  induction issues as [|x l IH]; intro d; simpl; [lia|].
  rewrite IH, dict_get_default_set.
  rewrite (String.eqb_sym (rule x) k).
  destruct (String.eqb_spec k (rule x)) as [->|Hne]; simpl; lia.
Qed.

(** X12: looking a rule up in [rule_counts] gives the number of findings of
    that rule, and a rule is a key exactly when some finding carries it. *)
Theorem rule_counts_lookup (issues : list LintIssue) (path k : string) :
  let counts := rule_counts (generate_report issues path) in
  dict_get_default k 0 counts = count_rule k issues
  /\ (In k (map fst counts) <-> exists x, In x issues /\ rule x = k).
Proof.
  cbn [generate_report rule_counts]. split.
  - unfold count_rules. now rewrite count_rules_lookup_from.
  - unfold count_rules.
    assert (H : forall d : list (string * nat),
               In k (map fst
                 (fold_left (fun rule_counts issue =>
                    dict_set (rule issue)
                      (dict_get_default (rule issue) 0 rule_counts + 1) rule_counts)
                    issues d))
               <-> In k (map fst d) \/ exists x, In x issues /\ rule x = k).
    { induction issues as [|x l IH]; intro d; simpl.
      - split; [tauto|]. intros [H|[x [[] _]]]. exact H.
      - rewrite IH, dict_set_keys. split.
        + intros [[->|H]|[y [Hy Hr]]]; eauto.
        + intros [H|[y [[<-|Hy] Hr]]]; eauto. }
    rewrite H. simpl. split; [intros [[]|H']; exact H' | now right].
Qed.

(** *** The run as a whole *)

(** X17: when [main] reaches [sys.exit(exit_code)] with parsed arguments
    (at least one path, as [argparse] requires), the exit code is 0 or 1
    and [all_results] holds one report per linted file, in command-line
    order; a missing path adds no report. *)
Theorem main_reports_each_linted_file (fs : filesystem) (args : Args)
    (st : RunState) :
  files args <> [] ->
  main fs args = Some st ->
  map filepath (all_results st) = linted_files fs args
  /\ (exit_code st = 0 \/ exit_code st = 1)
  /\ forall r, In r (all_results st) ->
       total_issues r = errors r + warnings r + info r.
Proof.
  intros _ Hrun. rewrite main_steps in Hrun. injection Hrun as <-.
  cbn [all_results exit_code].
  split; [|split].
  - rewrite map_map. unfold report_of. cbn [generate_report filepath]. apply map_id.
  - destruct (summary args); [now left|].
    destruct (existsb _ _); [now right | now left].
  - intros r Hr. apply in_map_iff in Hr. destruct Hr as [f [<- _]].
    unfold report_of. cbn [generate_report total_issues errors warnings info].
    apply count_severity_total.
Qed.

Lemma list_sum_errors (fs : filesystem) (args : Args) (fl : list string) :
  list_sum (map (fun f => length (retained fs args f)) fl)
  = list_sum (map total_issues (map (report_of fs args) fl)).
Proof.
  rewrite map_map. reflexivity.
Qed.

(** X18: without [--summary] the running total is the sum of the reports'
    totals, and the exit code is 1 exactly when some report counts an
    error. *)
Theorem run_totals_without_summary (fs : filesystem) (args : Args) :
  summary args = false ->
  exists st,
    main fs args = Some st
    /\ run_total_issues st = list_sum (map total_issues (all_results st))
    /\ (exit_code st = 1 <-> exists r, In r (all_results st) /\ 0 < errors r).
Proof.
  intro Hsum. eexists. split; [apply main_steps|].
  cbn [all_results run_total_issues exit_code]. rewrite Hsum.
  split; [apply list_sum_errors|].
  destruct (existsb _ _) eqn:E.
  - split; [intros _ | reflexivity].
    apply existsb_exists in E. destruct E as [f [Hin He]].
    exists (report_of fs args f). split; [now apply in_map|].
    unfold report_of. cbn [generate_report errors]. now apply has_error_counts.
  - split; [discriminate|]. intros [r [Hr He]].
    apply in_map_iff in Hr. destruct Hr as [f [<- Hf]].
    unfold report_of in He. cbn [generate_report errors] in He.
    apply has_error_counts in He.
    assert (existsb (fun f => has_error (retained fs args f))
              (flat_map (md_files_of fs) (files args)) = true)
      by (apply existsb_exists; eauto).
    congruence.
Qed.

Lemma run_totals_without_summary_witness :
  let fs := single_file_fs "doc.md" "![](photo.png)" in
  let args := mkArgs ["doc.md"] INFO false in
  summary args = false
  /\ exists st,
       main fs args = Some st
       /\ run_total_issues st = list_sum (map total_issues (all_results st))
       /\ (exit_code st = 1 <-> exists r, In r (all_results st) /\ 0 < errors r).
Proof.
  intros fs args. split; [reflexivity|].
  exact (run_totals_without_summary fs args eq_refl).
Defined.

(** X19: linting two lists of paths in one run gives the reports of the first
    followed by those of the second, the sum of the totals and the larger
    exit code. *)
Theorem main_on_concatenated_paths (fs : filesystem) (sev : Severity)
    (quiet : bool) (a b : list string) :
  exists sa sb sab,
    main fs (mkArgs a sev quiet) = Some sa
    /\ main fs (mkArgs b sev quiet) = Some sb
    /\ main fs (mkArgs (a ++ b) sev quiet) = Some sab
    /\ all_results sab = all_results sa ++ all_results sb
    /\ run_total_issues sab = run_total_issues sa + run_total_issues sb
    /\ exit_code sab = Nat.max (exit_code sa) (exit_code sb).
Proof.
  do 3 eexists.
  split; [apply main_steps|]. split; [apply main_steps|]. split; [apply main_steps|].
  cbn [all_results run_total_issues exit_code files summary].
  rewrite !flat_map_app, !map_app, existsb_app, list_sum_app.
  unfold report_of, retained. cbn [arg_severity].
  split; [reflexivity|]. destruct quiet; [now split|]. split; [reflexivity|].
  destruct (existsb _ (flat_map (md_files_of fs) a)),
           (existsb _ (flat_map (md_files_of fs) b)); reflexivity.
Qed.

(** X20: a run ends with exit code 1 only without [--summary], and then some
    linted file has an Error finding: an image without alt text, or the
    file could not be read. *)
Theorem exit_code_one_has_a_cause (fs : filesystem) (args : Args) (st : RunState) :
  main fs args = Some st ->
  exit_code st = 1 ->
  summary args = false
  /\ exists f issues x,
    In f (linted_files fs args)
    /\ lint_file fs f = Some issues
    /\ In x issues
    /\ severity x = ERROR
    /\ (rule x = "ms-alt-text" \/ rule x = "file-read").
Proof.
  intros Hrun Hexit. rewrite main_steps in Hrun. injection Hrun as <-.
  cbn [exit_code] in Hexit.
  destruct (summary args); [discriminate|]. split; [reflexivity|].
  destruct (existsb _ _) eqn:E; [|discriminate].
  apply existsb_exists in E. destruct E as [f [Hf He]].
  unfold has_error in He. apply existsb_exists in He.
  destruct He as [x [Hx Hsev]].
  unfold retained, filter_by_severity in Hx. apply filter_In in Hx.
  destruct Hx as [Hx _].
  assert (Hs : severity x = ERROR) by (destruct (severity x); now try discriminate).
  exists f, (issues_of fs f), x.
  split; [exact Hf|]. split; [apply lint_file_issues_of|].
  split; [exact Hx|]. split; [exact Hs|].
  pose proof (lint_file_finding fs f _ x (lint_file_issues_of fs f) Hx) as H.
  rewrite Hs in H. apply dict_get_in in H.
  unfold rule_severity_table in H. cbn [In] in H.
  repeat (destruct H as [H|H]; [injection H as H; auto; discriminate|]).
  destruct H.
Qed.

Lemma sample_main : main sample_fs sample_args = Some sample_run.
Proof. vm_compute. reflexivity. Qed.

Lemma main_reports_each_linted_file_witness :
  files sample_args <> []
  /\ main sample_fs sample_args = Some sample_run
  /\ map filepath (all_results sample_run) = linted_files sample_fs sample_args
  /\ (exit_code sample_run = 0 \/ exit_code sample_run = 1)
  /\ forall r, In r (all_results sample_run) ->
       total_issues r = errors r + warnings r + info r.
Proof.
  assert (H : files sample_args <> []) by discriminate.
  split; [exact H|]. split; [exact sample_main|].
  exact (main_reports_each_linted_file sample_fs sample_args sample_run
           H sample_main).
Defined.

Lemma exit_code_one_has_a_cause_witness :
  main sample_fs sample_args = Some sample_run
  /\ exit_code sample_run = 1
  /\ summary sample_args = false
  /\ exists f issues x,
       In f (linted_files sample_fs sample_args)
       /\ lint_file sample_fs f = Some issues
       /\ In x issues
       /\ severity x = ERROR
       /\ (rule x = "ms-alt-text" \/ rule x = "file-read").
Proof.
  split; [exact sample_main|]. split; [reflexivity|].
  exact (exit_code_one_has_a_cause sample_fs sample_args sample_run
           sample_main eq_refl).
Defined.

(** *** Grouping the findings by rule *)

Lemma dict_get_default_get {V : Type} (k : string) (dflt : V)
    (d : list (string * V)) :
  dict_get_default k dflt d
  = match dict_get k d with Some v => v | None => dflt end.
Proof. reflexivity. Qed.

Lemma dict_get_keys {V : Type} (k : string) (d : list (string * V)) :
  dict_get k d = None <-> ~ In k (map fst d).
Proof.
  induction d as [|[k' v] d IH]; simpl; [tauto|].
  destruct (String.eqb_spec k k') as [->|Hne].
  - split; [discriminate | tauto].
  - rewrite IH. intuition congruence.
Qed.

Lemma group_step_lookup (d : list (string * list LintIssue)) (x : LintIssue)
    (k : string) :
  dict_get_default k [] (group_step d x)
  = dict_get_default k [] d ++ (if String.eqb (rule x) k then [x] else []).
Proof.
  unfold group_step. rewrite dict_get_default_set.
  rewrite (String.eqb_sym k (rule x)).
  destruct (String.eqb_spec (rule x) k) as [<-|Hne].
  - destruct (dict_get (rule x) d) eqn:G; [reflexivity|].
    rewrite dict_get_default_set, String.eqb_refl.
    unfold dict_get_default. now rewrite G.
  - rewrite app_nil_r.
    destruct (dict_get (rule x) d) eqn:G; [reflexivity|].
    rewrite dict_get_default_set.
    destruct (String.eqb_spec k (rule x)); [congruence | reflexivity].
Qed.

Lemma group_step_keys (d : list (string * list LintIssue)) (x : LintIssue)
    (k : string) :
  In k (map fst (group_step d x)) <-> k = rule x \/ In k (map fst d).
Proof.
  unfold group_step. rewrite dict_set_keys.
  destruct (dict_get (rule x) d); [tauto|].
  rewrite dict_set_keys. tauto.
Qed.

Lemma group_step_NoDup (d : list (string * list LintIssue)) (x : LintIssue) :
  NoDup (map fst d) -> NoDup (map fst (group_step d x)).
Proof.
  intro H. unfold group_step. apply dict_set_NoDup.
  destruct (dict_get (rule x) d); [exact H | now apply dict_set_NoDup].
Qed.

Lemma dict_set_absent {V : Type} (k : string) (v : V) (d : list (string * V)) :
  dict_get k d = None -> dict_set k v d = d ++ [(k, v)].
Proof.
  induction d as [|[k' v'] d IH]; simpl; [reflexivity|].
  destruct (String.eqb_spec k k'); [discriminate|].
  intro H. now rewrite IH.
Qed.

Lemma flat_map_dict_append (k : string) (w : list LintIssue)
    (d : list (string * list LintIssue)) :
  Permutation
    (flat_map snd (dict_set k (dict_get_default k [] d ++ w) d))
    (flat_map snd d ++ w).
Proof.
  unfold dict_get_default.
  induction d as [|[k' v'] d IH]; simpl.
  - now rewrite app_nil_r.
  - destruct (String.eqb_spec k k') as [->|Hne]; simpl.
    + rewrite <- !app_assoc. apply Permutation_app_head, Permutation_app_comm.
    + rewrite <- app_assoc. now apply Permutation_app_head.
Qed.

Lemma group_step_perm (d : list (string * list LintIssue)) (x : LintIssue) :
  Permutation (flat_map snd (group_step d x)) (flat_map snd d ++ [x]).
Proof.
  unfold group_step. rewrite flat_map_dict_append.
  apply Permutation_app_tail.
  destruct (dict_get (rule x) d) eqn:G; [reflexivity|].
  rewrite (dict_set_absent _ _ _ G), flat_map_app. simpl. now rewrite app_nil_r.
Qed.

Lemma group_fold (issues : list LintIssue) :
  forall d,
    NoDup (map fst d) ->
    let groups := fold_left group_step issues d in
    NoDup (map fst groups)
    /\ (forall k, dict_get_default k [] groups
                  = dict_get_default k [] d ++ with_rule k issues)
    /\ (forall k, In k (map fst groups)
                  <-> In k (map fst d) \/ exists x, In x issues /\ rule x = k)
    /\ Permutation (flat_map snd groups) (flat_map snd d ++ issues).
Proof.
  induction issues as [|x l IH]; intros d Hd; cbn [fold_left].
  - split; [exact Hd|]. split; [intro k; now rewrite app_nil_r|].
    split; [|now rewrite app_nil_r].
    intro k. split; [tauto|]. intros [H|[y [[] _]]]. exact H.
  - destruct (IH (group_step d x) (group_step_NoDup d x Hd)) as (H1 & H2 & H3 & H4).
    split; [exact H1|]. split; [|split].
    + intro k. rewrite H2, group_step_lookup, <- app_assoc. f_equal.
      unfold with_rule. cbn [filter]. now destruct (String.eqb (rule x) k).
    + intro k. rewrite H3, group_step_keys. split.
      * intros [[->|H]|[y [Hy Hr]]];
          [ right; exists x; split; [now left | reflexivity]
          | now left
          | right; exists y; split; [now right | exact Hr] ].
      * intros [H|[y [[<-|Hy] Hr]]]; eauto.
    + rewrite H4, group_step_perm, <- app_assoc. reflexivity.
Qed.

Lemma in_dict_get {V : Type} (k : string) (v : V) (d : list (string * V)) :
  NoDup (map fst d) -> In (k, v) d -> dict_get k d = Some v.
Proof.
  induction d as [|[k' v'] d IH]; simpl; intros Hnd H; [destruct H|].
  inversion Hnd as [|? ? Hnotin Hd]; subst.
  destruct H as [H|H].
  - injection H as -> ->. now rewrite String.eqb_refl.
  - destruct (String.eqb_spec k k') as [->|Hne].
    + exfalso. apply Hnotin. apply in_map_iff. now exists (k', v).
    + now apply IH.
Qed.

(** The sort of the groups *)

Lemma insert_group_perm (x : string * list LintIssue) (l : list (string * list LintIssue)) :
  Permutation (x :: l) (insert_group x l).
Proof.
  induction l as [|y l IH]; simpl; [reflexivity|].
  destruct (String.leb (fst x) (fst y)); [reflexivity|].
  rewrite perm_swap. now constructor.
Qed.

Lemma sort_groups_perm (l : list (string * list LintIssue)) :
  Permutation l (sort_groups l).
Proof.
  induction l as [|x l IH]; simpl; [constructor|].
  rewrite <- insert_group_perm. now constructor.
Qed.

Lemma leb_false_leb (a b : string) : String.leb a b = false -> String.leb b a = true.
Proof. intro H. destruct (String.leb_total a b); congruence. Qed.

Lemma insert_group_sorted (x : string * list LintIssue)
    (l : list (string * list LintIssue)) :
  Sorted (fun a b => String.leb (fst a) (fst b) = true) l ->
  Sorted (fun a b => String.leb (fst a) (fst b) = true) (insert_group x l).
Proof.
  induction l as [|y l IH]; intro Hs; simpl.
  - repeat constructor.
  - destruct (String.leb (fst x) (fst y)) eqn:E.
    + constructor; [exact Hs|]. now constructor.
    + apply leb_false_leb in E.
      inversion Hs as [|? ? Hs' Hhd]; subst.
      constructor; [now apply IH|].
      destruct l as [|z l]; simpl.
      * now constructor.
      * destruct (String.leb (fst x) (fst z)); constructor; [exact E|].
        now inversion Hhd.
Qed.

Lemma sort_groups_sorted (l : list (string * list LintIssue)) :
  Sorted (fun a b => String.leb (fst a) (fst b) = true) (sort_groups l).
Proof.
  induction l as [|x l IH]; simpl; [constructor|].
  now apply insert_group_sorted.
Qed.

Lemma leb_neq_ltb (a b : string) :
  String.leb a b = true -> a <> b -> String.ltb a b = true.
Proof.
  unfold String.leb, String.ltb. intros H Hne.
  destruct (String.compare a b) eqn:C; try reflexivity; try discriminate.
  apply String.compare_eq_iff in C. contradiction.
Qed.

Lemma sorted_distinct_strict (l : list (string * list LintIssue)) :
  NoDup (map fst l) ->
  Sorted (fun a b => String.leb (fst a) (fst b) = true) l ->
  Sorted key_lt l.
Proof.
  induction l as [|x l IH]; intros Hnd Hs; [constructor|].
  inversion Hnd as [|? ? Hnotin Hnd']; subst.
  inversion Hs as [|? ? Hs' Hhd]; subst.
  constructor; [now apply IH|].
  destruct l as [|y l]; constructor.
  inversion Hhd; subst. apply leb_neq_ltb; [assumption|].
  intro E. apply Hnotin. simpl. now left.
Qed.

(** X21: under [--group-by-rule] the groups are printed in strictly
    increasing order of rule identifier; each group is non-empty and holds
    exactly the findings of its rule, in their order; and together the
    groups hold every finding once. *)
Theorem printed_groups_partition (issues : list LintIssue) :
  Sorted key_lt (printed_groups issues)
  /\ (forall k g, In (k, g) (printed_groups issues) ->
        g = with_rule k issues /\ g <> [])
  /\ Permutation (flat_map snd (printed_groups issues)) issues.
Proof.
  unfold printed_groups, group_by_rule.
  destruct (group_fold issues [] (NoDup_nil _)) as (H1 & H2 & H3 & H4).
  cbn zeta in *.
  set (groups := fold_left group_step issues []) in *.
  split; [|split].
  - apply sorted_distinct_strict; [|apply sort_groups_sorted].
    eapply Permutation_NoDup; [|exact H1].
    apply Permutation_map, sort_groups_perm.
  - intros k g Hin.
    apply (Permutation_in _ (Permutation_sym (sort_groups_perm groups))) in Hin.
    pose proof (in_dict_get k g groups H1 Hin) as Hget.
    assert (Hg : g = with_rule k issues).
    { specialize (H2 k). unfold dict_get_default in H2. rewrite Hget in H2.
      exact H2. }
    split; [exact Hg|].
    assert (Hk : In k (map fst groups)) by (apply in_map_iff; now exists (k, g)).
    apply H3 in Hk. destruct Hk as [[]|[x [Hx Hr]]].
    intro E. rewrite Hg in E.
    assert (Hx' : In x (with_rule k issues)).
    { unfold with_rule. apply filter_In. split; [exact Hx|].
      now apply String.eqb_eq. }
    rewrite E in Hx'. destruct Hx'.
  - rewrite <- H4. simpl.
    apply Permutation_flat_map, Permutation_sym, sort_groups_perm.
Qed.

(** *** The run summary and the most frequent rules *)

Lemma insert_by_count_perm (x : string * nat) (l : list (string * nat)) :
  Permutation (x :: l) (insert_by_count x l).
Proof.
  induction l as [|y l IH]; simpl; [reflexivity|].
  destruct (Nat.leb (snd y) (snd x)); [reflexivity|].
  rewrite perm_swap. now constructor.
Qed.

Lemma sort_by_count_perm (l : list (string * nat)) :
  Permutation l (sort_by_count l).
Proof.
  induction l as [|x l IH]; simpl; [constructor|].
  rewrite <- insert_by_count_perm. now constructor.
Qed.

Lemma insert_by_count_sorted (x : string * nat) (l : list (string * nat)) :
  Sorted count_ge l -> Sorted count_ge (insert_by_count x l).
Proof.
  unfold count_ge.
  induction l as [|y l IH]; intro Hs; simpl.
  - repeat constructor.
  - destruct (Nat.leb_spec (snd y) (snd x)) as [E|E].
    + constructor; [exact Hs|]. now constructor.
    + inversion Hs as [|? ? Hs' Hhd]; subst.
      constructor; [now apply IH|].
      destruct l as [|z l]; simpl.
      * constructor. lia.
      * destruct (Nat.leb (snd z) (snd x)); constructor; [lia|].
        now inversion Hhd.
Qed.

Lemma sort_by_count_sorted (l : list (string * nat)) :
  Sorted count_ge (sort_by_count l).
Proof.
  induction l as [|x l IH]; simpl; [constructor|].
  now apply insert_by_count_sorted.
Qed.

Lemma count_ge_trans (a b c : string * nat) :
  count_ge a b -> count_ge b c -> count_ge a c.
Proof. unfold count_ge. lia. Qed.

Lemma strongly_sorted_split (l1 l2 : list (string * nat)) :
  StronglySorted count_ge (l1 ++ l2) ->
  StronglySorted count_ge l1
  /\ forall a b, In a l1 -> In b l2 -> count_ge a b.
Proof.
  induction l1 as [|x l1 IH]; simpl; intro H.
  - split; [constructor|]. intros a b [].
  - inversion H as [|? ? Hs Hall]; subst.
    destruct (IH Hs) as [H1 H2]. split.
    + constructor; [exact H1|].
      rewrite Forall_forall in *. intros y Hy. apply Hall, in_or_app. now left.
    + intros a b [<-|Ha] Hb; [|now apply H2].
      rewrite Forall_forall in Hall. apply Hall, in_or_app. now right.
Qed.

(** X22: the "Top Issues" are at most five entries of the merged rule counts,
    in non-increasing order of count, and no rule left out has a larger
    count than a rule listed. *)
Theorem top_issues_are_the_most_frequent (results : list Report) :
  length (top_issues results) <= 5
  /\ Sorted count_ge (top_issues results)
  /\ (forall e, In e (top_issues results) -> In e (all_rule_counts results))
  /\ (forall e e',
        In e (top_issues results) ->
        In e' (all_rule_counts results) ->
        ~ In e' (top_issues results) ->
        snd e' <= snd e).
Proof.
  unfold top_issues.
  set (sorted := sort_by_count (all_rule_counts results)).
  assert (Hperm : Permutation (all_rule_counts results) sorted)
    by apply sort_by_count_perm.
  assert (Hs : StronglySorted count_ge (firstn 5 sorted ++ skipn 5 sorted)).
  { rewrite firstn_skipn. apply Sorted_StronglySorted; [exact count_ge_trans|].
    apply sort_by_count_sorted. }
  apply strongly_sorted_split in Hs. destruct Hs as [Hs1 Hs2].
  split; [apply firstn_le_length|]. split; [now apply StronglySorted_Sorted|].
  split.
  - intros e He. apply (Permutation_in _ (Permutation_sym Hperm)).
    rewrite <- (firstn_skipn 5 sorted). apply in_or_app. now left.
  - intros e e' He He' Hnot. apply (Hs2 e e' He).
    apply (Permutation_in _ Hperm) in He'.
    rewrite <- (firstn_skipn 5 sorted) in He'.
    apply in_app_or in He'. tauto.
Qed.

(** Merging rule counts *)

Lemma sum_counts_add (k : string) (n : nat) (d : list (string * nat)) :
  sum_counts (dict_set k (dict_get_default k 0 d + n) d) = sum_counts d + n.
Proof.
  unfold dict_get_default.
  induction d as [|[k' v] d IH]; simpl; [lia|].
  destruct (String.eqb k k') eqn:E; simpl.
  - lia.
  - destruct (dict_get k d); simpl in *; lia.
Qed.

Lemma sum_counts_merge (counts : list (string * nat)) :
  forall all, sum_counts (merge_counts all counts) = sum_counts all + sum_counts counts.
Proof.
  unfold merge_counts.
  induction counts as [|[k n] cs IH]; intro all; simpl; [lia|].
  rewrite IH, sum_counts_add. lia.
Qed.

Lemma sum_counts_all (results : list Report) :
  forall all,
    sum_counts (fold_left (fun acc r => merge_counts acc (rule_counts r)) results all)
    = sum_counts all + list_sum (map (fun r => sum_counts (rule_counts r)) results).
Proof.
  induction results as [|r rs IH]; intro all; simpl; [lia|].
  rewrite IH, sum_counts_merge. lia.
Qed.

Lemma lookup_cons (k k1 : string) (n1 : nat) (cs : list (string * nat)) :
  dict_get_default k 0 ((k1, n1) :: cs)
  = if String.eqb k k1 then n1 else dict_get_default k 0 cs.
Proof. unfold dict_get_default. simpl. now destruct (String.eqb k k1). Qed.

Lemma lookup_merge (k : string) (counts : list (string * nat)) :
  NoDup (map fst counts) ->
  forall all,
    dict_get_default k 0 (merge_counts all counts)
    = dict_get_default k 0 all + dict_get_default k 0 counts.
Proof.
  unfold merge_counts.
  induction counts as [|[k1 n1] cs IH]; intros Hnd all; cbn [fold_left fst snd].
  - unfold dict_get_default at 3. simpl. lia.
  - inversion Hnd as [|? ? Hnotin Hnd']; subst.
    rewrite (IH Hnd'), dict_get_default_set, lookup_cons.
    destruct (String.eqb_spec k k1) as [->|Hne]; [|reflexivity].
    assert (H0 : dict_get_default k1 0 cs = 0).
    { unfold dict_get_default. apply dict_get_keys in Hnotin. now rewrite Hnotin. }
    rewrite H0. lia.
Qed.

Lemma lookup_all (k : string) (results : list Report) :
  (forall r, In r results -> NoDup (map fst (rule_counts r))) ->
  forall all,
    dict_get_default k 0
      (fold_left (fun acc r => merge_counts acc (rule_counts r)) results all)
    = dict_get_default k 0 all
      + list_sum (map (fun r => dict_get_default k 0 (rule_counts r)) results).
Proof.
  induction results as [|r rs IH]; intros Hnd all; simpl; [lia|].
  rewrite IH by (intros r' Hr'; apply Hnd; now right).
  rewrite lookup_merge by (apply Hnd; now left). lia.
Qed.

(** X23: in the merged rule counts of a run, a rule is counted as many times
    as findings of that rule were retained over all the linted files, and the
    counts add up to the sum of the reports' totals. *)
Theorem merged_rule_counts_of_a_run (fs : filesystem) (args : Args) (k : string) :
  exists st,
    main fs args = Some st
    /\ dict_get_default k 0 (all_rule_counts (all_results st))
       = list_sum (map (fun f => count_rule k (retained fs args f))
                       (linted_files fs args))
    /\ sum_counts (all_rule_counts (all_results st))
       = list_sum (map total_issues (all_results st)).
Proof.
  eexists. split; [apply main_steps|]. cbn [all_results]. split.
  - unfold all_rule_counts. rewrite lookup_all.
    + unfold dict_get_default at 1. simpl. rewrite map_map.
      f_equal. apply map_ext. intro f.
      unfold report_of. cbn [generate_report rule_counts].
      unfold count_rules. now rewrite count_rules_lookup_from.
    + intros r Hr. apply in_map_iff in Hr. destruct Hr as [f [<- _]].
      apply count_rules_NoDup.
  - unfold all_rule_counts. rewrite sum_counts_all. simpl.
    rewrite !map_map. f_equal. apply map_ext. intro f.
    unfold report_of. cbn [generate_report rule_counts total_issues].
    unfold count_rules. now rewrite sum_counts_fold.
Qed.

(** X24: the totals of the summary.  The three severity totals add up to the
    sum of the reports' totals; the "Total issues" figure equals that sum
    when findings are printed, and is 0 under [--summary]. *)
Theorem run_summary_totals (fs : filesystem) (args : Args) :
  exists st,
    main fs args = Some st
    /\ let s := run_summary st in
       total_files s = length (linted_files fs args)
       /\ summary_errors s + summary_warnings s + summary_info s
          = list_sum (map total_issues (all_results st))
       /\ summary_total_issues s
          = if summary args then 0
            else summary_errors s + summary_warnings s + summary_info s.
Proof.
  eexists. split; [apply main_steps|].
  cbn [run_summary all_results run_total_issues total_files summary_errors
       summary_warnings summary_info summary_total_issues].
  assert (Hsum : forall fl : list string,
            list_sum (map errors (map (report_of fs args) fl))
            + list_sum (map warnings (map (report_of fs args) fl))
            + list_sum (map info (map (report_of fs args) fl))
            = list_sum (map total_issues (map (report_of fs args) fl))).
  { induction fl as [|f fl IH]; [reflexivity|].
    cbn [map list_sum fold_right] in *. 
    unfold report_of at 1 3 5 7.
    cbn [generate_report errors warnings info total_issues].
    rewrite (count_severity_total (retained fs args f)).
    change (fold_right Nat.add 0) with list_sum in *. lia. }
  split; [now rewrite length_map|]. split; [apply Hsum|].
  destruct (summary args); [reflexivity|].
  rewrite Hsum. apply list_sum_errors.
Qed.

(** *** The state of the tracker between two fences *)

Lemma markers_between (marker : string -> bool) (lines : list string) :
  forall j k,
    j <= k ->
    (forall n l, j <= n < k -> nth_error lines n = Some l -> marker l = false) ->
    markers_before marker lines k = markers_before marker lines j.
Proof.
  unfold markers_before.
  induction lines as [|a ls IH]; intros j k Hjk Hno.
  - now rewrite !firstn_nil.
  - destruct k as [|k]; [replace j with 0 by lia; reflexivity|].
    destruct j as [|j].
    + cbn [firstn filter length].
      rewrite (Hno 0 a (conj (Nat.le_0_l 0) (Nat.lt_0_succ k)) eq_refl).
      apply (IH 0 k); [lia|].
      intros n l Hn Hl. apply (Hno (S n) l); [lia | exact Hl].
    + cbn [firstn filter].
      assert (E : length (filter marker (firstn k ls))
                  = length (filter marker (firstn j ls))).
      { apply (IH j k); [lia|].
        intros n l Hn Hl. apply (Hno (S n) l); [lia | exact Hl]. }
      destruct (marker a); cbn [length]; now rewrite E.
Qed.

(** X3: the answer of the tracker changes only at fence lines. *)
Theorem is_in_code_block_constant_between_fences (lines : list string) (j k : nat) :
  j <= k -> k <= length lines ->
  (forall n l, j <= n < k -> nth_error lines n = Some l -> starts_with_fence l = false) ->
  is_in_code_block lines k = is_in_code_block lines j.
Proof.
  intros Hjk Hk Hno.
  rewrite !is_in_code_block_in_range by lia.
  unfold in_code_at. now rewrite (markers_between _ _ j k Hjk Hno).
Qed.

Lemma is_in_code_block_constant_between_fences_witness :
  0 <= 2 /\ 2 <= length sample_lines
  /\ (forall n l, 0 <= n < 2 -> nth_error sample_lines n = Some l ->
                  starts_with_fence l = false)
  /\ is_in_code_block sample_lines 2 = is_in_code_block sample_lines 0.
Proof.
  assert (H : forall n l, 0 <= n < 2 -> nth_error sample_lines n = Some l ->
                          starts_with_fence l = false).
  { intros n l Hn Hl.
    assert (E : n = 0 \/ n = 1) by lia.
    destruct E as [-> | ->]; injection Hl as <-; reflexivity. }
  split; [lia|]. split; [simpl; lia|]. split; [exact H|].
  apply (is_in_code_block_constant_between_fences sample_lines 0 2);
    [lia | simpl; lia | exact H].
Defined.

(** *** Where a match can start and end *)

Lemma advance_extent (n : nat) :
  forall c, extent (advance n c) = extent c /\ pos c <= pos (advance n c).
Proof.
  unfold extent.
  induction n as [|n IH]; intro c; simpl; [lia|].
  destruct c as [p pv [|x rs]]; simpl; [lia|].
  destruct (IH (mkCursor (S p) (Some x) rs)) as [H1 H2]. simpl in *. lia.
Qed.

Lemma rep_result {R : Type} (cl : ascii -> bool) (lo : nat) (hi : option nat)
    (k : cursor -> option R) (x : R) :
  forall rs n p pv,
    rep cl lo hi n p pv rs k = Some x ->
    exists j,
      lo <= n + j
      /\ j <= String.length rs
      /\ (forall h, hi = Some h -> n + j <= Nat.max n h)
      /\ all_chars cl (take j rs) = true
      /\ k (advance j (mkCursor p pv rs)) = Some x.
Proof.
  induction rs as [|a rs IH]; intros n p pv H; cbn [rep] in H.
  - destruct (Nat.leb_spec lo n); [|discriminate].
    exists 0. repeat split; simpl; auto; lia.
  - assert (Hstop : (if Nat.leb lo n then k (mkCursor p pv (String a rs)) else None)
                    = Some x ->
                    exists j, lo <= n + j /\ j <= String.length (String a rs)
                              /\ (forall h, hi = Some h -> n + j <= Nat.max n h)
                              /\ all_chars cl (take j (String a rs)) = true
                              /\ k (advance j (mkCursor p pv (String a rs))) = Some x).
    { intro Hs. destruct (Nat.leb_spec lo n); [|discriminate].
      exists 0. repeat split; simpl; auto; lia. }
    destruct (cl a && below hi n) eqn:E; [|now apply Hstop].
    destruct (rep cl lo hi (S n) (S p) (Some a) rs k) as [y|] eqn:Hr;
      [|now apply Hstop].
    injection H as ->. apply IH in Hr. destruct Hr as (j & H1 & H2 & Hh & H3 & H4).
    apply andb_true_iff in E. destruct E as [Ea Eb].
    exists (S j). repeat split; simpl; try lia.
    + intros h Hhi. specialize (Hh h Hhi). subst hi. simpl in Eb.
      apply Nat.ltb_lt in Eb. lia.
    + now rewrite Ea, H3.
    + exact H4.
Qed.

Lemma run_result (r : regex) :
  forall (R : Type) (ic : bool) (c : cursor) (g : captures)
         (k : cursor -> captures -> option R) (x : R),
    run R ic r c g k = Some x ->
    exists c' g',
      k c' g' = Some x /\ extent c' = extent c /\ pos c <= pos c'.
Proof.
  induction r as [|s|cl|cl lo hi|r1 IH1 r2 IH2|r1 IH1 r2 IH2|n r1 IH1| | | |r1 IH1|cl];
    intros R ic c g k x H; cbn [run] in H.
  - exists c, g. auto.
  - rewrite lit_spec, cursor_eta in H.
    destruct (lit_match ic s (rest c)); [|discriminate].
    destruct (advance_extent (String.length s) c) as [H1 H2].
    eexists. exists g. eauto.
  - destruct c as [p pv [|a rs]]; simpl in H; [discriminate|].
    destruct (cl a); [|discriminate].
    eexists. exists g. split; [exact H|]. unfold extent. simpl. lia.
  - apply rep_result in H. destruct H as (j & _ & _ & _ & _ & H).
    rewrite cursor_eta in H.
    destruct (advance_extent j c) as [H1 H2].
    eexists. exists g. eauto.
  - apply IH1 in H. destruct H as (c1 & g1 & H & E1 & P1).
    apply IH2 in H. destruct H as (c2 & g2 & H & E2 & P2).
    exists c2, g2. split; [exact H|]. split; lia.
  - destruct (run R ic r1 c g k) as [y|] eqn:E.
    + injection H as ->. now apply IH1 in E.
    + now apply IH2 in H.
  - apply IH1 in H. destruct H as (c1 & g1 & H & E1 & P1).
    eexists. eexists. eauto.
  - destruct (Nat.eqb (pos c) 0); [|discriminate]. exists c, g. auto.
  - destruct (at_eol c); [|discriminate]. exists c, g. auto.
  - destruct (at_boundary c); [|discriminate]. exists c, g. auto.
  - destruct (run unit ic r1 c g _); [discriminate|]. exists c, g. auto.
  - destruct (prev c) as [a|]; [destruct (cl a); [discriminate|]|]; exists c, g; auto.
Qed.

Lemma match_at_bounds (ic : bool) (r : regex) (c : cursor) (m : rmatch) :
  match_at ic r c = Some m ->
  m_start m = pos c /\ pos c <= m_end m /\ m_end m <= extent c.
Proof.
  unfold match_at. intro H. apply run_result in H.
  destruct H as (c' & g' & H & E & P). injection H as <-. cbn.
  unfold extent in *. lia.
Qed.

Lemma finditer_from_start (ic : bool) (r : regex) (m : rmatch) :
  forall rs skip p pv,
    In m (finditer_from ic r skip p pv rs) ->
    p <= m_start m <= p + String.length rs.
Proof.
  induction rs as [|a rs IH]; intros skip p pv H; cbn [finditer_from] in H.
  - destruct skip; [|destruct H].
    destruct (match_at ic r _) as [m0|] eqn:E; [|destruct H].
    destruct H as [<-|[]]. apply match_at_bounds in E. cbn in E. lia.
  - destruct skip as [|skip].
    + destruct (match_at ic r _) as [m0|] eqn:E.
      * destruct H as [<-|H].
        -- apply match_at_bounds in E. cbn in E. simpl. lia.
        -- apply IH in H. simpl. lia.
      * apply IH in H. simpl. lia.
    + apply IH in H. simpl. lia.
Qed.

Lemma finditer_start (ic : bool) (r : regex) (s : string) (m : rmatch) :
  In m (finditer ic r s) -> m_start m <= String.length s.
Proof. intro H. apply finditer_from_start in H. lia. Qed.

Lemma search_from_start (ic : bool) (r : regex) (m : rmatch) :
  forall rs p pv,
    search_from ic r p pv rs = Some m ->
    p <= m_start m <= p + String.length rs.
Proof.
  induction rs as [|a rs IH]; intros p pv H; cbn [search_from] in H.
  - destruct (match_at ic r _) as [m0|] eqn:E; [|discriminate].
    injection H as <-. apply match_at_bounds in E. cbn in E. lia.
  - destruct (match_at ic r _) as [m0|] eqn:E.
    + injection H as <-. apply match_at_bounds in E. cbn in E. simpl. lia.
    + apply IH in H. simpl. lia.
Qed.

Lemma search_start (ic : bool) (r : regex) (s : string) (m : rmatch) :
  search ic r s = Some m -> m_start m <= String.length s.
Proof. intro H. apply search_from_start in H. lia. Qed.

Lemma find_start (needle hay : string) (c : nat) :
  find needle hay = Some c -> c <= String.length hay.
Proof. intro H. apply find_first_occurrence in H. now destruct H as [[H _] _]. Qed.

Lemma length_lower (s : string) : String.length (lower s) = String.length s.
Proof. induction s as [|c s IH]; simpl; [reflexivity | now rewrite IH]. Qed.

(** *** Columns stay within the line *)

Ltac split_membership_eqn :=
  repeat match goal with
  | H : In _ (_ ++ _) |- _ => apply in_app_or in H; destruct H as [H | H]
  | H : In _ (flat_map _ _) |- _ =>
      apply in_flat_map in H; destruct H as [? [? H]]
  | H : In _ (map _ _) |- _ => apply in_map_iff in H; destruct H as [? [<- ?]]
  | H : In _ (let (_, _) := ?e in _) |- _ => destruct e
  | H : In _ (match ?e with _ => _ end) |- _ => destruct e eqn:?
  | H : In _ [] |- _ => destruct H
  | H : In _ (_ :: _) |- _ => destruct H as [<- | H]
  end.

Ltac start_bounds :=
  repeat match goal with
  | H : In _ (finditer _ _ _) |- _ => apply finditer_start in H
  | H : search _ _ _ = Some _ |- _ => apply search_start in H
  | H : find _ _ = Some _ |- _ => apply find_start in H
  | H : (_ && _)%bool = true |- _ => apply andb_true_iff in H; destruct H
  | H : Nat.ltb _ _ = true |- _ => apply Nat.ltb_lt in H
  end;
  rewrite ?length_lower in *.

Ltac show_columns :=
  unfold column_in_line, add_issue, zcol; cbn [column rule String.length].

Ltac close_columns :=
  first [ (left; lia) | (right; split; [reflexivity | lia]) ].

Ltac columns_tac :=
  split_membership_eqn; start_bounds; show_columns; close_columns.

Lemma forbidden_phrases_columns : body_columns_in_line forbidden_phrases_line.
Proof.
  intros i l x H. unfold forbidden_phrases_line in H.
  apply in_flat_map in H. destruct H as [[t c] [_ H]].
  unfold forbidden_phrase_issues in H. columns_tac.
Qed.

Lemma contractions_columns : body_columns_in_line contractions_line.
Proof.
  intros i l x H. unfold contractions_line in H.
  apply in_map_iff in H. destruct H as [m [<- H]].
  unfold contraction_issue. columns_tac.
Qed.

Lemma latin_abbreviations_columns : body_columns_in_line latin_abbreviations_line.
Proof.
  intros i l x H. unfold latin_abbreviations_line in H.
  apply in_flat_map in H. destruct H as [[t c] [_ H]].
  unfold latin_abbreviation_issues in H. columns_tac.
Qed.

Lemma preferred_terminology_columns : body_columns_in_line preferred_terminology_line.
Proof.
  intros i l x H. unfold preferred_terminology_line in H.
  apply in_flat_map in H. destruct H as [[t c] [_ H]].
  unfold preferred_term_issues in H. columns_tac.
Qed.

Lemma directional_language_columns : body_columns_in_line directional_language_line.
Proof. intros i l x H. unfold directional_language_line in H. columns_tac. Qed.

Lemma future_tense_columns : body_columns_in_line future_tense_line.
Proof. intros i l x H. unfold future_tense_line in H. columns_tac. Qed.

Lemma gender_neutral_columns : body_columns_in_line gender_neutral_line.
Proof. intros i l x H. unfold gender_neutral_line in H. columns_tac. Qed.

Lemma voice_columns : body_columns_in_line voice_line.
Proof. intros i l x H. unfold voice_line in H. columns_tac. Qed.

Lemma capitalization_columns : body_columns_in_line capitalization_line.
Proof. intros i l x H. unfold capitalization_line in H. columns_tac. Qed.

Lemma punctuation_columns : body_columns_in_line punctuation_line.
Proof. intros i l x H. unfold punctuation_line in H. columns_tac. Qed.

Lemma numbers_and_units_columns : body_columns_in_line numbers_and_units_line.
Proof. intros i l x H. unfold numbers_and_units_line in H. columns_tac. Qed.

Lemma ui_elements_columns : body_columns_in_line ui_elements_line.
Proof.
  intros i l x H. unfold ui_elements_line in H.
  apply in_app_or in H. destruct H as [H | H].
  - apply in_flat_map in H. destruct H as [v [_ H]].
    unfold ui_verb_issues in H. columns_tac.
  - columns_tac.
Qed.

Lemma code_formatting_columns : body_columns_in_line code_formatting_line.
Proof.
  intros i l x H. unfold code_formatting_line in H.
  apply in_flat_map in H. destruct H as [v [_ H]].
  unfold code_indicator_issues in H. columns_tac.
Qed.

Lemma inclusive_language_columns : body_columns_in_line inclusive_language_line.
Proof.
  intros i l x H. unfold inclusive_language_line in H.
  apply in_flat_map in H. destruct H as [[t c] [_ H]].
  unfold inclusive_term_issues in H. columns_tac.
Qed.

Lemma headings_columns : body_columns_in_line headings_line.
Proof.
  intros i [|a l] x H; [vm_compute in H; destruct H|].
  unfold headings_line in H. columns_tac.
Qed.

Lemma lists_columns (lines : list string) : body_columns_in_line (lists_line lines).
Proof.
  intros i [|a l] x H; [vm_compute in H; destruct H|].
  unfold lists_line in H. columns_tac.
Qed.

Lemma links_columns : body_columns_in_line links_line.
Proof.
  intros i l x H. unfold links_line in H.
  apply in_flat_map in H. destruct H as [m [Hm H]].
  unfold link_issues in H. columns_tac.
Qed.

Lemma accessibility_columns : body_columns_in_line accessibility_line.
Proof.
  intros i l x H. unfold accessibility_line in H.
  apply in_app_or in H. destruct H as [H | H].
  - columns_tac.
  - apply in_flat_map in H. destruct H as [c [_ H]]. columns_tac.
Qed.

Lemma prose_bodies_columns (body : nat -> string -> list LintIssue) :
  In body prose_bodies -> body_columns_in_line body.
Proof.
  unfold prose_bodies. cbn [In].
  intros [<-|[<-|[<-|[<-|[<-|[<-|[<-|[<-|[<-|[<-|[<-|[<-|[<-|[<-|[]]]]]]]]]]]]]]];
    auto using forbidden_phrases_columns, contractions_columns,
      latin_abbreviations_columns, preferred_terminology_columns,
      directional_language_columns, future_tense_columns,
      gender_neutral_columns, voice_columns, capitalization_columns,
      punctuation_columns, numbers_and_units_columns,
      ui_elements_columns, code_formatting_columns,
      inclusive_language_columns.
Qed.

Lemma unconditional_bodies_columns (lines : list string)
    (body : nat -> string -> list LintIssue) :
  In body (unconditional_bodies lines) -> body_columns_in_line body.
Proof.
  unfold unconditional_bodies. cbn [In].
  intros [<-|[<-|[<-|[<-|[]]]]];
    auto using headings_columns, lists_columns, links_columns,
      accessibility_columns.
Qed.

(** X8: the column of a finding lies within its line, from 0 to the length
    of the line; the only exception is the "see"/"refer to" finding of the
    link check, whose column is the start of the link minus ten. *)
Theorem finding_column_lies_in_line (lines : list string)
    (issues : list LintIssue) (x : LintIssue) :
  lint_lines lines = Some issues -> In x issues ->
  column_in_line (line_content x) x.
Proof.
  intros Hrun Hin. rewrite lint_lines_pure in Hrun. injection Hrun as <-.
  apply in_sorted_issues, in_all_issues in Hin.
  destruct Hin as (i & l & Hn & [[Hfree (body & Hb & Hx)] | (body & Hb & Hx)]).
  - destruct (prose_bodies_well_formed body Hb _ _ _ Hx) as (_ & -> & _).
    exact (prose_bodies_columns body Hb _ _ _ Hx).
  - destruct (unconditional_bodies_well_formed lines body Hb _ _ _ Hx) as (_ & -> & _).
    exact (unconditional_bodies_columns lines body Hb _ _ _ Hx).
Qed.

Lemma finding_column_lies_in_line_witness :
  lint_lines sample_lines = Some sample_findings
  /\ In sample_alt_text_finding sample_findings
  /\ column_in_line (line_content sample_alt_text_finding) sample_alt_text_finding.
Proof.
  split; [exact sample_lint|]. split; [exact sample_alt_text_found|].
  exact (finding_column_lies_in_line sample_lines sample_findings
           sample_alt_text_finding sample_lint sample_alt_text_found).
Defined.

Example link_see_column_is_negative :
  option_map (map (fun x => (rule x, column x))) (lint_lines ["see [a](b)"])
  = Some [("ms-link-see", (-6)%Z)].
Proof. vm_compute. reflexivity. Qed.

(** *** Matches and the cursors of the line *)

Lemma finditer_from_sound (ic : bool) (r : regex) (m : rmatch) :
  forall rs skip p pv,
    In m (finditer_from ic r skip p pv rs) ->
    exists c, In c (cursors p pv rs) /\ match_at ic r c = Some m.
Proof.
  induction rs as [|a rs IH]; intros skip p pv H; cbn [finditer_from] in H.
  - destruct skip; [|destruct H].
    destruct (match_at ic r _) as [m0|] eqn:E; [|destruct H].
    destruct H as [<-|[]]. eexists. split; [left; reflexivity | exact E].
  - cbn [cursors]. destruct skip as [|skip].
    + destruct (match_at ic r _) as [m0|] eqn:E.
      * destruct H as [<-|H].
        -- eexists. split; [left; reflexivity | exact E].
        -- apply IH in H. destruct H as [c [Hc Hm]]. exists c. split; [now right | exact Hm].
      * apply IH in H. destruct H as [c [Hc Hm]]. exists c. split; [now right | exact Hm].
    + apply IH in H. destruct H as [c [Hc Hm]]. exists c. split; [now right | exact Hm].
Qed.

Lemma finditer_sound (ic : bool) (r : regex) (line : string) (m : rmatch) :
  In m (finditer ic r line) ->
  exists p, p <= String.length line /\ match_at ic r (cursor_at line p) = Some m.
Proof.
  intro H. apply finditer_from_sound in H. destruct H as [c [Hc Hm]].
  rewrite cursors_of_line in Hc. apply in_map_iff in Hc.
  destruct Hc as [p [<- Hp]]. apply in_seq in Hp.
  exists p. split; [lia | exact Hm].
Qed.

(** *** The contraction check always finds an expansion *)

Lemma contraction_match_text (line : string) (p : nat) (t : string) :
  wpick contractions (cursor_at line p) = Some t ->
  lower (slice p (pos (advance (String.length t) (cursor_at line p))) line) = t.
Proof.
  intro Hpick. apply wpick_some in Hpick. destruct Hpick as (_ & Hin & He).
  unfold ends_word in He. apply andb_true_iff in He. destruct He as [Hm _].
  cbn [rest cursor_at] in Hm.
  rewrite pos_advance by (now apply (lit_match_length true)).
  unfold cursor_at at 1. cbn [pos]. rewrite slice_from.
  rewrite lit_match_nocase in Hm. rewrite (lower_take_prefix _ _ Hm).
  assert (Hlow : all_lowercase contractions = true) by reflexivity.
  unfold all_lowercase in Hlow. rewrite forallb_forall in Hlow.
  now apply String.eqb_eq, Hlow.
Qed.

(** X13: on a line of characters in the range 0..255, every contraction
    finding sits at a whole-word occurrence of a listed contraction and
    suggests the expansion the table gives for it; on such a line the
    fallback text [expanded form] is not used.  (Outside that range the
    pattern also matches spellings whose lowercase form is not listed,
    such as one with the long s, and the fallback is reached.) *)
Theorem contraction_findings_use_the_table (i : nat) (line : string)
    (x : LintIssue) :
  In x (contractions_line i line) ->
  exists t e p,
    In t contractions
    /\ dict_get t expanded = Some e
    /\ suggestion x = ("Use: " ++ e)%string
    /\ column x = Z.of_nat p
    /\ whole_word_at t line p = true.
Proof.
  unfold contractions_line. intro H.
  apply in_map_iff in H. destruct H as [m [<- Hm]].
  apply finditer_sound in Hm. destruct Hm as [p [Hp Hm]].
  rewrite match_at_contraction in Hm.
  destruct (wpick contractions (cursor_at line p)) as [t|] eqn:P; [|discriminate].
  injection Hm as <-.
  pose proof (contraction_match_text line p t P) as Htext.
  pose proof (wpick_some _ _ _ P) as (Hb & Hin & He).
  assert (Hall : forallb (fun t => match dict_get t expanded with
                                   | Some _ => true | None => false end)
                   contractions = true) by reflexivity.
  rewrite forallb_forall in Hall. specialize (Hall t Hin).
  destruct (dict_get t expanded) as [e|] eqn:G; [|discriminate].
  exists t, e, p. split; [exact Hin|]. split; [exact G|].
  unfold contraction_issue, group, add_issue, zcol.
  cbn [suggestion column m_groups m_start span_of Nat.eqb].
  assert (Hpos : pos (cursor_at line p) = p) by reflexivity.
  split; [|split; [reflexivity|]].
  - rewrite Htext, G. reflexivity.
  - rewrite <- (whole_word_at_cursor t line p Hp). now rewrite Hb, He.
Qed.

Lemma contraction_findings_use_the_table_witness :
  In sample_contraction_finding
     (contractions_line 6 "We can't log in via email, e.g. now.")
  /\ exists t e p,
       In t contractions
       /\ dict_get t expanded = Some e
       /\ suggestion sample_contraction_finding = ("Use: " ++ e)%string
       /\ column sample_contraction_finding = Z.of_nat p
       /\ whole_word_at t "We can't log in via email, e.g. now." p = true.
Proof.
  assert (H : In sample_contraction_finding
                (contractions_line 6 "We can't log in via email, e.g. now."))
    by (vm_compute; left; reflexivity).
  split; [exact H|].
  exact (contraction_findings_use_the_table 6 _ _ H).
Defined.

(** *** Triggers listed in two catalogs *)

Lemma dict_get_some_in {V : Type} (k : string) (d : list (string * V)) :
  In k (map fst d) -> exists v, dict_get k d = Some v /\ In (k, v) d.
Proof.
  induction d as [|[k' v'] d IH]; intro H; [destruct H|].
  cbn [dict_get]. destruct (String.eqb k k') eqn:E.
  - apply String.eqb_eq in E. subst. exists v'. split; [reflexivity | now left].
  - destruct H as [H|H]; [simpl in H; subst; rewrite String.eqb_refl in E; discriminate|].
    destruct (IH H) as [v [Hv Hin]]. exists v. split; [exact Hv | now right].
Qed.



Example shared_triggers_listed :
  shared_triggers = ["via"; "e.g."; "i.e."; "etc."].
Proof. reflexivity. Qed.

(** *** The words of a line *)

Lemma word_match_text (s : string) (p : nat) (m : rmatch) :
  p <= String.length s ->
  match_at false word_pattern (cursor_at s p) = Some m ->
  all_chars isword (group0 s m) = true.
Proof.
  intros Hp H. unfold match_at, word_pattern in H. cbn [seq_of run plus] in H.
  destruct (at_boundary (cursor_at s p)); [|discriminate].
  apply rep_result in H. destruct H as (j & _ & Hj & _ & Hall & H).
  rewrite cursor_eta in H.
  destruct (at_boundary (advance j (cursor_at s p))); [|discriminate].
  injection H as <-. unfold group0. cbn [m_start m_end].
  rewrite pos_advance by exact Hj.
  assert (Hpos : pos (cursor_at s p) = p) by reflexivity. rewrite Hpos.
  rewrite slice_from. exact Hall.
Qed.

(** X15: the gender check looks up whole words made of word characters
    only, so every finding names such a word of the table; the entry
    [man-hours], which contains a hyphen, is never reported. *)
Theorem gender_findings_are_single_words (i : nat) (line : string)
    (x : LintIssue) :
  In x (gender_neutral_line i line) ->
  exists w alt,
    dict_get w gendered_terms = Some alt
    /\ all_chars isword w = true
    /\ w <> "man-hours"
    /\ message x = ("Use gender-neutral language: " ++ quoted w)%string
    /\ suggestion x = ("Consider: " ++ alt)%string.
Proof.
  unfold gender_neutral_line. intro H. apply in_flat_map in H.
  destruct H as [w [Hw Hx]]. unfold findall in Hw. apply in_map_iff in Hw.
  destruct Hw as [m [<- Hm]]. apply finditer_sound in Hm.
  destruct Hm as [p [Hp Hm]]. apply word_match_text in Hm; [|exact Hp].
  destruct (dict_get (group0 (lower line) m) gendered_terms) as [alt|] eqn:G;
    [|destruct Hx].
  destruct (find (group0 (lower line) m) (lower line)) as [c|]; [|destruct Hx].
  destruct Hx as [<-|[]].
  exists (group0 (lower line) m), alt. split; [exact G|]. split; [exact Hm|].
  split; [|split; reflexivity].
  intro E. rewrite E in Hm. discriminate.
Qed.

Lemma gender_findings_are_single_words_witness :
  In sample_gender_finding (gender_neutral_line 1 "Ask her for the man-hours.")
  /\ exists w alt,
       dict_get w gendered_terms = Some alt
       /\ all_chars isword w = true
       /\ w <> "man-hours"
       /\ message sample_gender_finding
          = ("Use gender-neutral language: " ++ quoted w)%string
       /\ suggestion sample_gender_finding = ("Consider: " ++ alt)%string.
Proof.
  assert (H : In sample_gender_finding
                (gender_neutral_line 1 "Ask her for the man-hours."))
    by (vm_compute; left; reflexivity).
  split; [exact H|].
  exact (gender_findings_are_single_words 1 _ _ H).
Defined.

(** *** Heading lines *)

(** X16: the heading check reports only on lines that start with one to six
    number signs followed by a white-space character. *)
Theorem heading_findings_need_a_heading_marker (i : nat) (line : string)
    (x : LintIssue) :
  In x (headings_line i line) ->
  exists j,
    1 <= j <= 6
    /\ all_chars (is_char "#") (take j line) = true
    /\ first_char_is isspace (drop j line) = true.
Proof.
  unfold headings_line, rmatch_start. intro H.
  destruct (match_at false heading_pattern (start_of line)) as [m|] eqn:M;
    [|destruct H].
  clear H. unfold match_at, heading_pattern, start_of in M.
  cbn [seq_of run plus pos prev rest Nat.eqb] in M.
  apply rep_result in M. destruct M as (j & Hlo & Hj & Hhi & Hall & M).
  specialize (Hhi 6 eq_refl).
  apply rep_result in M. destruct M as (j2 & Hlo2 & Hj2 & _ & Hall2 & _).
  rewrite rest_advance in Hall2, Hj2. cbn [rest] in Hall2, Hj2.
  exists j. split; [simpl in Hhi; lia|]. split; [exact Hall|].
  destruct j2 as [|j2]; [lia|].
  destruct (drop j line) as [|a tl]; [simpl in Hj2; lia|].
  cbn [take all_chars] in Hall2. apply andb_true_iff in Hall2.
  now destruct Hall2.
Qed.

Lemma heading_findings_need_a_heading_marker_witness :
  In sample_heading_finding (headings_line 1 "# Setting up:")
  /\ exists j,
       1 <= j <= 6
       /\ all_chars (is_char "#") (take j "# Setting up:") = true
       /\ first_char_is isspace (drop j "# Setting up:") = true.
Proof.
  assert (H : In sample_heading_finding (headings_line 1 "# Setting up:"))
    by (vm_compute; left; reflexivity).
  split; [exact H|].
  exact (heading_findings_need_a_heading_marker 1 _ _ H).
Defined.
